(** * Harmony work-item scheduling and execution: a shallow embedding

    The development models these source files of the repository:
    - [models/batch.ts]                         (module [BatchModel]),
    - [workflow-orchestration/work-item-polling.ts] (module [Polling]),
    - the service runner (LogStream, catalogs, error resolution, log upload,
      [runServiceFromPull])                     (module [Runner]),
    - the runner's [runQueryCmrFromPull]        (module [QueryCmr]),
    - the object-store index ([defaultObjectStore],
      [objectStoreForProtocol])                 (module [ObjectStores]),
    - [packages/util/string.ts]                 (module [StringUtil]),
    - [util/log.ts], the log level part         (module [Log]).

    Strings are sequences of characters with codes below 256; regular
    expressions are matched by derivatives (module [Text]).

    Part I holds the definitions, Part II the lemmas and theorems. *)

From Stdlib Require Import ZArith String Ascii List Lia Permutation Sorted Bool.
From stdpp Require Import base list strings pretty gmap.
Import ListNotations.
Local Open Scope Z_scope.

(* ###################################################################### *)
(** * Part I: definitions *)
(* ###################################################################### *)

(** ** JavaScript values, exceptions and effects *)

Module JS.

(** JSON documents as [JSON.parse] produces them.  Objects keep their keys in
    insertion order, so they are association lists.  Numeric payloads are
    integers: the numbers this code inspects are ids, counts and indices. *)
#[warnings="-register-all"]
Inductive json : Type :=
| JNull
| JBool (b : bool)
| JNum (n : Z)
| JStr (s : string)
| JArr (items : list json)
| JObj (fields : list (string * json)).

(** A JavaScript value is a JSON value or [undefined]. *)
Abbreviation jsval := (option json).
Abbreviation undefined := (@None json).

(** The three kinds of exception the modelled code can see. *)
Inductive exn : Type :=
| SyntaxError (msg : string)
| TypeError (msg : string)
| Error (msg : string).

Definition message (e : exn) : string :=
  match e with SyntaxError m | TypeError m | Error m => m end.

(** [e instanceof SyntaxError] *)
Definition instanceof_SyntaxError (e : exn) : bool :=
  match e with SyntaxError _ => true | _ => false end.

(** Outcome of a call that may throw. *)
Inductive res (A : Type) : Type :=
| Ok (a : A)
| Throw (e : exn).
Arguments Ok {A} a.
Arguments Throw {A} e.

Definition res_bind {A B} (r : res A) (k : A -> res B) : res B :=
  match r with Ok a => k a | Throw e => Throw e end.

(** [String(v)], also what a template literal does with [${v}]. *)
Fixpoint js_String (v : json) : string :=
  match v with
  | JNull => "null"
  | JBool true => "true"
  | JBool false => "false"
  | JNum n => pretty n
  | JStr s => s
  | JArr xs =>
      (fix join (l : list json) : string :=
         match l with
         | [] => ""
         | x :: r =>
             let sx := match x with JNull => "" | _ => js_String x end in
             match r with [] => sx | _ => sx +:+ "," +:+ join r end
         end) xs
  | JObj _ => "[object Object]"
  end.

Definition template (v : jsval) : string :=
  match v with None => "undefined" | Some j => js_String j end.

(** Truthiness, for [a ? b : c] and [a && b] on values. *)
Definition truthy (v : jsval) : bool :=
  match v with
  | None | Some JNull | Some (JBool false) | Some (JNum 0) | Some (JStr "") => false
  | _ => true
  end.

(** *** Own properties of an object literal *)

Fixpoint get_prop (k : string) (fs : list (string * json)) : jsval :=
  match fs with
  | [] => None
  | (k', v) :: r => if String.eqb k k' then Some v else get_prop k r
  end.

(** [k in obj] *)
Definition has_prop (k : string) (fs : list (string * json)) : bool :=
  match get_prop k fs with Some _ => true | None => false end.

(** [obj[k] = v]: an existing key keeps its place, a new key goes last. *)
Fixpoint set_prop (k : string) (v : json) (fs : list (string * json))
  : list (string * json) :=
  match fs with
  | [] => [(k, v)]
  | (k', v') :: r =>
      if String.eqb k k' then (k, v) :: r else (k', v') :: set_prop k v r
  end.

(** [delete obj[k]] *)
Fixpoint delete_prop (k : string) (fs : list (string * json))
  : list (string * json) :=
  match fs with
  | [] => []
  | (k', v') :: r =>
      if String.eqb k k' then delete_prop k r else (k', v') :: delete_prop k r
  end.

(** [v.k] on an arbitrary value: throws on [null]/[undefined], is [undefined]
    on the other primitives and on arrays (for non-index, non-length keys). *)
Definition member (v : jsval) (k : string) : res jsval :=
  match v with
  | None => Throw (TypeError ("Cannot read properties of undefined (reading '" +:+ k +:+ "')"))
  | Some JNull => Throw (TypeError ("Cannot read properties of null (reading '" +:+ k +:+ "')"))
  | Some (JObj fs) => Ok (get_prop k fs)
  | Some _ => Ok None
  end.

(** *** A state-and-exception monad

    [Eff S A] is a computation over a mutable world [S] that returns an [A] or
    throws.  What was written to the world before a throw stays written, as
    in JavaScript; a database transaction undoes its part explicitly. *)
Definition Eff (S A : Type) : Type := S -> res A * S.

Definition ret {S A} (a : A) : Eff S A := fun s => (Ok a, s).

Definition bind {S A B} (m : Eff S A) (k : A -> Eff S B) : Eff S B :=
  fun s => match m s with
           | (Ok a, s') => k a s'
           | (Throw e, s') => (Throw e, s')
           end.

Definition throw {S A} (e : exn) : Eff S A := fun s => (Throw e, s).

(** [try { body } catch (e) { handler e }] *)
Definition try_catch {S A} (body : Eff S A) (handler : exn -> Eff S A) : Eff S A :=
  fun s => match body s with
           | (Ok a, s') => (Ok a, s')
           | (Throw e, s') => handler e s'
           end.

Definition get {S} : Eff S S := fun s => (Ok s, s).
Definition gets {S A} (f : S -> A) : Eff S A := fun s => (Ok (f s), s).
Definition modify {S} (f : S -> S) : Eff S unit := fun s => (Ok tt, f s).
Definition lift_res {S A} (r : res A) : Eff S A := fun s => (r, s).

(** [for (const x of l) { body x }] *)
Fixpoint for_of {S A} (l : list A) (body : A -> Eff S unit) : Eff S unit :=
  match l with
  | [] => ret tt
  | x :: r => bind (body x) (fun _ => for_of r body)
  end.

Declare Scope eff_scope.
Delimit Scope eff_scope with eff.
Notation "x <- c ;; k" := (bind c (fun x => k))
  (at level 100, c at next level, right associativity) : eff_scope.
Notation "c ;; k" := (bind c (fun _ => k))
  (at level 100, right associativity) : eff_scope.
Notation "'let*' x := c 'in' k" := (res_bind c (fun x => k))
  (at level 10, x name, c at level 100, k at level 200).

(** The built-in [JSON] object.  [JSON_parse] is [None] where [JSON.parse]
    throws its [SyntaxError]. *)
Class JSONBuiltins : Type := {
  JSON_parse : string -> option json;
  JSON_stringify : json -> string
}.

Definition JSON_parse_res `{JSONBuiltins} (s : string) : res json :=
  match JSON_parse s with
  | Some v => Ok v
  | None => Throw (SyntaxError "Unexpected token in JSON")
  end.

(** [Math.ceil(a / b)] on integers, [b] non-zero. *)
Definition Math_ceil_div (a b : Z) : Z := - ((- a) / b).

(** A stable insertion sort; [le a b] tells that [a] may stay before [b]. *)
Section Sort.
Context {A : Type} (le : A -> A -> bool).

Fixpoint insert_sorted (x : A) (l : list A) : list A :=
  match l with
  | [] => [x]
  | y :: r => if le x y then x :: y :: r else y :: insert_sorted x r
  end.

Definition sort_by (l : list A) : list A :=
  fold_right insert_sorted [] l.
End Sort.

End JS.
Import JS.

(** ** [models/batch.ts] *)

Module BatchModel.

(** The serialized fields of a batch; [createdAt]/[updatedAt] are stamped by
    the record layer and play no part in the queries. *)
Record BatchRow : Type := mkRow {
  row_id : Z;
  row_jobID : string;
  row_serviceID : string;
  row_batchID : Z
}.

(** [class Batch extends Record implements BatchRecord] *)
Record Batch : Type := mkBatch {
  id : option Z;
  jobID : string;
  serviceID : string;
  batchID : Z;
  isProcessed : option bool
}.

(** The [batches] table, in insertion order. *)
Abbreviation table := (list BatchRow).

(** [new Batch(result)] *)
Definition Batch_of_row (r : BatchRow) : Batch :=
  {| id := Some (row_id r); jobID := row_jobID r; serviceID := row_serviceID r;
     batchID := row_batchID r; isProcessed := None |}.

Definition next_id (tbl : table) : Z :=
  1 + fold_right Z.max 0 (map row_id tbl).

(** Modelled from the spec: [Record.save] of the record layer, which is not
    among the sources.  A batch is "created ... never mutated after save", so
    saving inserts one row holding the serialized fields ([_.pick(this,
    serializedFields)] drops [isProcessed]). *)
Definition save (b : Batch) (tbl : table) : table :=
  tbl ++ [ {| row_id := default (next_id tbl) (id b);
              row_jobID := jobID b; row_serviceID := serviceID b;
              row_batchID := batchID b |} ].

(** [.where({ jobID, serviceID })] *)
Definition where_job_service (j s : string) (tbl : table) : table :=
  filter (fun r => row_jobID r = j /\ row_serviceID r = s) tbl.

(** [.orderBy('batchID', 'desc')] *)
Definition orderBy_batchID_desc (tbl : table) : table :=
  sort_by (fun a b => row_batchID b <=? row_batchID a) tbl.

(** [.first()] *)
Definition first (tbl : table) : option BatchRow := head tbl.

Definition withHighestBatchIDForJobService (tx : table) (j s : string)
  : option Batch :=
  let result := first (orderBy_batchID_desc (where_job_service j s tx)) in
  (* const batch = result && new Batch(result) *)
  match result with
  | Some row => Some (Batch_of_row row)
  | None => None
  end.

(** Saving fresh batches for one job/service with the given batch ids. *)
Definition save_all (j s : string) (ids : list Z) (tbl : table) : table :=
  fold_left
    (fun t n => save {| id := None; jobID := j; serviceID := s; batchID := n;
                        isProcessed := None |} t)
    ids tbl.

End BatchModel.

(** ** Text: characters, decimal numerals and the regular expressions used *)

Module Text.

Definition chars (s : string) : list ascii := list_ascii_of_string s.
Definition text (l : list ascii) : string := string_of_list_ascii l.

Definition is_digit (c : ascii) : bool :=
  let n := nat_of_ascii c in (48 <=? n)%nat && (n <=? 57)%nat.

(** [.] of a regular expression without the [s] flag: no line terminator. *)
Definition is_dot (c : ascii) : bool :=
  let n := nat_of_ascii c in negb ((n =? 10)%nat || (n =? 13)%nat).

(** [Number(ds)] for a non-empty run of decimal digits (exact below 2^53). *)
Definition Number_digits (ds : list ascii) : Z :=
  fold_left (fun acc c => 10 * acc + (Z.of_nat (nat_of_ascii c) - 48)) ds 0.

(** [c.toUpperCase()] on ASCII letters *)
Definition toUpperCase (c : ascii) : ascii :=
  let n := nat_of_ascii c in
  if (97 <=? n)%nat && (n <=? 122)%nat then ascii_of_nat (n - 32) else c.

(** [s[0].toUpperCase() + s.substring(1)] *)
Definition upperFirst (s : string) : string :=
  match s with
  | EmptyString => EmptyString
  | String c r => String (toUpperCase c) r
  end.

(** Regular expressions, matched by Brzozowski derivatives. *)
Inductive regex : Type :=
| Void
| Eps
| Chr (p : ascii -> bool)
| Cat (r1 r2 : regex)
| Alt (r1 r2 : regex)
| Star (r : regex).

(** The words of a regular expression *)
Inductive lang : regex -> list ascii -> Prop :=
| lang_eps : lang Eps []
| lang_chr p c : p c = true -> lang (Chr p) [c]
| lang_cat r1 r2 l1 l2 : lang r1 l1 -> lang r2 l2 -> lang (Cat r1 r2) (l1 ++ l2)
| lang_alt_l r1 r2 l : lang r1 l -> lang (Alt r1 r2) l
| lang_alt_r r1 r2 l : lang r2 l -> lang (Alt r1 r2) l
| lang_star_nil r : lang (Star r) []
| lang_star_cons r l1 l2 : lang r l1 -> lang (Star r) l2 -> lang (Star r) (l1 ++ l2).

Fixpoint nullable (r : regex) : bool :=
  match r with
  | Void => false
  | Eps => true
  | Chr _ => false
  | Cat r1 r2 => nullable r1 && nullable r2
  | Alt r1 r2 => nullable r1 || nullable r2
  | Star _ => true
  end.

Definition cat (r1 r2 : regex) : regex :=
  match r1, r2 with
  | Void, _ | _, Void => Void
  | Eps, r | r, Eps => r
  | _, _ => Cat r1 r2
  end.

Definition alt (r1 r2 : regex) : regex :=
  match r1, r2 with
  | Void, r | r, Void => r
  | _, _ => Alt r1 r2
  end.

Fixpoint deriv (c : ascii) (r : regex) : regex :=
  match r with
  | Void | Eps => Void
  | Chr p => if p c then Eps else Void
  | Cat r1 r2 =>
      if nullable r1 then alt (cat (deriv c r1) r2) (deriv c r2)
      else cat (deriv c r1) r2
  | Alt r1 r2 => alt (deriv c r1) (deriv c r2)
  | Star r1 => cat (deriv c r1) (Star r1)
  end.

(** The whole of [l] is a word of [r]. *)
Definition accepts (r : regex) (l : list ascii) : bool :=
  nullable (fold_left (fun r c => deriv c r) l r).

Definition lit (s : string) : regex :=
  fold_right (fun c r => cat (Chr (Ascii.eqb c)) r) Eps (chars s).

Definition any_char : regex := Chr (fun _ => true).
Definition dot : regex := Chr is_dot.
Definition digit : regex := Chr is_digit.

(** [re.test(s)] / [s.match(re)] being non-null, for an [re] that ends in [$]
    and is not anchored at its start: some suffix of [s] is a word of [re]. *)
Definition search_to_end (r : regex) (s : string) : bool :=
  accepts (cat (Star any_char) r) (chars s).

(** [/catalog\d*.json$/] *)
Definition catalogKeyRegex : regex :=
  cat (lit "catalog") (cat (Star digit) (cat dot (lit "json"))).

(** [/.*catalog(\d+)\.json$/] without its capture *)
Definition fileNumRegex : regex :=
  cat (Star dot)
      (cat (lit "catalog") (cat (cat digit (Star digit)) (lit ".json"))).

(** The words of [/.*catalog(\d+)\.json$/] found by a search *)
Definition indexed_catalog (l : list ascii) : Prop :=
  exists pre ds,
    l = pre ++ chars "catalog" ++ ds ++ chars ".json" /\
    ds <> [] /\ forallb is_digit ds = true.

(** Longest prefix of a list whose elements pass [p], and the rest. *)
Fixpoint span {A} (p : A -> bool) (l : list A) : list A * list A :=
  match l with
  | [] => ([], [])
  | x :: r => if p x then let '(a, b) := span p r in (x :: a, b) else ([], l)
  end.

(** [strip pre l]: [l] without its prefix [pre], when it has it. *)
Fixpoint strip (pre l : list ascii) : option (list ascii) :=
  match pre, l with
  | [], _ => Some l
  | c :: pre', d :: l' => if Ascii.eqb c d then strip pre' l' else None
  | _ :: _, [] => None
  end.

(** [s.match(/.*catalog(\d+)\.json$/)]: [None] is [null]; otherwise the matched
    text followed by the text of group 1.  The string is read from its end:
    [.json], then the digits of the group (the character before them is the
    [g] of [catalog], so the run is the whole group), then [catalog]; the
    leading [.*] takes what precedes on the same line. *)
Definition match_fileNumRegex (s : string) : option (list string) :=
  match strip (rev (chars ".json")) (rev (chars s)) with
  | None => None
  | Some r1 =>
      let '(ds, r2) := span is_digit r1 in
      match ds, strip (rev (chars "catalog")) r2 with
      | _ :: _, Some r3 =>
          let '(line, _) := span is_dot r3 in
          Some [ text (rev line ++ chars "catalog" ++ rev ds ++ chars ".json");
                 text (rev ds) ]
      | _, _ => None
      end
  end.

(** The longest prefix of [l] that is a word of [r]: its length. *)
Fixpoint longest_match (r : regex) (l : list ascii) (n : nat) (best : option nat)
  : option nat :=
  let best' := if nullable r then Some n else best in
  match l with
  | [] => best'
  | c :: l' => longest_match (deriv c r) l' (S n) best'
  end.

(** [s.replace(re, '')] for a regular expression without the [g] flag: the
    leftmost match is removed.  For the expressions used here (a greedy [.*]
    followed by text of fixed length) the match found at a position is the
    longest one. *)
Fixpoint replace_first (r : regex) (l : list ascii) : list ascii :=
  match longest_match r l 0 None with
  | Some n => drop n l
  | None => match l with
            | [] => []
            | c :: l' => c :: replace_first r l'
            end
  end.

(** [s.split(c)] for a one-character separator *)
Fixpoint split_chars (sep : ascii) (l cur : list ascii) : list string :=
  match l with
  | [] => [text (rev cur)]
  | c :: r =>
      if Ascii.eqb c sep then text (rev cur) :: split_chars sep r []
      else split_chars sep r (c :: cur)
  end.

Definition split (sep : ascii) (s : string) : list string :=
  split_chars sep (chars s) [].

(** [`${n / 1000.0}`] for an integer [n]: the decimal numeral of [n/1000]
    (at most three decimals, no trailing zero), which is how JavaScript
    prints the quotient for the magnitudes a timeout takes. *)
Definition fraction_digits (r : Z) : string :=
  let d1 := r / 100 in
  let d2 := (r / 10) mod 10 in
  let d3 := r mod 10 in
  if d3 =? 0 then
    if d2 =? 0 then pretty d1 else pretty d1 +:+ pretty d2
  else pretty d1 +:+ pretty d2 +:+ pretty d3.

Definition thousandths (n : Z) : string :=
  let a := Z.abs n in
  let q := a / 1000 in
  let r := a mod 1000 in
  (if n <? 0 then "-" else "") +:+ pretty q +:+
  (if r =? 0 then "" else "." +:+ fraction_digits r).

(** [items.join(sep)] *)
Fixpoint Array_join (sep : string) (items : list string) : string :=
  match items with
  | [] => ""
  | [x] => x
  | x :: r => x +:+ sep +:+ Array_join sep r
  end.

(** A literal under the [i] flag: a character matches when it has the upper
    case of the pattern's character. *)
Definition lit_i (s : string) : regex :=
  fold_right
    (fun c r => cat (Chr (fun d => Ascii.eqb (toUpperCase d) (toUpperCase c))) r)
    Eps (chars s).

(** [re.test(s)] for an [re] of the form [/^...$/]: the whole of [s] is a
    word. *)
Definition test_whole (r : regex) (s : string) : bool := accepts r (chars s).

(** [l] holds a word of [r]: what [re.test(l)] looks for when [re] has no
    anchor. *)
Definition occurs (r : regex) (l : list ascii) : Prop :=
  exists a w b, l = a ++ w ++ b /\ lang r w.

(** Putting characters of the same line in front of a word of [r] gives a
    word of [r]: the expression starts with [.*]. *)
Definition left_closed (r : regex) : Prop :=
  forall a w, forallb is_dot a = true -> lang r w -> lang r (a ++ w).

(** [c.toLowerCase()] on ASCII letters *)
Definition toLowerCase (c : ascii) : ascii :=
  let n := nat_of_ascii c in
  if (65 <=? n)%nat && (n <=? 90)%nat then ascii_of_nat (n + 32) else c.

(** [s.toLowerCase()] *)
Definition String_toLowerCase (s : string) : string :=
  text (map toLowerCase (chars s)).

(** White space and line terminators, among the characters below 256: what
    [trim] removes. *)
Definition is_space (c : ascii) : bool :=
  let n := nat_of_ascii c in
  (n =? 9)%nat || (n =? 10)%nat || (n =? 11)%nat || (n =? 12)%nat
  || (n =? 13)%nat || (n =? 32)%nat || (n =? 160)%nat.

(** [s.trim()] *)
Definition trim (s : string) : string :=
  text (rev (snd (span is_space (rev (snd (span is_space (chars s))))))).

End Text.
Import Text.

(** ** [packages/util/string.ts] *)

Module StringUtil.

(** [/.*amazonaws.com\//], [/.*ghcr.io\//], [/.*earthdata.nasa.gov\//] *)
Definition ecrRegex : regex :=
  cat (Star dot) (cat (lit "amazonaws") (cat dot (lit "com/"))).
Definition ghcrRegex : regex :=
  cat (Star dot) (cat (lit "ghcr") (cat dot (lit "io/"))).
Definition earthdataRegex : regex :=
  cat (Star dot)
      (cat (lit "earthdata")
           (cat dot (cat (lit "nasa") (cat dot (lit "gov/"))))).

Definition sanitizeImage (image : string) : string :=
  text (replace_first earthdataRegex
          (replace_first ghcrRegex
             (replace_first ecrRegex (chars image)))).

(** [inEcr]: [/.*amazonaws.com\//.test(image)] *)
Definition inEcr (image : string) : bool :=
  existsb (fun i => match longest_match ecrRegex (drop i (chars image)) 0 None with
                    | Some _ => true
                    | None => false
                    end)
          (seq 0 (S (String.length image))).

(** [enum Conjunction] *)
Inductive Conjunction : Type := AND | OR.

Definition Conjunction_text (c : Conjunction) : string :=
  match c with AND => "and" | OR => "or" end.

(** [items] is [None] for a missing array ([null], [undefined]); [joinWord]
    is [None] when the argument is omitted: the default applies. *)
Definition listToText (items : option (list string)) (joinWord : option Conjunction)
  : string :=
  let joinWord := Conjunction_text (default AND joinWord) in
  match items with
  | None => ""
  | Some items =>
      match length items with
      | 0%nat => ""
      | 1%nat => nth 0 items ""
      | 2%nat => Array_join (" " +:+ joinWord +:+ " ") items
      | _ =>
          let result := items in
          let i := (length result - 1)%nat in
          let result := <[i := joinWord +:+ " " +:+ nth i result ""]> result in
          Array_join ", " result
      end
  end.

(** [n] is a number of characters, an integer. *)
Definition truncateString (s : string) (n : Z) : string :=
  if n <? Z.of_nat (String.length s) then
    if n <? 3 then "..."
    else text (take (Z.to_nat (n - 3)) (chars s)) +:+ "..."
  else s.

(** [/^-?\d+$/] *)
Definition integerRegex : regex :=
  cat (alt Eps (lit "-")) (cat digit (Star digit)).

Definition isInteger (value : string) : bool := test_whole integerRegex value.

(** [/^[-+]?\d*\.\d+$/] *)
Definition floatRegex : regex :=
  cat (alt Eps (Chr (fun c => Ascii.eqb c "-" || Ascii.eqb c "+")))
      (cat (Star digit) (cat (lit ".") (cat digit (Star digit)))).

Definition isFloat (value : string) : bool := test_whole floatRegex value.

(** [/^true|false$/i]: the alternation binds last, so the alternatives are
    [^true] and [false$]; a match of the first starts the string, a match of
    the second ends it. *)
Definition booleanRegex : regex :=
  alt (cat (lit_i "true") (Star any_char)) (cat (Star any_char) (lit_i "false")).

Definition isBoolean (value : string) : bool := test_whole booleanRegex value.

(** [/^true$/i] *)
Definition parseBoolean (value : string) : bool := test_whole (lit_i "true") value.

(** [.], [!] or [?] *)
Definition is_end_mark (c : ascii) : bool :=
  Ascii.eqb c "." || Ascii.eqb c "!" || Ascii.eqb c "?".

(** [/[.!?]$/m], as [test] searches it: a mark at the end of the text or,
    because of the [m] flag, before a line terminator. *)
Definition sentenceEndRegex : regex :=
  cat (Star any_char)
      (cat (Chr is_end_mark)
           (alt Eps (cat (Chr (fun c => negb (is_dot c))) (Star any_char)))).

(** The body of the loop of [joinTexts]: what is pushed for [item] *)
Definition sentence (item : string) : string :=
  let resultItem := trim item in
  if negb (test_whole sentenceEndRegex resultItem) then resultItem +:+ "."
  else resultItem.

Definition joinTexts (items : list string) : string :=
  Array_join " " (map sentence items).
(** The text ends with [.], [!] or [?]. *)
Definition ends_with_mark (s : string) : Prop :=
  exists pre c, chars s = pre ++ [c] /\ is_end_mark c = true.

(** The text neither starts nor ends with white space. *)
Definition tight (l : list ascii) : Prop :=
  (forall c l', l = c :: l' -> is_space c = false) /\
  (forall l' c, l = l' ++ [c] -> is_space c = false).

End StringUtil.

(** ** Logging *)

Module Logging.

(** What a winston logger receives: a level, the first argument and the
    metadata object given as second argument (empty when absent). *)
Inductive Level : Type := Debug | Warn | LError.

Record LogCall : Type := mkLog {
  level : Level;
  arg : json;
  meta : list (string * json)
}.

(** [logger.debug(text)] and the like, on a logger kept as the list of the
    calls it received *)
Definition say (l : Level) (x : string) (calls : list LogCall) : list LogCall :=
  calls ++ [mkLog l (JStr x) []].

End Logging.

(** ** Work items *)

Module WorkItemModel.

(** Modelled from the spec: the [WorkItemStatus] enumeration of
    [models/work-item-interface], which is not among the sources
    ("status in {READY, RUNNING, SUCCESSFUL, FAILED, CANCELED}"). *)
Inductive WorkItemStatus : Type :=
| READY | RUNNING | SUCCESSFUL | FAILED | CANCELED.

#[global] Instance WorkItemStatus_eq_dec : EqDecision WorkItemStatus.
Proof. solve_decision. Defined.

(** Modelled from the spec: the attributes of a [WorkItem] record. *)
Record WorkItem : Type := mkWorkItem {
  id : Z;
  jobID : string;
  serviceID : string;
  status : WorkItemStatus;
  retryCount : Z;
  scrollID : option string;
  operation : json;
  stacCatalogLocation : string
}.

End WorkItemModel.

(** ** The service runner: log stream, catalogs, error resolution, log upload *)

Module Runner.
Import Logging WorkItemModel.

(** The object-store collaborator, consumed through these four operations. *)
Class ObjectStore (O : Type) : Type := {
  objectExists : string -> O -> res bool;
  getObjectJson : string -> O -> res json;
  listObjectKeys : string -> O -> res (list string);
  upload : string -> string -> O -> res O
}.

(** Helpers of [work-item-interface] and [util/url] that are not among the
    sources; they only name locations. *)
Class Locations : Type := {
  getStacLocation : WorkItem -> string;
  getItemLogsLocation : WorkItem -> string;
  resolveUrl : string -> string -> string
}.

(** The part of [env] this file reads. *)
Record Env : Type := mkEnv {
  workerTimeout : Z;
  artifactBucket : string;
  harmonyService : string;
  invocationArgs : string;
  myPodName : string
}.

(** The mutable world of the runner: the object store and the logger. *)
Record World (O : Type) : Type := mkWorld {
  store : O;
  logged : list LogCall
}.
Arguments mkWorld {O}.
Arguments store {O}.
Arguments logged {O}.

(** [String(e)] for an exception *)
Definition exn_toString (e : exn) : string :=
  match e with
  | SyntaxError m => "SyntaxError: " +:+ m
  | TypeError m => "TypeError: " +:+ m
  | Error m => "Error: " +:+ m
  end.

(** *** [class LogStream] *)

(** [logStrArr] holds references: the parsed object is pushed first and
    renamed afterwards, and the array sees the renaming.  [heap] holds the
    values allocated by the stream, addressed by position. *)
Record LogStream : Type := mkLogStream {
  heap : list json;
  logStrArr : list nat;
  streamLogger : list LogCall
}.

Definition new_LogStream : LogStream :=
  {| heap := []; logStrArr := []; streamLogger := [] |}.

(** The array as a reader sees it (what [uploadLogs] is given). *)
Definition logStrArr_view (st : LogStream) : list json :=
  omap (fun a => heap st !! a) (logStrArr st).

Definition alloc (v : json) : Eff LogStream nat :=
  fun st => (Ok (length (heap st)),
             {| heap := heap st ++ [v]; logStrArr := logStrArr st;
                streamLogger := streamLogger st |}).

Definition push (a : nat) : Eff LogStream unit :=
  modify (fun st => {| heap := heap st; logStrArr := logStrArr st ++ [a];
                       streamLogger := streamLogger st |}).

Definition deref (a : nat) : Eff LogStream json :=
  fun st => (match heap st !! a with
             | Some v => Ok v
             | None => Throw (TypeError "dangling reference")
             end, st).

Definition assign (a : nat) (v : json) : Eff LogStream unit :=
  modify (fun st => {| heap := <[a := v]> (heap st); logStrArr := logStrArr st;
                       streamLogger := streamLogger st |}).

Definition streamLogger_debug (x : json) (m : list (string * json))
  : Eff LogStream unit :=
  modify (fun st => {| heap := heap st; logStrArr := logStrArr st;
                       streamLogger := streamLogger st ++ [mkLog Debug x m] |}).

(** [k in v], for the keys used here (neither an index nor [length]). *)
Definition in_op (k : string) (v : json) : res bool :=
  match v with
  | JObj fs => Ok (has_prop k fs)
  | JArr _ => Ok false
  | _ => Throw (TypeError ("Cannot use 'in' operator to search for '" +:+ k +:+ "'"))
  end.

(** [{ ...v }]: the own enumerable properties of [v]. *)
Definition spread_props (v : json) : list (string * json) :=
  match v with
  | JObj fs => fs
  | JArr xs => imap (fun i x => (pretty (Z.of_nat i), x)) xs
  | JStr s => imap (fun i c => (pretty (Z.of_nat i), JStr (String c EmptyString)))
                   (chars s)
  | _ => []
  end.

(** [logObj[`worker${Upper}`] = logObj[p]; delete logObj[p]] *)
Definition rename_prop (p : string) (v : json) : json :=
  match v with
  | JObj fs =>
      let fs1 := match get_prop p fs with
                 | Some x => set_prop ("worker" +:+ upperFirst p) x fs
                 | None => fs
                 end in
      JObj (delete_prop p fs1)
  | _ => v
  end.

(** What [_handleLogString] leaves in the stream: the entry added to
    [logStrArr] (none: [None]) and the call made on the logger (none: [None]) *)
Definition captured (entry : option json) (call : option LogCall) (st : LogStream)
  : LogStream :=
  {| heap := match entry with Some v => heap st ++ [v] | None => heap st end;
     logStrArr := match entry with
                  | Some _ => logStrArr st ++ [length (heap st)]
                  | None => logStrArr st
                  end;
     streamLogger := match call with
                     | Some c => streamLogger st ++ [c]
                     | None => streamLogger st
                     end |}.

(** A JSON value that is neither an object nor an array *)
Definition is_primitive (v : json) : bool :=
  match v with JObj _ | JArr _ => false | _ => true end.

(** The fields of a parsed record after the two renamings *)
Definition workerFields (fs : list (string * json)) : list (string * json) :=
  match rename_prop "level" (rename_prop "timestamp" (JObj fs)) with
  | JObj fs' => fs'
  | _ => fs
  end.

Section LogStream.
Context `{JSONBuiltins}.

Local Open Scope eff_scope.

(** The body of the loop over [['timestamp', 'level']] *)
Definition renameWorkerField (logObj : nat) (propertyName : string)
  : Eff LogStream unit :=
  o <- deref logObj ;;
  present <- lift_res (in_op propertyName o) ;;
  if (present : bool) then assign logObj (rename_prop propertyName o)
  else ret tt.

(** The [try] block of [_handleLogString] *)
Definition handleLogString_try (logStr : string) : Eff LogStream unit :=
  v <- lift_res (JSON_parse_res logStr) ;;
  logObj <- alloc v ;;
  push logObj ;;
  for_of ["timestamp"; "level"]%string (renameWorkerField logObj) ;;
  o <- deref logObj ;;
  streamLogger_debug (JObj (set_prop "worker" (JBool true) (spread_props o))) [].

Definition _handleLogString (logStr : string) : Eff LogStream unit :=
  try_catch (handleLogString_try logStr)
    (fun e =>
       if instanceof_SyntaxError e then
         s <- alloc (JStr logStr) ;;
         push s ;;
         streamLogger_debug (JStr logStr) [("worker"%string, JBool true)]
       else ret tt).

(** [_write(chunk, enc, next)]; the chunk is given as its UTF-8 text. *)
Definition _write (chunk : string) (st : LogStream) : LogStream :=
  snd (_handleLogString chunk st).

(** The chunks of a run, written to the stream one after the other *)
Definition write_all (chunks : list string) (st : LogStream) : LogStream :=
  fold_left (fun st chunk => _write chunk st) chunks st.

(** The entry a chunk leaves in [logStrArr] *)
Definition kept (chunk : string) : json :=
  match JSON_parse chunk with
  | None => JStr chunk
  | Some (JObj fs) => JObj (workerFields fs)
  | Some v => v
  end.

(** Every entry of [logStrArr] is a value of its own, in the order of
    allocation. *)
Definition one_each (st : LogStream) : Prop :=
  logStrArr st = seq 0 (length (heap st)).

End LogStream.

(** *** Arrays *)

(** [Array.prototype.sort(cmp)]: a stable comparison sort.  Which pairs an
    engine compares is not fixed; with two or more elements every element
    meets the comparator at least once, and for a comparator that is a total
    preorder the result is the stable ordering.  An insertion sort has both
    properties; an exception of the comparator leaves [sort]. *)
Section ArraySort.
Context {A : Type} (cmp : A -> A -> res Z).

Fixpoint sort_insert (x : A) (l : list A) : res (list A) :=
  match l with
  | [] => Ok [x]
  | y :: r =>
      let* c := cmp x y in
      if c <=? 0 then Ok (x :: y :: r)
      else let* r' := sort_insert x r in Ok (y :: r')
  end.

Fixpoint Array_sort (l : list A) : res (list A) :=
  match l with
  | [] => Ok []
  | x :: r => let* r' := Array_sort r in sort_insert x r'
  end.
End ArraySort.

(** [arr.map(f)] on a value that should be an array *)
Definition Array_map {B} (f : json -> B) (v : json) : res (list B) :=
  match v with
  | JArr xs => Ok (map f xs)
  | _ => Throw (TypeError "batchCatalogs.map is not a function")
  end.

(** [[...v]]: the elements an iterable yields *)
Definition spread_iter (v : json) : res (list json) :=
  match v with
  | JArr xs => Ok xs
  | JStr s => Ok (map (fun c => JStr (String c EmptyString)) (chars s))
  | _ => Throw (TypeError "oldFileContent is not iterable")
  end.

(** *** [_getStacCatalogs] *)

(** [xMatches.length > 1 ? Number(xMatches[1]) : 0], with [xMatches] the
    result of [x.match(fileNumRegex)], which is [null] without a match. *)
Definition fileNum (x : string) : res Z :=
  match match_fileNumRegex x with
  | None => Throw (TypeError "Cannot read properties of null (reading 'length')")
  | Some xMatches =>
      Ok (if (1 <? length xMatches)%nat
          then Number_digits (chars (nth 1 xMatches ""%string))
          else 0)
  end.

(** The index a URL is sorted by, where [fileNum] gives one *)
Definition fileNumber (x : string) : Z :=
  match fileNum x with Ok n => n | Throw _ => 0 end.

(** The comparator given to [urls.sort] *)
Definition compareFileNum (a b : string) : res Z :=
  let* aNum := fileNum a in
  let* bNum := fileNum b in
  Ok (aNum - bNum).

Section Store.
Context `{JSONBuiltins} `{Locations} {O : Type} `{ObjectStore O} (env : Env).

Definition _getStacCatalogs (dir : string) (s3 : O) : res (list string) :=
  let batchCatalogsJsonUrl := dir +:+ "batch-catalogs.json" in
  let* found := objectExists batchCatalogsJsonUrl s3 in
  if (found : bool) then
    let* batchCatalogs := getObjectJson batchCatalogsJsonUrl s3 in
    Array_map (fun filename => dir +:+ js_String filename) batchCatalogs
  else
    let* keys := listObjectKeys dir s3 in
    let urls :=
      map (fun fileKey => "s3://" +:+ artifactBucket env +:+ "/" +:+ fileKey)
          (List.filter (search_to_end catalogKeyRegex) keys) in
    Array_sort compareFileNum urls.

(** The URLs the fallback sorts: the keys that pass [/catalog\d*.json$/],
    each behind the artifact bucket *)
Definition catalogUrls (keys : list string) : list string :=
  map (fun fileKey => "s3://" +:+ artifactBucket env +:+ "/" +:+ fileKey)
      (List.filter (search_to_end catalogKeyRegex) keys).

(** *** [_getErrorMessageOfStatus] and [_getErrorMessage] *)

Record V1StatusCause : Type := mkCause {
  reason : option string;
  cause_message : option string;
  field : option string
}.

Record V1StatusDetails : Type := mkDetails {
  causes : option (list V1StatusCause)
}.

Record V1Status : Type := mkStatus {
  status : option string;
  details : option V1StatusDetails
}.

Definition OOM_EXIT_CODE : string := "137".

(** [status.details?.causes?.find(i => i.reason === 'ExitCode')] *)
Definition find_ExitCode (st : V1Status) : option V1StatusCause :=
  match details st with
  | None => None
  | Some d =>
      match causes d with
      | None => None
      | Some cs =>
          List.find (fun i => bool_decide (reason i = Some "ExitCode"%string)) cs
      end
  end.

(** The status says the container ran out of memory: the cause found by
    [find(i => i.reason === 'ExitCode')] has the message [OOM_EXIT_CODE]. *)
Definition exitedOOM (st : V1Status) : bool :=
  bool_decide ((find_ExitCode st ≫= cause_message) = Some OOM_EXIT_CODE).

(** [msg] is [None] when the argument is omitted: the default applies. *)
Definition _getErrorMessageOfStatus (st : V1Status) (msg : option string)
  : string :=
  let msg := default "Unknown error"%string msg in
  let exitCode := find_ExitCode st in
  let errorMsg :=
    if bool_decide ((exitCode ≫= cause_message) = Some OOM_EXIT_CODE)
    then Some "Service failed due to running out of memory"%string
    else None in
  match errorMsg with Some m => m | None => msg end.

Local Open Scope eff_scope.

Definition on_store {A} (f : O -> res A) : Eff (World O) A :=
  fun w => (f (store w), w).

Definition update_store (f : O -> res O) : Eff (World O) unit :=
  fun w => match f (store w) with
           | Ok o' => (Ok tt, mkWorld o' (logged w))
           | Throw e => (Throw e, w)
           end.

Definition log (l : Level) (x : string) : Eff (World O) unit :=
  modify (fun w => mkWorld (store w) (say l x (logged w))).

(** The value is what [logEntry.error] holds, or one of the fixed strings. *)
Definition _getErrorMessage (st : V1Status) (catalogDir : string)
  : Eff (World O) jsval :=
  try_catch
    (let errorFile := resolveUrl catalogDir "error.json" in
     found <- on_store (objectExists errorFile) ;;
     if (found : bool) then
       logEntry <- on_store (getObjectJson errorFile) ;;
       lift_res (member (Some logEntry) "error")
     else
       ret (Some (JStr (_getErrorMessageOfStatus st None))))
    (fun e =>
       log LError ("Caught exception: " +:+ exn_toString e) ;;
       log LError ("Unable to parse out error from catalog location: " +:+ catalogDir) ;;
       ret (Some (JStr (_getErrorMessageOfStatus st
                          (Some "Service terminated without error message"%string))))).

(** The message taken from the status alone, with the default [dflt]. *)
Definition statusMessage (st : V1Status) (dflt : string) : jsval :=
  Some (JStr (if exitedOOM st
              then "Service failed due to running out of memory"%string
              else dflt)).

(** The three ways in which reading the artifact fails *)
Inductive artifact_fails (dir : string) (o : O) : exn -> Prop :=
| fails_exists e :
    objectExists (resolveUrl dir "error.json") o = Throw e ->
    artifact_fails dir o e
| fails_read e :
    objectExists (resolveUrl dir "error.json") o = Ok true ->
    getObjectJson (resolveUrl dir "error.json") o = Throw e ->
    artifact_fails dir o e
| fails_member logEntry e :
    objectExists (resolveUrl dir "error.json") o = Ok true ->
    getObjectJson (resolveUrl dir "error.json") o = Ok logEntry ->
    member (Some logEntry) "error" = Throw e ->
    artifact_fails dir o e.

(** *** [uploadLogs] *)

Definition retryMessage (workItem : WorkItem) : string :=
  "Start of service execution (retryCount=" +:+ pretty (retryCount workItem)
  +:+ ", id=" +:+ pretty (id workItem) +:+ ")".

(** The marker put in front of the captured logs *)
Definition retryMarker (workItem : WorkItem) (logs : list json) : json :=
  match logs with
  | JStr _ :: _ => JStr (retryMessage workItem)
  | _ => JObj [("message"%string, JStr (retryMessage workItem))]
  end.

Definition uploadLogs (workItem : WorkItem) (logs : list json)
  : Eff (World O) unit :=
  let newFileContent := retryMarker workItem logs :: logs in
  let logsLocation := getItemLogsLocation workItem in
  found <- on_store (objectExists logsLocation) ;;
  newFileContent <-
    (if (found : bool) then
       oldFileContent <- on_store (getObjectJson logsLocation) ;;
       old <- lift_res (spread_iter oldFileContent) ;;
       ret (old ++ newFileContent)
     else ret newFileContent) ;;
  update_store (upload (JSON_stringify (JArr newFileContent)) logsLocation).

End Store.

(** *** [runServiceFromPull]

    The promise built by [runServiceFromPull] is settled by callbacks that
    the runtime runs one at a time: the timer set with [setTimeout], the
    status callback of [exec.exec] (an [async] function, suspended at each of
    its two [await]s) and the [catch] handler of the promise of [exec.exec].
    The state below is what these callbacks share; an event is one turn of
    the event loop. *)

Record ServiceResponse : Type := mkResponse {
  batchCatalogs : option (list string);
  totalItemsSize : option Z;
  outputItemSizes : option (list Z);
  error : option string;
  hits : option Z;
  scrollID : option string
}.

(** [{ batchCatalogs: catalogs }] and [{ error: msg }] *)
Definition response_catalogs (catalogs : list string) : ServiceResponse :=
  mkResponse (Some catalogs) None None None None None.
Definition response_error (msg : string) : ServiceResponse :=
  mkResponse None None None (Some msg) None None.

Inductive Timer : Type := Armed | Fired | Cleared.

(** Where the status callback is suspended, with what the awaited call gives. *)
Inductive Suspended : Type :=
| AwaitUploadLogs (st : V1Status) (r : res unit)
| AwaitStacCatalogs (r : res (list string))
| AwaitErrorMessage (r : res jsval).

Inductive Event : Type :=
| Chunk (chunk : string)
| ExecStatus (st : V1Status)
| Resume (n : nat)
| ExecRejected (e : exn).

(** A response that carries catalogs or an error, and not both *)
Definition one_outcome (r : ServiceResponse) : Prop :=
  (batchCatalogs r <> None /\ error r = None) \/
  (batchCatalogs r = None /\ error r <> None).

(** A suspended callback whose next step settles the promise *)
Definition settles_next (k : Suspended) : bool :=
  match k with
  | AwaitUploadLogs _ (Ok _) => false
  | _ => true
  end.

Section Exec.
Context `{JSONBuiltins} `{Locations} {O : Type} `{ObjectStore O}.
Context (env : Env) (workItem : WorkItem).

Record Run : Type := mkRun {
  world : World O;
  stdOut : LogStream;
  settled : option ServiceResponse;
  timeout : Timer;
  awaiting : list Suspended;
  execArgs : list string
}.

Definition serviceName : string := StringUtil.sanitizeImage (harmonyService env).

(** [const error = `The ${serviceName} service failed.`] *)
Definition serviceFailed : string := "The " +:+ serviceName +:+ " service failed.".

Definition timedOut : string :=
  "Worker timed out after " +:+ thousandths (workerTimeout env) +:+ " seconds".

Definition commandLine : list string :=
  let byLine := split (ascii_of_nat 10) (invocationArgs env) in
  if (length byLine =? 1)%nat then split " " (invocationArgs env) else byLine.

Definition catalogDir : string := getStacLocation workItem.

(** [resolve(r)]: only the first call settles the promise. *)
Definition resolve (r : ServiceResponse) (s : Run) : Run :=
  match settled s with
  | None => mkRun (world s) (stdOut s) (Some r) (timeout s) (awaiting s) (execArgs s)
  | Some _ => s
  end.

Definition clearTimeout (s : Run) : Run :=
  mkRun (world s) (stdOut s) (settled s)
        (match timeout s with Armed => Cleared | t => t end)
        (awaiting s) (execArgs s).

Definition with_world (s : Run) (w : World O) : Run :=
  mkRun w (stdOut s) (settled s) (timeout s) (awaiting s) (execArgs s).

Definition suspend (k : Suspended) (s : Run) : Run :=
  mkRun (world s) (stdOut s) (settled s) (timeout s) (awaiting s ++ [k]) (execArgs s).

Definition logging (l : Level) (x : string) (s : Run) : Run :=
  with_world s (snd (log l x (world s))).

(** The executor of the promise, run when the promise is built. *)
Definition start (w : World O) : Run :=
  {| world := snd (log Debug ("CALLING WORKER for pod " +:+ myPodName env) w);
     stdOut := new_LogStream;
     settled := None;
     timeout := Armed;
     awaiting := [];
     execArgs := commandLine ++
       [ "--harmony-action"; "invoke"; "--harmony-input";
         JSON_stringify (operation workItem); "--harmony-sources";
         stacCatalogLocation workItem; "--harmony-metadata-dir"; catalogDir ]%string |}.

(** The callback given to [setTimeout]; a cleared timer does not run it. *)
Definition fire (s : Run) : Run :=
  match timeout s with
  | Armed =>
      resolve (response_error timedOut)
        (mkRun (world s) (stdOut s) (settled s) Fired (awaiting s) (execArgs s))
  | _ => s
  end.

(** The [catch] block of the status callback *)
Definition status_catch (e : exn) (s : Run) : Run :=
  resolve (response_error serviceFailed)
    (logging LError (exn_toString e)
       (logging LError "Unable to upload logs. Caught exception:" s)).

(** The status callback up to its first [await]: [uploadLogs] is called with
    the array the stream holds at that moment.  (The debug line prints the
    status; its text is of no consequence and is abridged.) *)
Definition on_status (st : V1Status) (s : Run) : Run :=
  let s1 := logging Debug ("SIDECAR STATUS: " +:+ default "" (status st)) s in
  let '(r, w) := uploadLogs workItem (logStrArr_view (stdOut s1)) (world s1) in
  suspend (AwaitUploadLogs st r) (with_world s1 w).

(** The status callback from one [await] to the next, or to its end *)
Definition resume (k : Suspended) (s : Run) : Run :=
  match k with
  | AwaitUploadLogs st (Ok _) =>
      if bool_decide (status st = Some "Success"%string) then
        let s1 := logging Debug "Getting STAC catalogs" (clearTimeout s) in
        suspend (AwaitStacCatalogs (_getStacCatalogs env catalogDir (store (world s1)))) s1
      else
        let s1 := clearTimeout s in
        let '(r, w) := _getErrorMessage st catalogDir (world s1) in
        suspend (AwaitErrorMessage r) (with_world s1 w)
  | AwaitStacCatalogs (Ok catalogs) => resolve (response_catalogs catalogs) s
  | AwaitErrorMessage (Ok logErr) =>
      let errMsg := serviceName +:+ ": " +:+ template logErr in
      resolve (response_error errMsg) s
  | AwaitUploadLogs _ (Throw e)
  | AwaitStacCatalogs (Throw e)
  | AwaitErrorMessage (Throw e) => status_catch e s
  end.

(** The handler given to [.catch] on the promise of [exec.exec] *)
Definition on_rejected (e : exn) (s : Run) : Run :=
  resolve (response_error serviceFailed)
    (logging LError (exn_toString e)
       (logging LError "Kubernetes client exec caught exception:" (clearTimeout s))).

Definition handle (ev : Event) (s : Run) : Run :=
  match ev with
  | Chunk chunk =>
      mkRun (world s) (_write chunk (stdOut s)) (settled s) (timeout s)
            (awaiting s) (execArgs s)
  | ExecStatus st => on_status st s
  | Resume n =>
      match awaiting s !! n with
      | Some k =>
          resume k (mkRun (world s) (stdOut s) (settled s) (timeout s)
                          (delete n (awaiting s)) (execArgs s))
      | None => s
      end
  | ExecRejected e => on_rejected e s
  end.

(** An event comes with the time (in ms since the call) at which the runtime
    runs it.  The timer set for [workerTimeout] runs before any event that is
    not earlier than [workerTimeout]. *)
Definition tick (now : Z) (s : Run) : Run :=
  if workerTimeout env <=? now then fire s else s.

Definition step (s : Run) (te : Z * Event) : Run :=
  handle (snd te) (tick (fst te) s).

Definition run_events (evs : list (Z * Event)) (s : Run) : Run :=
  fold_left step evs s.

(** What [await new Promise(...)] gives once the events [evs] have run and
    the timer, if still set, has run too: [None] is a promise that never
    settles.  The [try] around it has nothing to catch: the executor does not
    throw. *)
Definition runServiceFromPull (w : World O) (evs : list (Z * Event))
  : option ServiceResponse :=
  settled (fire (run_events evs (start w))).

(** The worker signals completion through [exec.exec]: its status callback is
    called, or its promise rejects. *)
Definition signals_completion (ev : Event) : bool :=
  match ev with
  | ExecStatus _ | ExecRejected _ => true
  | Chunk _ | Resume _ => false
  end.

(** Invariants of a run: the settled value has one outcome; an unsettled
    promise has its timer set or a callback about to settle it; nothing has
    happened yet but chunks. *)
Definition shaped (s : Run) : Prop :=
  forall r, settled s = Some r -> one_outcome r.

Definition live (s : Run) : Prop :=
  settled s = None ->
  timeout s = Armed \/ Exists (fun k => settles_next k = true) (awaiting s).

Definition quiet (s : Run) : Prop :=
  settled s = None /\ timeout s = Armed /\ awaiting s = [].

(** The chunks the worker writes, each with the time at which it is written *)
Definition chunk_events (timed : list (Z * string)) : list (Z * Event) :=
  map (fun tc => (fst tc, Chunk (snd tc))) timed.

(** The world when the status callback calls [uploadLogs]: the two debug
    lines have been logged. *)
Definition world_at_status (st : V1Status) (w : World O) : World O :=
  snd (log Debug ("SIDECAR STATUS: " +:+ default "" (status st))
         (snd (log Debug ("CALLING WORKER for pod " +:+ myPodName env) w))).

(** A run in which the worker writes its chunks and ends with the status
    [st] at [t1]; the status callback goes on at [t2], after [uploadLogs],
    and at [t3], after the catalogs or the error message are read. *)
Definition completed_run (timed : list (Z * string)) (st : V1Status) (t1 t2 t3 : Z)
  : list (Z * Event) :=
  chunk_events timed ++ [(t1, ExecStatus st); (t2, Resume 0); (t3, Resume 0)].

End Exec.

End Runner.

(** ** The service runner: [runQueryCmrFromPull] *)

Module QueryCmr.
Import Logging WorkItemModel Runner.

(** The response object of the HTTP client, with the three properties the
    code reads; a property the object lacks is [None]. *)
Record HttpResponse : Type := mkHttp {
  http_status : option Z;
  statusText : option string;
  data : jsval
}.

(** How [axios.post] ends: with a response, or by throwing an error, which
    carries the response ([e.response]) when the server answered. *)
Inductive PostResult : Type :=
| Responded (response : HttpResponse)
| Rejected (e : exn) (e_response : option HttpResponse).

(** The URL, the body and the configuration given to [axios.post] *)
Record WorkRequest : Type := mkRequest {
  url : string;
  outputDir : string;
  harmonyInput : json;
  scrollId : option string;
  req_maxCmrGranules : option Z;
  workItemId : Z;
  req_timeout : Z
}.

(** The two objects [runQueryCmrFromPull] returns:
    [{ batchCatalogs, totalItemsSize, outputItemSizes, scrollID }] and
    [{ error }].  The values taken from [response.data] are kept as they
    come; [error] is a text or what [description] holds. *)
Inductive CmrResponse : Type :=
| Page (batchCatalogs : list string) (totalItemsSize outputItemSizes scrollID : jsval)
| Failed (error : json).

(** [`${n}`] for a number that may be [undefined] *)
Definition template_number (n : option Z) : string :=
  match n with Some n => pretty n | None => "undefined" end.

(** [response.status < 300]; a comparison with [undefined] is false. *)
Definition below_300 (response : HttpResponse) : bool :=
  match http_status response with Some n => n <? 300 | None => false end.

(** [const { totalItemsSize, outputItemSizes } = v] and [v.scrollID]: the
    properties of [v], read by name; [null] and [undefined] cannot be
    destructured. *)
Definition properties (v : jsval) : res (string -> jsval) :=
  match v with
  | None =>
      Throw (TypeError "Cannot destructure property 'totalItemsSize' of 'response.data' as it is undefined.")
  | Some JNull =>
      Throw (TypeError "Cannot destructure property 'totalItemsSize' of 'response.data' as it is null.")
  | Some (JObj fs) => Ok (fun k => get_prop k fs)
  | Some _ => Ok (fun _ => None)
  end.

(** [response?.data?.description] *)
Definition description (response : option HttpResponse) : jsval :=
  match response with
  | None => None
  | Some r =>
      match data r with
      | Some (JObj fs) => get_prop "description" fs
      | _ => None
      end
  end.

(** [x || y] on texts that may be [undefined] *)
Definition or_text (x : option string) (y : string) : string :=
  match x with
  | Some s => if String.eqb s "" then y else s
  | None => y
  end.

(** The statements after the [try]: [response] is the variable of that
    name, [None] while it is [undefined]. *)
Definition after_try (response : option HttpResponse) : CmrResponse :=
  let error :=
    match description response with
    | Some d => if truthy (Some d) then d else JStr ""
    | None => JStr ""
    end in
  let answered :=
    match response with
    | Some r =>
        truthy (JNum <$> http_status r) || truthy (JStr <$> statusText r)
    | None => false
    end in
  let error :=
    if negb (truthy (Some error)) && answered then
      match response with
      | Some r =>
          JStr ("The Query CMR service responded with status "
                +:+ or_text (statusText r) (template_number (http_status r)) +:+ ".")
      | None => error
      end
    else error in
  Failed error.

Section Pull.
Context `{JSONBuiltins} `{Locations} {O : Type} `{ObjectStore O}.
Context (env : Env).
(** [env.workerPort] *)
Context (workerPort : Z).
(** The HTTP client *)
Context (axios_post : WorkRequest -> PostResult).

Local Open Scope eff_scope.

Definition workRequest (workItem : WorkItem) (maxCmrGranules : option Z)
  : WorkRequest :=
  {| url := "http://127.0.0.1:" +:+ pretty workerPort +:+ "/work";
     outputDir := getStacLocation workItem;
     harmonyInput := operation workItem;
     scrollId := WorkItemModel.scrollID workItem;
     req_maxCmrGranules := maxCmrGranules;
     workItemId := id workItem;
     req_timeout := workerTimeout env |}.

(** The [try] block is left in three ways: [axios.post] throws; the status
    is 300 or more and the block ends; reading the catalogs or the data
    throws (an error without [response] property). *)
Definition runQueryCmrFromPull (workItem : WorkItem) (maxCmrGranules : option Z)
  : Eff (World O) CmrResponse :=
  log Debug ("CALLING WORKER with maxCmrGranules = "
             +:+ template_number maxCmrGranules) ;;
  let catalogDir := getStacLocation workItem in
  match axios_post (workRequest workItem maxCmrGranules) with
  | Responded response =>
      if below_300 response then
        try_catch
          (batchCatalogs <- on_store (_getStacCatalogs env catalogDir) ;;
           fields <- lift_res (properties (data response)) ;;
           ret (Page batchCatalogs (fields "totalItemsSize"%string)
                     (fields "outputItemSizes"%string) (fields "scrollID"%string)))
          (fun e =>
             log LError (exn_toString e) ;;
             ret (after_try (Some response)))
      else ret (after_try (Some response))
  | Rejected e e_response =>
      log LError (exn_toString e) ;;
      ret (after_try e_response)
  end.

End Pull.
End QueryCmr.

(** ** [util/object-store]: the object stores by protocol *)

Module ObjectStores.

(** The objects [new S3ObjectStore({})] and [new FileStore()] build; [addr]
    is the identity of the object. *)
Inductive StoreObject : Type :=
| S3ObjectStore (addr : nat)
| FileStore (addr : nat).

(** The state of the module: its variable [s3Store] ([None] while it is
    [undefined]) and the number of objects built so far. *)
Record State : Type := mkState {
  s3Store : option StoreObject;
  built : nat
}.

Definition initial : State := {| s3Store := None; built := 0 |}.

(** [if (!s3Store) { s3Store = new S3ObjectStore({}); } return s3Store;] *)
Definition the_s3Store (st : State) : StoreObject * State :=
  match s3Store st with
  | Some s => (s, st)
  | None =>
      let s := S3ObjectStore (built st) in
      (s, {| s3Store := Some s; built := S (built st) |})
  end.

Definition defaultObjectStore (st : State) : StoreObject * State :=
  the_s3Store st.

(** [protocol] is [None] when the argument is omitted; [None] as a result is
    [null]. *)
Definition objectStoreForProtocol (protocol : option string) (st : State)
  : option StoreObject * State :=
  match protocol with
  | None => (None, st)
  | Some protocol =>
      if String.eqb protocol "" then (None, st)
      else
        let normalizedProtocol :=
          nth 0 (split ":" (String_toLowerCase protocol)) ""%string in
        if String.eqb normalizedProtocol "s3" then
          let '(s, st') := the_s3Store st in (Some s, st')
        else if String.eqb normalizedProtocol "file" then
          (Some (FileStore (built st)),
           {| s3Store := s3Store st; built := S (built st) |})
        else (None, st)
  end.

(** A call of one of the two exported functions *)
Inductive Call : Type :=
| Default
| ForProtocol (protocol : option string).

Definition call (c : Call) (st : State) : option StoreObject * State :=
  match c with
  | Default => let '(s, st') := defaultObjectStore st in (Some s, st')
  | ForProtocol p => objectStoreForProtocol p st
  end.

(** The results of a sequence of calls, in order *)
Fixpoint calls (cs : list Call) (st : State) : list (option StoreObject) * State :=
  match cs with
  | [] => ([], st)
  | c :: cs' =>
      let '(r, st1) := call c st in
      let '(rs, st2) := calls cs' st1 in
      (r :: rs, st2)
  end.

(** The protocol reads [name], whatever the case, alone or followed by a
    colon and anything: [s3], [S3:], [s3://bucket/key]. *)
Definition has_scheme (name protocol : string) : Prop :=
  chars (String_toLowerCase protocol) = chars name \/
  exists rest, chars (String_toLowerCase protocol) = chars name ++ ":"%char :: rest.

(** Invariant of the module: the store kept in [s3Store] is an S3 store built
    earlier. *)
Definition wf (st : State) : Prop :=
  forall s, s3Store st = Some s ->
    exists a, s = S3ObjectStore a /\ (a < built st)%nat.

(** What one call, from [st] to [st'] with the result [r], keeps and adds. *)
Definition step_ok (st : State) (r : option StoreObject) (st' : State) : Prop :=
  wf st' /\ (built st <= built st')%nat /\
  (forall x, s3Store st = Some x -> s3Store st' = Some x) /\
  (forall a, r = Some (S3ObjectStore a) -> s3Store st' = Some (S3ObjectStore a)) /\
  (forall a, r = Some (FileStore a) ->
     a = built st /\ built st' = S a /\ s3Store st' = s3Store st) /\
  (forall x, s3Store st' = Some (S3ObjectStore x) ->
     s3Store st = Some (S3ObjectStore x) \/ (built st <= x < built st')%nat).

End ObjectStores.

(** ** [util/log.ts]: the log level *)

Module Log.
Import StringUtil.

(** How [configureLogLevel] ends: with the text it returns, or with the
    [RequestValidationError] that [validateLogLevel] throws. *)
Inductive Outcome : Type :=
| Returned (text : string)
| RequestValidationError (message : string).

Section Levels.
(** [Object.keys(winston.config.npm.levels)], the level names of the logging
    library *)
Context (validLevels : list string).

(** [None]: the level is valid; [Some msg]: the error thrown has message
    [msg]. *)
Definition validateLogLevel (level : string) : option string :=
  if negb (existsb (String.eqb level) validLevels) then
    Some ("Requested to configure log level with invalid level (" +:+ level
          +:+ "). Valid levels are: " +:+ listToText (Some validLevels) (Some AND)
          +:+ ".")
  else None.

(** The state is [transport.level], [None] while it is [undefined]. *)
Definition configureLogLevel (level : string) (transport_level : option string)
  : Outcome * option string :=
  match validateLogLevel level with
  | Some msg => (RequestValidationError msg, transport_level)
  | None =>
      let currentLevel := transport_level in
      (Returned ("Log level was changed from "
                 +:+ default "undefined" currentLevel +:+ " to " +:+ level),
       Some level)
  end.

End Levels.
End Log.

(** ** [backends/workflow-orchestration/work-item-polling.ts] *)

Module Polling.
Import Logging WorkItemModel.

(** [type WorkItemData] *)
Record WorkItemData : Type := mkData {
  workItem : WorkItem;
  maxCmrGranules : option Z
}.

(** The functions of [models/work-item], [models/user-work] and [./util]
    that run inside a transaction; none of them is among the sources.  Each
    takes the database to its result and the new database, or throws.
    [None] stands for [undefined]. *)
Class WorkItemStore (D : Type) : Type := {
  getNextUsernameForWork : string -> D -> res (option string * D);
  getNextJobIdForUsernameAndService : string -> string -> D -> res (option string * D);
  getNextWorkItem : string -> string -> D -> res (option WorkItem * D);
  getNextWorkItems : string -> string -> Z -> D -> res (option (list WorkItem) * D);
  getNextJobIds : string -> Z -> D -> res (list string * D);
  incrementRunningAndDecrementReadyCounts :
    string -> string -> option Z -> D -> res (unit * D);
  recalculateCounts : string -> D -> res (unit * D);
  getWorkItemStatus : Z -> D -> res (option WorkItemStatus * D);
  updateWorkItemStatuses : list Z -> WorkItemStatus -> D -> res (unit * D);
  calculateQueryCmrLimit : WorkItem -> D -> res (Z * D)
}.

(** A queue message and the queue interface *)
Record QueueMessage : Type := mkMessage {
  body : string;
  receipt : string
}.

Class WorkQueue (Q : Type) : Type := {
  getMessage : option Z -> Q -> res (option QueueMessage * Q);
  deleteMessage : string -> Q -> res (unit * Q);
  sendMessage : string -> Q -> res (unit * Q)
}.

(** What the file takes from [util/env], [util/queue/queue-factory] and
    [./util]: configuration and names. *)
Class Config : Type := {
  useServiceQueues : bool;
  getQueueUrlForService : string -> string;
  QUERY_CMR_SERVICE_REGEX_test : string -> bool
}.

(** The world of the poller: the database, the queues by URL, the scheduler
    queue, the logger, and the local variables [V] of the running function
    that its closures assign. *)
Record World (D Q V : Type) : Type := mkWorld {
  db : D;
  queues : gmap string Q;
  schedulerQueue : Q;
  reqLogger : list LogCall;
  vars : V
}.
Arguments mkWorld {D Q V}.
Arguments db {D Q V}.
Arguments queues {D Q V}.
Arguments schedulerQueue {D Q V}.
Arguments reqLogger {D Q V}.
Arguments vars {D Q V}.

Section Effects.
Context {D Q : Type}.

Definition set_db {V} (d : D) (w : World D Q V) : World D Q V :=
  mkWorld d (queues w) (schedulerQueue w) (reqLogger w) (vars w).

Definition set_vars {V V'} (v : V') (w : World D Q V) : World D Q V' :=
  mkWorld (db w) (queues w) (schedulerQueue w) (reqLogger w) v.

(** A call on the database (or on an open transaction) *)
Definition query {V A} (f : D -> res (A * D)) : Eff (World D Q V) A :=
  fun w => match f (db w) with
           | Ok (a, d') => (Ok a, set_db d' w)
           | Throw e => (Throw e, w)
           end.

(** [db.transaction(async (tx) => body)]: the statements of [body] are
    undone when it throws; what it assigned to variables is not. *)
Definition transaction {V A} (body : Eff (World D Q V) A) : Eff (World D Q V) A :=
  fun w => match body w with
           | (Ok a, w') => (Ok a, w')
           | (Throw e, w') => (Throw e, set_db (db w) w')
           end.

Definition logger {V} (l : Level) (x : string) : Eff (World D Q V) unit :=
  modify (fun w => mkWorld (db w) (queues w) (schedulerQueue w)
                           (say l x (reqLogger w)) (vars w)).

Definition assign {V} (f : V -> V) : Eff (World D Q V) unit :=
  modify (fun w => set_vars (f (vars w)) w).

Definition read {V} : Eff (World D Q V) V := gets vars.

(** A block that declares local variables, initialized to [init] *)
Definition with_vars {V A} (init : V) (body : Eff (World D Q V) A)
  : Eff (World D Q unit) A :=
  fun w => let '(r, w') := body (set_vars init w) in (r, set_vars tt w').

(** A call on the queue found at [url] *)
Definition on_queue {V A} (url : string) (f : Q -> res (A * Q))
  : Eff (World D Q V) A :=
  fun w => match queues w !! url with
           | Some q =>
               match f q with
               | Ok (a, q') =>
                   (Ok a, mkWorld (db w) (<[url := q']> (queues w))
                                  (schedulerQueue w) (reqLogger w) (vars w))
               | Throw e => (Throw e, w)
               end
           | None => (Throw (TypeError "queue is undefined"), w)
           end.

Definition on_schedulerQueue {V A} (f : Q -> res (A * Q)) : Eff (World D Q V) A :=
  fun w => match f (schedulerQueue w) with
           | Ok (a, q') =>
               (Ok a, mkWorld (db w) (queues w) q' (reqLogger w) (vars w))
           | Throw e => (Throw e, w)
           end.

End Effects.

(** *** [shuffleArray] *)

Section Shuffle.
Context {T : Type}.
(** [pick i] is the value of [Math.floor(Math.random() * (i + 1))] drawn at
    the iteration with index [i]; [Math.random()] is in [0, 1), so [pick i]
    is at most [i]. *)
Context (pick : nat -> nat).

(** [[array[i], array[j]] = [array[j], array[i]]] *)
Definition swap (i j : nat) (array : list T) : list T :=
  match array !! i, array !! j with
  | Some ai, Some aj => <[j := ai]> (<[i := aj]> array)
  | _, _ => array
  end.

(** The loop, from index [i] down to 1 *)
Fixpoint shuffle_from (i : nat) (array : list T) : list T :=
  match i with
  | O => array
  | S i' => shuffle_from i' (swap i (pick i) array)
  end.

Definition shuffleArray (array : list T) : list T :=
  shuffle_from (length array - 1) array.

End Shuffle.

(** *** The three entry points *)

(** [if (x)] on a string that may be [undefined] *)
Definition truthy_string (x : option string) : option string :=
  match x with
  | Some s => if String.eqb s "" then None else Some s
  | None => None
  end.

(** The local variables of [getWorkItemsFromDatabase] that [processJob]
    reads and assigns *)
Record BatchVars : Type := mkVars {
  workItems : list WorkItemData;
  remainingNumOfJobs : Z;
  remainingBatchSize : Z;
  workSize : option Z
}.

(** [workItems.length] *)
Definition numCollected {D Q : Type} (w : World D Q BatchVars) : Z :=
  Z.of_nat (length (workItems (vars w))).

(** [item.workItem.id] of a parsed message; the store is asked with numbers. *)
Definition workItem_id (item : json) : res Z :=
  let* wi := member (Some item) "workItem" in
  let* i := member wi "id" in
  match i with
  | Some (JNum n) => Ok n
  | _ => Throw (Error "Undefined binding(s) detected when compiling FIRST query")
  end.

Section EntryPoints.
Context `{JSONBuiltins} `{Config} {D Q : Type} `{WorkItemStore D} `{WorkQueue Q}.
Context (pick : nat -> nat).
(** [processSchedulerQueue] of [./util]: "this actually does nothing outside
    of tests since the scheduler pod will be running". *)
Context (processSchedulerQueue : Eff (World D Q unit) unit).

Local Open Scope eff_scope.
Local Abbreviation W := (World D Q).

Definition foundWorkItem (workItem : WorkItem) (serviceID : string) (n : Z) : string :=
  "Found work item " +:+ pretty (id workItem) +:+ " for service " +:+ serviceID
  +:+ " with max CMR granules " +:+ pretty n.

(** The callback given to [db.transaction] by [getWorkFromDatabase];
    [result] is the variable of the enclosing function. *)
Definition getWorkFromDatabase_tx (serviceID : string)
  : Eff (W (option WorkItemData)) unit :=
  username <- query (getNextUsernameForWork serviceID) ;;
  match truthy_string username with
  | Some username =>
    jobID <- query (getNextJobIdForUsernameAndService serviceID username) ;;
    match truthy_string jobID with
    | Some jobID =>
      workItem <- query (getNextWorkItem serviceID jobID) ;;
      match workItem with
      | Some workItem =>
        query (incrementRunningAndDecrementReadyCounts jobID serviceID None) ;;
        if QUERY_CMR_SERVICE_REGEX_test (WorkItemModel.serviceID workItem) then
          maxCmrGranules <- query (calculateQueryCmrLimit workItem) ;;
          logger Debug (foundWorkItem workItem serviceID maxCmrGranules) ;;
          assign (fun _ => Some (mkData workItem (Some maxCmrGranules)))
        else
          assign (fun _ => Some (mkData workItem None))
      | None =>
        logger Warn ("user_work is out of sync for user " +:+ username
                     +:+ " and job " +:+ jobID
                     +:+ ", could not find ready work item") ;;
        logger Warn ("recalculating ready and running counts for job " +:+ jobID) ;;
        query (recalculateCounts jobID)
      end
    | None => ret tt
    end
  | None => ret tt
  end.

Definition getWorkFromDatabase (serviceID : string)
  : Eff (W unit) (option WorkItemData) :=
  with_vars (None : option WorkItemData)
    (try_catch
       (transaction (getWorkFromDatabase_tx serviceID))
       (fun err =>
          logger LError ("Error getting work from database: " +:+ message err)) ;;
     read).

(** The body of the loop over [nextWorkItems] *)
Definition pushWorkItem (serviceID : string) (workItem : WorkItem)
  : Eff (W BatchVars) unit :=
  if QUERY_CMR_SERVICE_REGEX_test (WorkItemModel.serviceID workItem) then
    maxCmrGranules <- query (calculateQueryCmrLimit workItem) ;;
    logger Debug (foundWorkItem workItem serviceID maxCmrGranules) ;;
    assign (fun v => mkVars (workItems v ++ [mkData workItem (Some maxCmrGranules)])
                            (remainingNumOfJobs v) (remainingBatchSize v) (workSize v))
  else
    assign (fun v => mkVars (workItems v ++ [mkData workItem None])
                            (remainingNumOfJobs v) (remainingBatchSize v) (workSize v)).

(** [workSize] as [processJob] computes it *)
Definition nextWorkSize (v : BatchVars) : Z :=
  if 0 <? remainingNumOfJobs v
  then Math_ceil_div (remainingBatchSize v) (remainingNumOfJobs v)
  else 1.

Definition processJob (serviceID jobId : string) : Eff (W BatchVars) unit :=
  v <- read ;;
  let size := nextWorkSize v in
  assign (fun v => mkVars (workItems v) (remainingNumOfJobs v)
                          (remainingBatchSize v) (Some size)) ;;
  nextWorkItems <- query (getNextWorkItems serviceID jobId size) ;;
  (match nextWorkItems with
   | Some (first :: rest) =>
     for_of (first :: rest) (pushWorkItem serviceID) ;;
     query (incrementRunningAndDecrementReadyCounts jobId serviceID
              (Some (Z.of_nat (length (first :: rest)))))
   | _ =>
     logger Warn ("user_work is out of sync for job " +:+ jobId
                  +:+ ", could not find ready work item") ;;
     logger Warn ("recalculating ready and running counts for job " +:+ jobId) ;;
     query (recalculateCounts jobId)
   end) ;;
  assign (fun v =>
    mkVars (workItems v) (remainingNumOfJobs v - 1)
           (remainingBatchSize v
            - match nextWorkItems with
              | Some l => Z.of_nat (length l)
              | None => 0
              end)
           (workSize v)).

(** The contract of [getNextWorkItems] ("up to [limit] READY items") *)
Definition fetches_at_most_limit : Prop :=
  forall (serviceID jobId : string) (limit : Z) (d d' : D) (l : list WorkItem),
    getNextWorkItems serviceID jobId limit d = Ok (Some l, d') ->
    Z.of_nat (length l) <= Z.max 0 limit.

Definition getWorkItemsFromDatabase (serviceID : string) (batchSize : Z)
  : Eff (W unit) (list WorkItemData) :=
  with_vars (mkVars [] 0 0 None)
    (try_catch
       (jobIds <- query (getNextJobIds serviceID batchSize) ;;
        let shuffledJobIds := shuffleArray pick jobIds in
        assign (fun v => mkVars (workItems v) (Z.of_nat (length jobIds)) batchSize
                                (workSize v)) ;;
        for_of shuffledJobIds (fun jobId =>
          transaction (processJob serviceID jobId)))
       (fun err =>
          logger LError ("Error getting works from database: " +:+ message err)) ;;
     gets (fun w => workItems (vars w))).

Definition makeWorkScheduleRequest (serviceID : string) : Eff (W unit) unit :=
  if useServiceQueues then on_schedulerQueue (sendMessage serviceID)
  else ret tt.

(** [getWorkFromQueue], up to [if (queueItem)]: the queue is looked up and a
    message is asked for, twice at most. *)
Definition pollQueue (serviceID : string) : Eff (W unit) (option QueueMessage) :=
  let queueUrl := getQueueUrlForService serviceID in
  logger Debug ("Short polling for work from queue " +:+ queueUrl
                +:+ " for service " +:+ serviceID) ;;
  w <- get ;;
  match queues w !! queueUrl with
  | None => throw (Error ("No queue found for URL " +:+ queueUrl))
  | Some _ =>
    queueItem <- on_queue queueUrl (getMessage (Some 0)) ;;
    match queueItem with
    | Some m => ret (Some m)
    | None =>
      logger Debug ("No work found on queue " +:+ queueUrl +:+ " for service "
                    +:+ serviceID +:+ " - requesting work from scheduler") ;;
      makeWorkScheduleRequest serviceID ;;
      processSchedulerQueue ;;
      logger Debug ("Long polling for work on queue " +:+ queueUrl
                    +:+ " for service " +:+ serviceID) ;;
      on_queue queueUrl (getMessage None)
    end
  end.

(** The callback given to [db.transaction] by [getWorkFromQueue].  Its
    [return null] ends the callback, not [getWorkFromQueue]. *)
Definition takeQueueItem_tx (item : json) : Eff (W unit) unit :=
  i <- lift_res (workItem_id item) ;;
  currentStatus <- query (getWorkItemStatus i) ;;
  if bool_decide (currentStatus = Some CANCELED) then
    logger Debug ("Work item " +:+ pretty i +:+ " was canceled, skipping")
  else
    query (updateWorkItemStatuses [i] RUNNING).

(** The world once the message is deleted and the deletion is logged *)
Definition afterDelete (queueUrl : string) (queueItem : QueueMessage) (q' : Q)
    (w : W unit) : W unit :=
  mkWorld (db w) (<[queueUrl := q']> (queues w)) (schedulerQueue w)
    (say Debug ("Deleted work item with receipt " +:+ receipt queueItem
                +:+ " from queue " +:+ queueUrl)
       (say Debug ("Found work item on queue " +:+ queueUrl) (reqLogger w)))
    tt.

(** [getWorkFromQueue], from [if (queueItem)] on: the statement after the
    transaction is [return item]. *)
Definition takeQueueItem (serviceID : string) (queueItem : option QueueMessage)
  : Eff (W unit) (option json) :=
  let queueUrl := getQueueUrlForService serviceID in
  match queueItem with
  | Some queueItem =>
    logger Debug ("Found work item on queue " +:+ queueUrl) ;;
    on_queue queueUrl (deleteMessage (receipt queueItem)) ;;
    logger Debug ("Deleted work item with receipt " +:+ receipt queueItem
                  +:+ " from queue " +:+ queueUrl) ;;
    item <- lift_res (JSON_parse_res (body queueItem)) ;;
    try_catch
      (transaction (takeQueueItem_tx item) ;;
       ret (Some item))
      (fun err =>
         logger LError ("Error updating work item status to running: "
                        +:+ message err) ;;
         ret None)
  | None =>
    logger Debug ("No work found on queue " +:+ queueUrl +:+ " for service "
                  +:+ serviceID) ;;
    ret None
  end.

Definition getWorkFromQueue (serviceID : string) : Eff (W unit) (option json) :=
  queueItem <- pollQueue serviceID ;;
  takeQueueItem serviceID queueItem.

End EntryPoints.

End Polling.

(** ** Reference collaborators

    Concrete instances of the interfaces above, used to run the embedding on
    concrete inputs. *)

Module Reference.
Import Logging WorkItemModel Runner Polling.

(** *** A JSON codec for the integer fragment of JSON

    [parse] reads the JSON grammar except fractions, exponents and [\u]
    escapes, on which it gives [None]; on the texts used below it agrees with
    [JSON.parse]. *)

Definition dquote : ascii := ascii_of_nat 34.
Definition backslash : ascii := ascii_of_nat 92.

Definition is_ws (c : ascii) : bool :=
  let n := nat_of_ascii c in
  (n =? 32)%nat || (n =? 10)%nat || (n =? 13)%nat || (n =? 9)%nat.

Fixpoint skip_ws (l : list ascii) : list ascii :=
  match l with
  | c :: r => if is_ws c then skip_ws r else l
  | [] => []
  end.

Definition unescape (c : ascii) : option ascii :=
  if Ascii.eqb c dquote then Some dquote
  else if Ascii.eqb c "\" then Some "\"%char
  else if Ascii.eqb c "/" then Some "/"%char
  else if Ascii.eqb c "n" then Some (ascii_of_nat 10)
  else if Ascii.eqb c "r" then Some (ascii_of_nat 13)
  else if Ascii.eqb c "t" then Some (ascii_of_nat 9)
  else if Ascii.eqb c "b" then Some (ascii_of_nat 8)
  else if Ascii.eqb c "f" then Some (ascii_of_nat 12)
  else None.

(** After the opening quote: the text up to the closing quote, and the rest. *)
Fixpoint parse_str (l acc : list ascii) : option (string * list ascii) :=
  match l with
  | [] => None
  | c :: r =>
      if Ascii.eqb c dquote then Some (text (rev acc), r)
      else if Ascii.eqb c "\" then
        match r with
        | e :: r' =>
            match unescape e with
            | Some x => parse_str r' (x :: acc)
            | None => None
            end
        | [] => None
        end
      else if (nat_of_ascii c <? 32)%nat then None
      else parse_str r (c :: acc)
  end.

Definition parse_num (l : list ascii) : option (json * list ascii) :=
  let '(neg, l1) := match l with
                    | c :: r => if Ascii.eqb c "-" then (true, r) else (false, l)
                    | [] => (false, l)
                    end in
  let '(ds, r) := span is_digit l1 in
  let fraction := match r with
                  | c :: _ => Ascii.eqb c "." || Ascii.eqb c "e" || Ascii.eqb c "E"
                  | [] => false
                  end in
  match ds with
  | [] => None
  | d :: ds' =>
      if fraction || (Ascii.eqb d "0" && negb (Nat.eqb (length ds') 0)) then None
      else let n := Number_digits ds in
           Some (JNum (if neg then - n else n), r)
  end.

Definition parse_lit (word : string) (v : json) (l : list ascii)
  : option (json * list ascii) :=
  match strip (chars word) l with
  | Some r => Some (v, r)
  | None => None
  end.

Fixpoint parse_value (fuel : nat) (l : list ascii) : option (json * list ascii) :=
  match fuel with
  | O => None
  | S f =>
      match skip_ws l with
      | [] => None
      | c :: r =>
          if Ascii.eqb c "n" then parse_lit "null" JNull (c :: r)
          else if Ascii.eqb c "t" then parse_lit "true" (JBool true) (c :: r)
          else if Ascii.eqb c "f" then parse_lit "false" (JBool false) (c :: r)
          else if Ascii.eqb c dquote then
            match parse_str r [] with
            | Some (s, r') => Some (JStr s, r')
            | None => None
            end
          else if Ascii.eqb c "[" then
            match skip_ws r with
            | d :: r' =>
                if Ascii.eqb d "]" then Some (JArr [], r')
                else match parse_elements f (d :: r') [] with
                     | Some (xs, r'') => Some (JArr xs, r'')
                     | None => None
                     end
            | [] => None
            end
          else if Ascii.eqb c "{" then
            match skip_ws r with
            | d :: r' =>
                if Ascii.eqb d "}" then Some (JObj [], r')
                else match parse_members f (d :: r') [] with
                     | Some (fs, r'') => Some (JObj fs, r'')
                     | None => None
                     end
            | [] => None
            end
          else parse_num (c :: r)
      end
  end
with parse_elements (fuel : nat) (l : list ascii) (acc : list json)
  : option (list json * list ascii) :=
  match fuel with
  | O => None
  | S f =>
      match parse_value f l with
      | Some (v, r) =>
          match skip_ws r with
          | c :: r' =>
              if Ascii.eqb c "," then parse_elements f r' (v :: acc)
              else if Ascii.eqb c "]" then Some (rev (v :: acc), r')
              else None
          | [] => None
          end
      | None => None
      end
  end
with parse_members (fuel : nat) (l : list ascii) (acc : list (string * json))
  : option (list (string * json) * list ascii) :=
  match fuel with
  | O => None
  | S f =>
      match skip_ws l with
      | q :: r0 =>
          if Ascii.eqb q dquote then
            match parse_str r0 [] with
            | Some (k, r1) =>
                match skip_ws r1 with
                | c :: r2 =>
                    if Ascii.eqb c ":" then
                      match parse_value f r2 with
                      | Some (v, r3) =>
                          let acc' := set_prop k v acc in
                          match skip_ws r3 with
                          | d :: r4 =>
                              if Ascii.eqb d "," then parse_members f r4 acc'
                              else if Ascii.eqb d "}" then Some (acc', r4)
                              else None
                          | [] => None
                          end
                      | None => None
                      end
                    else None
                | [] => None
                end
            | None => None
            end
          else None
      | [] => None
      end
  end.

Definition parse (s : string) : option json :=
  match parse_value (S (String.length s)) (chars s) with
  | Some (v, r) => match skip_ws r with [] => Some v | _ => None end
  | None => None
  end.

Definition hex_digit (n : nat) : ascii :=
  ascii_of_nat (if (n <? 10)%nat then 48 + n else 87 + n).

Definition escape (c : ascii) : list ascii :=
  let n := nat_of_ascii c in
  if Ascii.eqb c dquote then [backslash; dquote]
  else if Ascii.eqb c "\" then chars "\\"
  else if (n =? 10)%nat then chars "\n"
  else if (n =? 13)%nat then chars "\r"
  else if (n =? 9)%nat then chars "\t"
  else if (n =? 8)%nat then chars "\b"
  else if (n =? 12)%nat then chars "\f"
  else if (n <? 32)%nat then
    chars "\u00" ++ [hex_digit (n / 16); hex_digit (n mod 16)]
  else [c].

Definition quote (s : string) : string :=
  text ([dquote] ++ flat_map escape (chars s) ++ [dquote]).

Definition join (sep : string) (l : list string) : string :=
  match l with
  | [] => ""
  | x :: r => fold_left (fun acc y => acc +:+ sep +:+ y) r x
  end.

Fixpoint stringify (v : json) : string :=
  match v with
  | JNull => "null"
  | JBool true => "true"
  | JBool false => "false"
  | JNum n => pretty n
  | JStr s => quote s
  | JArr xs => "[" +:+ join "," (map stringify xs) +:+ "]"
  | JObj fs =>
      "{" +:+ join "," (map (fun kv => quote (fst kv) +:+ ":" +:+ stringify (snd kv)) fs)
      +:+ "}"
  end.

#[global] Instance refJSON : JSONBuiltins :=
  {| JSON_parse := parse; JSON_stringify := stringify |}.

(** *** An in-memory object store

    Modelled from the spec: the object-store abstraction "consumed here only
    through exists / read / write operations".  One bucket; an object is the
    text stored under its key, and its URL is [s3://<bucket>/<key>]. *)
Record MemStore : Type := mkMemStore {
  bucket : string;
  objects : list (string * string)
}.

Definition key_of_url (o : MemStore) (url : string) : option string :=
  option_map text (strip (chars ("s3://" +:+ bucket o +:+ "/")) (chars url)).

Fixpoint lookup_object (k : string) (l : list (string * string)) : option string :=
  match l with
  | [] => None
  | (k', v) :: r => if String.eqb k k' then Some v else lookup_object k r
  end.

Fixpoint put_object (k v : string) (l : list (string * string))
  : list (string * string) :=
  match l with
  | [] => [(k, v)]
  | (k', v') :: r =>
      if String.eqb k k' then (k, v) :: r else (k', v') :: put_object k v r
  end.

Definition mem_read (url : string) (o : MemStore) : option string :=
  key_of_url o url ≫= fun k => lookup_object k (objects o).

Definition has_prefix (p s : string) : bool :=
  match strip (chars p) (chars s) with Some _ => true | None => false end.

#[global] Instance memObjectStore : ObjectStore MemStore := {|
  objectExists url o :=
    Ok (match mem_read url o with Some _ => true | None => false end);
  getObjectJson url o :=
    match mem_read url o with
    | Some body =>
        match parse body with
        | Some v => Ok v
        | None => Throw (SyntaxError "Unexpected token in JSON")
        end
    | None => Throw (Error "NoSuchKey")
    end;
  listObjectKeys dir o :=
    match key_of_url o dir with
    | Some p => Ok (List.filter (has_prefix p) (map fst (objects o)))
    | None => Ok []
    end;
  upload body url o :=
    match key_of_url o url with
    | Some k => Ok (mkMemStore (bucket o) (put_object k body (objects o)))
    | None => Throw (Error "NoSuchBucket")
    end
|}.

(** Locations in the layout of the source's example
    ([s3://artifacts/requestId/workItemId/outputs/]). *)
#[global] Instance refLocations : Locations := {|
  getStacLocation w :=
    "s3://artifacts/" +:+ jobID w +:+ "/" +:+ pretty (id w) +:+ "/outputs/";
  getItemLogsLocation w :=
    "s3://artifacts/" +:+ jobID w +:+ "/" +:+ pretty (id w) +:+ "/logs.json";
  resolveUrl base rel := base +:+ rel
|}.

(** *** An in-memory work-item store

    Modelled from the spec: the WorkItemStore of section 4.1 (work-item rows
    and per (username, jobID, serviceID) ready/running counts), whose code is
    not among the sources.  [outage] injects a fault: [Some n] lets [n] more
    statements through and fails every later one. *)
Record UserWork : Type := mkUserWork {
  uw_username : string;
  uw_jobID : string;
  uw_serviceID : string;
  readyCount : Z;
  runningCount : Z
}.

Record MemDb : Type := mkMemDb {
  items : list WorkItem;
  user_work : list UserWork;
  cmrLimit : Z;
  outage : option nat
}.

(** Every statement goes through the connection first. *)
Definition statement {A} (f : MemDb -> A * MemDb) (d : MemDb) : res (A * MemDb) :=
  match outage d with
  | Some O => Throw (Error "Connection terminated unexpectedly")
  | Some (S n) =>
      Ok (f (mkMemDb (items d) (user_work d) (cmrLimit d) (Some n)))
  | None => Ok (f d)
  end.

Definition with_status (s : WorkItemStatus) (w : WorkItem) : WorkItem :=
  mkWorkItem (id w) (jobID w) (serviceID w) s (retryCount w) (WorkItemModel.scrollID w)
             (operation w) (stacCatalogLocation w).

Definition is_ready (svc job : string) (w : WorkItem) : bool :=
  bool_decide (serviceID w = svc) && bool_decide (jobID w = job)
  && bool_decide (WorkItemModel.status w = READY).

Definition has_ready (svc : string) (u : UserWork) : bool :=
  bool_decide (uw_serviceID u = svc) && (0 <? readyCount u).

(** The first [n] ready items of a job become RUNNING and are returned. *)
Fixpoint claim (svc job : string) (n : nat) (l : list WorkItem)
  : list WorkItem * list WorkItem :=
  match n, l with
  | O, _ | _, [] => ([], l)
  | S n', w :: r =>
      if is_ready svc job w then
        let '(got, r') := claim svc job n' r in (w :: got, with_status RUNNING w :: r')
      else
        let '(got, r') := claim svc job n r in (got, w :: r')
  end.

Definition count_status (svc job : string) (s : WorkItemStatus) (l : list WorkItem) : Z :=
  Z.of_nat (length (List.filter
    (fun w => bool_decide (serviceID w = svc) && bool_decide (jobID w = job)
              && bool_decide (WorkItemModel.status w = s)) l)).

Fixpoint dedup_strings (l : list string) : list string :=
  match l with
  | [] => []
  | x :: r => x :: List.filter (fun y => negb (String.eqb x y)) (dedup_strings r)
  end.

Definition set_items (l : list WorkItem) (d : MemDb) : MemDb :=
  mkMemDb l (user_work d) (cmrLimit d) (outage d).
Definition set_user_work (l : list UserWork) (d : MemDb) : MemDb :=
  mkMemDb (items d) l (cmrLimit d) (outage d).

#[global] Instance memStore : WorkItemStore MemDb := {|
  getNextUsernameForWork svc :=
    statement (fun d =>
      (option_map uw_username
         (head (sort_by (fun a b => runningCount a <=? runningCount b)
                        (List.filter (has_ready svc) (user_work d)))), d));
  getNextJobIdForUsernameAndService svc user :=
    statement (fun d =>
      (option_map uw_jobID
         (List.find (fun u => has_ready svc u && bool_decide (uw_username u = user))
                    (user_work d)), d));
  getNextWorkItem svc job :=
    statement (fun d =>
      let '(got, l) := claim svc job 1 (items d) in (head got, set_items l d));
  getNextWorkItems svc job limit :=
    statement (fun d =>
      let '(got, l) := claim svc job (Z.to_nat limit) (items d) in
      (Some got, set_items l d));
  getNextJobIds svc batchSize :=
    statement (fun d =>
      (take (Z.to_nat batchSize)
         (dedup_strings (map uw_jobID (List.filter (has_ready svc) (user_work d)))), d));
  incrementRunningAndDecrementReadyCounts job svc n :=
    statement (fun d =>
      let k := default 1 n in
      (tt, set_user_work
             (map (fun u =>
                     if bool_decide (uw_jobID u = job) && bool_decide (uw_serviceID u = svc)
                     then mkUserWork (uw_username u) job svc
                                     (readyCount u - k) (runningCount u + k)
                     else u) (user_work d)) d));
  recalculateCounts job :=
    statement (fun d =>
      (tt, set_user_work
             (map (fun u =>
                     if bool_decide (uw_jobID u = job)
                     then mkUserWork (uw_username u) job (uw_serviceID u)
                            (count_status (uw_serviceID u) job READY (items d))
                            (count_status (uw_serviceID u) job RUNNING (items d))
                     else u) (user_work d)) d));
  getWorkItemStatus i :=
    statement (fun d =>
      (option_map WorkItemModel.status (List.find (fun w => id w =? i) (items d)), d));
  updateWorkItemStatuses ids s :=
    statement (fun d =>
      (tt, set_items
             (map (fun w => if existsb (Z.eqb (id w)) ids then with_status s w else w)
                  (items d)) d));
  calculateQueryCmrLimit _ :=
    statement (fun d => (cmrLimit d, d))
|}.

(** *** An in-memory queue

    Modelled from the spec: "an at-least-once, visibility-timeout message
    queue".  A received message leaves [visible] for [inflight] until it is
    deleted; the wait time plays no part. *)
Record MemQueue : Type := mkMemQueue {
  visible : list QueueMessage;
  inflight : list QueueMessage;
  sent : nat
}.

#[global] Instance memQueue : WorkQueue MemQueue := {|
  getMessage _ q :=
    match visible q with
    | m :: r => Ok (Some m, mkMemQueue r (inflight q ++ [m]) (sent q))
    | [] => Ok (None, q)
    end;
  deleteMessage r q :=
    let keep := List.filter (fun m => negb (String.eqb (receipt m) r)) in
    Ok (tt, mkMemQueue (keep (visible q)) (keep (inflight q)) (sent q));
  sendMessage b q :=
    Ok (tt, mkMemQueue (visible q ++ [mkMessage b ("r" +:+ pretty (Z.of_nat (sent q)))])
                       (inflight q) (S (sent q)))
|}.

#[global] Instance refConfig : Config := {|
  useServiceQueues := true;
  getQueueUrlForService svc := "https://queue/" +:+ svc;
  QUERY_CMR_SERVICE_REGEX_test svc := search_to_end
    (cat (lit "harmonyservices/query-cmr:") (Star dot)) svc
|}.

(** The JSON text of a dispatch envelope *)
Definition json_of_WorkItem (w : WorkItem) : json :=
  JObj [ ("id", JNum (id w)); ("jobID", JStr (jobID w));
         ("serviceID", JStr (serviceID w));
         ("status", JStr match WorkItemModel.status w with
                         | READY => "ready" | RUNNING => "running"
                         | SUCCESSFUL => "successful" | FAILED => "failed"
                         | CANCELED => "canceled"
                         end);
         ("retryCount", JNum (retryCount w));
         ("operation", operation w);
         ("stacCatalogLocation", JStr (stacCatalogLocation w)) ]%string.

Definition json_of_WorkItemData (x : WorkItemData) : json :=
  JObj (("workItem"%string, json_of_WorkItem (workItem x))
        :: match maxCmrGranules x with
           | Some n => [("maxCmrGranules"%string, JNum n)]
           | None => []
           end).

End Reference.

(** ** Concrete inputs *)

Module Fixtures.
Import Logging WorkItemModel Runner Reference.

Definition env0 : Env :=
  {| workerTimeout := 1500; artifactBucket := "artifacts";
     harmonyService := "ghcr.io/nasa/harmony-service-example:latest";
     invocationArgs := "python -m harmony_service_example";
     myPodName := "pod-0" |}.

Definition item7 : WorkItem :=
  {| id := 7; jobID := "job"; serviceID := "svc";
     WorkItemModel.status := RUNNING; retryCount := 2;
     WorkItemModel.scrollID := None; operation := JObj [];
     stacCatalogLocation := "s3://artifacts/job/6/outputs/catalog.json" |}.

(** [s3://artifacts/job/7/outputs/] *)
Definition outputs7 : string := getStacLocation item7.

Definition store_of (objs : list (string * string)) : Runner.World MemStore :=
  Runner.mkWorld (mkMemStore "artifacts" objs) [].

(** A status with the exit code [code] *)
Definition exited (code : string) : V1Status :=
  {| Runner.status := Some "Failure"%string;
     details := Some {| causes := Some [ {| reason := Some "ExitCode"%string;
                                            cause_message := Some code;
                                            field := None |} ] |} |}.

(** An output directory with an [error.json] written by the worker *)
Definition with_error_json : Runner.World MemStore :=
  store_of [ ("job/7/outputs/error.json"%string,
              stringify (JObj [("error"%string, JStr "Granule not found")])) ].

(** An output directory whose [error.json] is not JSON *)
Definition with_corrupt_error_json : Runner.World MemStore :=
  store_of [ ("job/7/outputs/error.json"%string, "<html>"%string) ].

(** Logs of an earlier attempt at the logs location of [item7] *)
Definition earlier_logs : list json := [JStr "first attempt"; JStr "gave up"].
Definition with_earlier_logs : Runner.World MemStore :=
  store_of [ ("job/7/logs.json"%string, stringify (JArr earlier_logs)) ].

(** Output directories without a manifest *)
Definition three_catalogs : MemStore :=
  mkMemStore "artifacts"
    [ ("job/7/outputs/catalog0.json", "{}"); ("job/7/outputs/catalog10.json", "{}");
      ("job/7/outputs/catalog2.json", "{}") ]%string.

Definition catalog_without_index : MemStore :=
  mkMemStore "artifacts"
    [ ("job/7/outputs/catalog.json", "{}"); ("job/7/outputs/catalog0.json", "{}") ]%string.

(** Runs of the worker *)
Definition succeeded : V1Status :=
  {| Runner.status := Some "Success"%string; details := None |}.

(** The worker finishes after the timeout of 1500 ms. *)
Definition late_run : list (Z * Event) :=
  [ (10, Chunk "starting"); (1600, ExecStatus succeeded); (1700, Resume 0);
    (1800, Resume 0) ].

(** The worker finishes in time. *)
Definition timely_run : list (Z * Event) :=
  [ (10, Chunk "starting"); (900, ExecStatus succeeded); (1000, Resume 0);
    (1100, Resume 0) ].

(** Inputs of the poller *)
Definition item (i : Z) (job : string) (s : WorkItemStatus) : WorkItem :=
  {| id := i; jobID := job; serviceID := "svc"; WorkItemModel.status := s;
     retryCount := 0; WorkItemModel.scrollID := None; operation := JObj [];
     stacCatalogLocation := "s3://artifacts/in/catalog.json" |}.

(** Three jobs with 1, 1 and 4 ready items, and one canceled item *)
Definition three_jobs : MemDb :=
  {| items := [ item 1 "a" READY; item 2 "b" READY; item 3 "c" READY;
                item 4 "c" READY; item 5 "c" READY; item 6 "c" READY;
                item 7 "c" CANCELED ];
     user_work := [ mkUserWork "u" "a" "svc" 1 0; mkUserWork "u" "b" "svc" 1 0;
                    mkUserWork "v" "c" "svc" 4 0 ];
     cmrLimit := 2000;
     outage := None |}.

(** The counts say that job [a] has a ready item; its only item is running. *)
Definition desynced : MemDb :=
  {| items := [ item 1 "a" RUNNING ];
     user_work := [ mkUserWork "u" "a" "svc" 1 0 ];
     cmrLimit := 2000;
     outage := None |}.

(** The connection is lost after [n] more statements. *)
Definition failing_after (n : nat) (d : MemDb) : MemDb :=
  mkMemDb (items d) (user_work d) (cmrLimit d) (Some n).

(** The dispatch message of item 7, waiting on the queue of [svc] *)
Definition message7 : Polling.QueueMessage :=
  {| Polling.body := stringify (json_of_WorkItemData
                                  (Polling.mkData (item 7 "c" READY) None));
     Polling.receipt := "receipt-7" |}.

Definition poller (d : MemDb) (msgs : list Polling.QueueMessage)
  : Polling.World MemDb MemQueue unit :=
  {| Polling.db := d;
     Polling.queues := {[ "https://queue/svc"%string := mkMemQueue msgs [] 0 ]};
     Polling.schedulerQueue := mkMemQueue [] [] 0;
     Polling.reqLogger := [];
     Polling.vars := tt |}.

(** A page of granules answered by the query-cmr worker *)
Definition page_answer : QueryCmr.HttpResponse :=
  {| QueryCmr.http_status := Some 200;
     QueryCmr.statusText := Some "OK"%string;
     QueryCmr.data :=
       Some (JObj [ ("totalItemsSize"%string, JNum 12);
                    ("outputItemSizes"%string, JArr [JNum 5; JNum 7]);
                    ("scrollID"%string, JStr "scroll-2") ]) |}.

(** The worker refuses the request and says why *)
Definition refusal : QueryCmr.HttpResponse :=
  {| QueryCmr.http_status := Some 400;
     QueryCmr.statusText := Some "Bad Request"%string;
     QueryCmr.data :=
       Some (JObj [ ("description"%string, JStr "Too many granules") ]) |}.

(** The worker fails without a body *)
Definition breakdown : QueryCmr.HttpResponse :=
  {| QueryCmr.http_status := Some 500;
     QueryCmr.statusText := Some "Internal Server Error"%string;
     QueryCmr.data := None |}.

End Fixtures.

(* ###################################################################### *)
(** * Part II: lemmas and theorems *)
(* ###################################################################### *)

(** ** Sorting *)

Section SortFacts.
Context {A : Type} (le : A -> A -> bool).

Lemma insert_sorted_perm (x : A) (l : list A) :
  Permutation (insert_sorted le x l) (x :: l).
Proof.
  induction l as [|y r IH]; simpl; [reflexivity|].
  destruct (le x y); [reflexivity|].
  rewrite IH. apply perm_swap.
Qed.

Lemma sort_by_perm (l : list A) : Permutation (sort_by le l) l.
Proof.
  induction l as [|x r IH]; simpl; [reflexivity|].
  rewrite insert_sorted_perm. now constructor.
Qed.

End SortFacts.

(** ** [models/batch.ts]: the highest batch *)

Section BatchFacts.
Import BatchModel.

Lemma head_sort_desc (l : table) (x : BatchRow) :
  first (orderBy_batchID_desc l) = Some x ->
  In x l /\ Forall (fun y => row_batchID y <= row_batchID x) l.
Proof.
  unfold first, orderBy_batchID_desc. revert x.
  induction l as [|a l IH]; simpl; intros x Hx; [discriminate|].
  destruct (sort_by _ l) as [|y r] eqn:E; simpl in Hx.
  - assert (l = []) as ->.
    { pose proof (sort_by_perm (fun a b => row_batchID b <=? row_batchID a) l) as P.
      rewrite E in P. now apply Permutation_nil in P. }
    inversion Hx; subst. split; [now left|]. repeat constructor. lia.
  - destruct (IH y eq_refl) as [Hin Hall].
    destruct (row_batchID y <=? row_batchID a) eqn:C; simpl in Hx;
      inversion Hx; subst.
    + apply Z.leb_le in C. split; [now left|].
      constructor; [lia|]. eapply Forall_impl; [exact Hall|].
      simpl. intros; lia.
    + apply Z.leb_gt in C. split; [now right|].
      constructor; [lia|exact Hall].
Qed.

Lemma first_sort_nonempty (a : BatchRow) (l : table) :
  exists x, first (orderBy_batchID_desc (a :: l)) = Some x.
Proof.
  unfold first, orderBy_batchID_desc.
  destruct (sort_by _ (a :: l)) as [|x r] eqn:E; [|eauto].
  pose proof (sort_by_perm (fun a b => row_batchID b <=? row_batchID a) (a :: l)) as P.
  rewrite E in P. now apply Permutation_nil_cons in P.
Qed.

Lemma save_all_rows (j s : string) (ids : list Z) (tbl : table) :
  exists rows,
    save_all j s ids tbl = tbl ++ rows /\
    map row_batchID rows = ids /\
    Forall (fun r => row_jobID r = j /\ row_serviceID r = s) rows.
Proof.
  revert tbl. induction ids as [|n ids IH]; intros tbl; simpl.
  - exists []. rewrite app_nil_r. auto.
  - destruct (IH (save (mkBatch None j s n None) tbl)) as (rows & E & Hm & Hf).
    unfold save in E at 2. simpl in E.
    eexists (_ :: rows). rewrite E, <- app_assoc. simpl.
    split; [reflexivity|]. split; [now rewrite Hm|].
    constructor; auto.
Qed.

Lemma where_all (j s : string) (rows : table) :
  Forall (fun r => row_jobID r = j /\ row_serviceID r = s) rows ->
  where_job_service j s rows = rows.
Proof.
  unfold where_job_service. induction 1 as [|r rows Hr _ IH]; [reflexivity|].
  rewrite filter_cons. destruct (decide _) as [_|N]; [now rewrite IH|now destruct N].
Qed.

(** The lookup gives a row of the pair whose [batchID] no row of the pair
    exceeds, and [undefined] exactly when the pair has no row. *)
Lemma withHighestBatchID_max (tx : table) (j s : string) :
  match withHighestBatchIDForJobService tx j s with
  | None => where_job_service j s tx = []
  | Some b =>
      jobID b = j /\ serviceID b = s /\
      In (batchID b) (map row_batchID (where_job_service j s tx)) /\
      Forall (fun r => row_batchID r <= batchID b) (where_job_service j s tx)
  end.
Proof.
  unfold withHighestBatchIDForJobService.
  destruct (where_job_service j s tx) as [|a l] eqn:E; [reflexivity|].
  destruct (first_sort_nonempty a l) as [x Hx]. rewrite Hx.
  destruct (head_sort_desc _ _ Hx) as [Hin Hall]. simpl.
  assert (x ∈ where_job_service j s tx) as Hx'.
  { rewrite E. now apply list_elem_of_In. }
  unfold where_job_service in Hx'. apply list_elem_of_filter in Hx'.
  destruct Hx' as [[-> ->] _].
  repeat split; [exact (in_map row_batchID _ _ Hin)|exact Hall].
Qed.

(** C9: a fresh (jobID, serviceID) pair has no highest batch, and once
    batches with the ids 1, 2 and 3 are saved for it, in any order, the lookup
    gives the batch with id 3. *)
Theorem highest_batch_any_order (tx : BatchModel.table) (j s : string) :
  where_job_service j s tx = [] ->
  withHighestBatchIDForJobService tx j s = None /\
  forall order : list Z, Permutation order [1; 2; 3] ->
    exists b : Batch,
      withHighestBatchIDForJobService (save_all j s order tx) j s = Some b /\
      batchID b = 3 /\ jobID b = j /\ serviceID b = s.
Proof.
  intros Hfresh. split.
  - unfold withHighestBatchIDForJobService. now rewrite Hfresh.
  - intros order Hperm.
    destruct (save_all_rows j s order tx) as (rows & E & Hm & Hf).
    pose proof (withHighestBatchID_max (save_all j s order tx) j s) as Hmax.
    assert (where_job_service j s (save_all j s order tx) = rows) as Hw.
    { rewrite E. unfold where_job_service. rewrite filter_app.
      fold (where_job_service j s tx). fold (where_job_service j s rows).
      rewrite Hfresh. simpl. now apply where_all. }
    rewrite Hw, Hm in Hmax.
    destruct (withHighestBatchIDForJobService _ j s) as [b|].
    + exists b. destruct Hmax as (Hj & Hs & Hin & Hall).
      repeat split; auto.
      assert (In (batchID b) [1; 2; 3]) as Hb.
      { eapply Permutation_in; eauto. }
      assert (In 3 order) as H3.
      { eapply Permutation_in; [symmetry; exact Hperm|]. simpl; auto. }
      rewrite <- Hm in H3. apply in_map_iff in H3.
      destruct H3 as (r & Hr3 & Hr).
      rewrite Forall_forall in Hall. apply list_elem_of_In in Hr.
      specialize (Hall r Hr).
      simpl in Hb. lia.
    + subst rows. apply Permutation_length in Hperm.
      rewrite <- Hm in Hperm. simpl in Hperm. discriminate.
Qed.

Lemma highest_batch_any_order_witness :
  where_job_service "job" "svc" [mkRow 1 "other" "svc" 9] = [] /\
  exists b : Batch,
    withHighestBatchIDForJobService
      (save_all "job" "svc" [2; 3; 1] [mkRow 1 "other" "svc" 9]) "job" "svc" = Some b /\
    batchID b = 3 /\ jobID b = "job"%string /\ serviceID b = "svc"%string.
Proof.
  split; [reflexivity|].
  apply (highest_batch_any_order [mkRow 1 "other" "svc" 9] "job" "svc" eq_refl).
  apply perm_trans with [2; 1; 3];
    [apply perm_skip, perm_swap | apply perm_swap].
Defined.

End BatchFacts.

(** ** The service runner: error resolution *)

Section ErrorFacts.
Import Logging WorkItemModel Runner.
Context `{JSONBuiltins} `{Locations} {O : Type} `{ObjectStore O}.

Lemma getErrorMessageOfStatus_cases (st : V1Status) (msg : option string) :
  _getErrorMessageOfStatus st msg =
  if exitedOOM st then "Service failed due to running out of memory"%string
  else default "Unknown error"%string msg.
Proof.
  unfold _getErrorMessageOfStatus, exitedOOM.
  now destruct (bool_decide _).
Qed.

Lemma getErrorMessage_artifact (st : V1Status) (dir : string) (w : World O)
    (logEntry : json) (msg : jsval) :
  objectExists (resolveUrl dir "error.json") (store w) = Ok true ->
  getObjectJson (resolveUrl dir "error.json") (store w) = Ok logEntry ->
  member (Some logEntry) "error" = Ok msg ->
  _getErrorMessage st dir w = (Ok msg, w).
Proof.
  intros He Hg Hm.
  unfold _getErrorMessage, try_catch, bind, on_store, lift_res.
  now rewrite He, Hg, Hm.
Qed.

Lemma getErrorMessage_absent (st : V1Status) (dir : string) (w : World O) :
  objectExists (resolveUrl dir "error.json") (store w) = Ok false ->
  _getErrorMessage st dir w = (Ok (statusMessage st "Unknown error"), w).
Proof.
  intros He.
  unfold _getErrorMessage, try_catch, bind, on_store, ret, statusMessage.
  rewrite He. now rewrite getErrorMessageOfStatus_cases.
Qed.

Lemma getErrorMessage_failure (st : V1Status) (dir : string) (w : World O) (e : exn) :
  artifact_fails dir (store w) e ->
  fst (_getErrorMessage st dir w) =
    Ok (statusMessage st "Service terminated without error message").
Proof.
  intros Hf.
  unfold _getErrorMessage, try_catch, bind, on_store, lift_res, log, modify, ret,
    statusMessage.
  destruct Hf as [e He | e He Hg | logEntry e He Hg Hm];
    rewrite ?He, ?Hg, ?Hm; simpl;
    now rewrite getErrorMessageOfStatus_cases.
Qed.

(** C2: the message of a failed execution.  A readable [error.json] gives its
    [error] field as it is; otherwise the out-of-memory exit code gives the
    fixed message and any other status a default one; a failure while the
    artifact is read ends in the same two cases and is never thrown. *)
Theorem error_message_precedence (st : V1Status) (dir : string) (w : World O) :
  (forall fields : list (string * json),
     objectExists (resolveUrl dir "error.json") (store w) = Ok true ->
     getObjectJson (resolveUrl dir "error.json") (store w) = Ok (JObj fields) ->
     fst (_getErrorMessage st dir w) = Ok (get_prop "error" fields)) /\
  (objectExists (resolveUrl dir "error.json") (store w) = Ok false ->
     fst (_getErrorMessage st dir w) =
       Ok (Some (JStr (if exitedOOM st
                       then "Service failed due to running out of memory"
                       else "Unknown error")))) /\
  (forall e : exn,
     artifact_fails dir (store w) e ->
     fst (_getErrorMessage st dir w) =
       Ok (Some (JStr (if exitedOOM st
                       then "Service failed due to running out of memory"
                       else "Service terminated without error message")))) /\
  (exists msg : jsval, fst (_getErrorMessage st dir w) = Ok msg).
Proof.
  split; [|split; [|split]].
  - intros fields He Hg.
    now rewrite (getErrorMessage_artifact st dir w (JObj fields) (get_prop "error" fields)).
  - intros He. now rewrite getErrorMessage_absent.
  - intros e Hf. now rewrite (getErrorMessage_failure st dir w e Hf).
  - destruct (objectExists (resolveUrl dir "error.json") (store w)) as [[|]|e] eqn:He.
    + destruct (getObjectJson (resolveUrl dir "error.json") (store w))
        as [logEntry|e] eqn:Hg.
      * destruct (member (Some logEntry) "error") as [msg|e] eqn:Hm.
        -- exists msg. now rewrite (getErrorMessage_artifact st dir w logEntry msg).
        -- eexists. apply (getErrorMessage_failure st dir w e).
           eapply fails_member; eauto.
      * eexists. apply (getErrorMessage_failure st dir w e).
        now apply fails_read.
    + eexists. now rewrite getErrorMessage_absent.
    + eexists. apply (getErrorMessage_failure st dir w e). now apply fails_exists.
Qed.

End ErrorFacts.

Lemma error_message_precedence_witness :
  (* artifact and out-of-memory exit code: the artifact wins *)
  fst (Runner._getErrorMessage (Fixtures.exited "137") Fixtures.outputs7
         Fixtures.with_error_json)
    = Ok (Some (JStr "Granule not found")) /\
  (* out-of-memory exit code only *)
  fst (Runner._getErrorMessage (Fixtures.exited "137") Fixtures.outputs7
         (Fixtures.store_of []))
    = Ok (Some (JStr "Service failed due to running out of memory")) /\
  (* neither *)
  fst (Runner._getErrorMessage (Fixtures.exited "1") Fixtures.outputs7
         (Fixtures.store_of []))
    = Ok (Some (JStr "Unknown error")) /\
  (* an artifact that cannot be read *)
  fst (Runner._getErrorMessage (Fixtures.exited "1") Fixtures.outputs7
         Fixtures.with_corrupt_error_json)
    = Ok (Some (JStr "Service terminated without error message")).
Proof.
  split; [|split; [|split]].
  - apply (proj1 (error_message_precedence (Fixtures.exited "137") Fixtures.outputs7
                    Fixtures.with_error_json)
                 [("error"%string, JStr "Granule not found")]);
      vm_compute; reflexivity.
  - apply (proj1 (proj2 (error_message_precedence (Fixtures.exited "137")
                           Fixtures.outputs7 (Fixtures.store_of []))));
      vm_compute; reflexivity.
  - apply (proj1 (proj2 (error_message_precedence (Fixtures.exited "1")
                           Fixtures.outputs7 (Fixtures.store_of []))));
      vm_compute; reflexivity.
  - apply (proj1 (proj2 (proj2 (error_message_precedence (Fixtures.exited "1")
                                  Fixtures.outputs7 Fixtures.with_corrupt_error_json)))
                 (SyntaxError "Unexpected token in JSON")).
    apply Runner.fails_read; vm_compute; reflexivity.
Defined.

(** ** The service runner: log upload *)

Section UploadFacts.
Import Logging WorkItemModel Runner.
Context `{JSONBuiltins} `{Locations} {O : Type} `{ObjectStore O}.

Lemma retryMarker_cases (workItem : WorkItem) (logs : list json) :
  retryMarker workItem logs = JStr (retryMessage workItem) \/
  retryMarker workItem logs = JObj [("message"%string, JStr (retryMessage workItem))].
Proof.
  unfold retryMarker. destruct logs as [|[] ?]; auto.
Qed.

(** C6: what [uploadLogs] writes at the logs location of the item is the JSON
    text of the array that was there (when there was one), then the retry
    marker made of the item's [retryCount] and [id], then the captured logs;
    without earlier logs it is the marker and the captured logs; when the
    earlier logs cannot be read nothing is written over them. *)
Theorem uploadLogs_appends (workItem : WorkItem) (logs : list json) (w : World O) :
  (forall old : list json,
     objectExists (getItemLogsLocation workItem) (store w) = Ok true ->
     getObjectJson (getItemLogsLocation workItem) (store w) = Ok (JArr old) ->
     uploadLogs workItem logs w =
       update_store
         (upload (JSON_stringify (JArr (old ++ retryMarker workItem logs :: logs)))
                 (getItemLogsLocation workItem)) w) /\
  (objectExists (getItemLogsLocation workItem) (store w) = Ok false ->
     uploadLogs workItem logs w =
       update_store
         (upload (JSON_stringify (JArr (retryMarker workItem logs :: logs)))
                 (getItemLogsLocation workItem)) w) /\
  (forall e : exn,
     objectExists (getItemLogsLocation workItem) (store w) = Ok true ->
     getObjectJson (getItemLogsLocation workItem) (store w) = Throw e ->
     uploadLogs workItem logs w = (Throw e, w)) /\
  (retryMarker workItem logs = JStr (retryMessage workItem) \/
   retryMarker workItem logs = JObj [("message"%string, JStr (retryMessage workItem))]) /\
  retryMessage workItem =
    ("Start of service execution (retryCount=" +:+ pretty (retryCount workItem)
     +:+ ", id=" +:+ pretty (id workItem) +:+ ")")%string.
Proof.
  split; [|split; [|split; [|split]]].
  - intros old He Hg.
    unfold uploadLogs, bind, on_store, lift_res, ret.
    rewrite He, Hg. reflexivity.
  - intros He.
    unfold uploadLogs, bind, on_store, ret.
    rewrite He. reflexivity.
  - intros e He Hg.
    unfold uploadLogs, bind, on_store.
    rewrite He, Hg. reflexivity.
  - apply retryMarker_cases.
  - reflexivity.
Qed.

End UploadFacts.

(** On the in-memory store, an uploaded text is what is read back. *)
Lemma lookup_put_object (k v : string) (l : list (string * string)) :
  Reference.lookup_object k (Reference.put_object k v l) = Some v.
Proof.
  induction l as [|[k' v'] l IH]; simpl.
  - now rewrite String.eqb_refl.
  - destruct (String.eqb k k') eqn:E; simpl; rewrite ?E, ?String.eqb_refl; auto.
Qed.

Lemma mem_upload_read (body url : string) (o o' : Reference.MemStore) :
  Runner.upload body url o = Ok o' -> Reference.mem_read url o' = Some body.
Proof.
  unfold Runner.upload, Reference.memObjectStore, Reference.mem_read,
    Reference.key_of_url.
  destruct (strip _ (chars url)) as [k|] eqn:E; cbn [option_map]; [|discriminate].
  intros [= <-]. cbn [Reference.bucket Reference.objects].
  rewrite E. cbn [option_map mbind option_bind]. apply lookup_put_object.
Qed.

Lemma uploadLogs_appends_witness :
  Reference.mem_read (Runner.getItemLogsLocation Fixtures.item7)
    (Runner.store (snd (Runner.uploadLogs Fixtures.item7 [JStr "third line"]
                          Fixtures.with_earlier_logs)))
  = Some (Reference.stringify
            (JArr [ JStr "first attempt"; JStr "gave up";
                    JStr "Start of service execution (retryCount=2, id=7)";
                    JStr "third line" ])).
Proof.
  rewrite (proj1 (uploadLogs_appends Fixtures.item7 [JStr "third line"]
                    Fixtures.with_earlier_logs)
                 Fixtures.earlier_logs);
    vm_compute; reflexivity.
Defined.

(** ** Text: the regular expressions and their matcher *)

Section RegexFacts.

Ltac invert H := inversion H; subst; clear H.

Lemma lang_Cat_inv (r1 r2 : regex) (l : list ascii) :
  lang (Cat r1 r2) l <-> exists l1 l2, l = l1 ++ l2 /\ lang r1 l1 /\ lang r2 l2.
Proof.
  split.
  - intros Hc. invert Hc. eauto.
  - intros (l1 & l2 & -> & H1 & H2). now constructor.
Qed.

Lemma lang_Alt_inv (r1 r2 : regex) (l : list ascii) :
  lang (Alt r1 r2) l <-> lang r1 l \/ lang r2 l.
Proof.
  split.
  - intros Ha. invert Ha; auto.
  - intros [H1|H2]; [now apply lang_alt_l|now apply lang_alt_r].
Qed.

Lemma lang_Void (l : list ascii) : lang Void l <-> False.
Proof. split; [intros Hv; invert Hv|tauto]. Qed.

Lemma lang_Eps (l : list ascii) : lang Eps l <-> l = [].
Proof. split; [intros He; now invert He|intros ->; constructor]. Qed.

Lemma lang_Chr (p : ascii -> bool) (l : list ascii) :
  lang (Chr p) l <-> exists c, l = [c] /\ p c = true.
Proof.
  split; [intros Hc; invert Hc; eauto|intros (c & -> & Hp); now constructor].
Qed.

Lemma nullable_lang (r : regex) : nullable r = true <-> lang r [].
Proof.
  induction r as [| |p|r1 IH1 r2 IH2|r1 IH1 r2 IH2|r IH]; simpl.
  - rewrite lang_Void. split; [discriminate|tauto].
  - rewrite lang_Eps. tauto.
  - rewrite lang_Chr. split; [discriminate|intros (c & E & _); discriminate].
  - rewrite andb_true_iff, IH1, IH2, lang_Cat_inv. split.
    + intros [H1 H2]. exists [], []. auto.
    + intros (l1 & l2 & E & H1 & H2). symmetry in E.
      apply app_eq_nil in E as [-> ->]. auto.
  - rewrite orb_true_iff, IH1, IH2, lang_Alt_inv. tauto.
  - split; [constructor|reflexivity].
Qed.

Lemma lang_Cat_Void_l (r : regex) (l : list ascii) : lang (Cat Void r) l <-> False.
Proof.
  rewrite lang_Cat_inv. split; [|tauto].
  intros (l1 & l2 & _ & H1 & _). now apply lang_Void in H1.
Qed.

Lemma lang_Cat_Void_r (r : regex) (l : list ascii) : lang (Cat r Void) l <-> False.
Proof.
  rewrite lang_Cat_inv. split; [|tauto].
  intros (l1 & l2 & _ & _ & H2). now apply lang_Void in H2.
Qed.

Lemma lang_Cat_Eps_l (r : regex) (l : list ascii) : lang (Cat Eps r) l <-> lang r l.
Proof.
  rewrite lang_Cat_inv. split.
  - intros (l1 & l2 & -> & H1 & H2). apply lang_Eps in H1. now subst.
  - intros Hr. exists [], l. repeat split; [constructor|exact Hr].
Qed.

Lemma lang_Cat_Eps_r (r : regex) (l : list ascii) : lang (Cat r Eps) l <-> lang r l.
Proof.
  rewrite lang_Cat_inv. split.
  - intros (l1 & l2 & -> & H1 & H2). apply lang_Eps in H2. subst.
    now rewrite app_nil_r.
  - intros Hr. exists l, []. rewrite app_nil_r. repeat split; [exact Hr|constructor].
Qed.

Lemma lang_cat_smart (r1 r2 : regex) (l : list ascii) :
  lang (cat r1 r2) l <-> lang (Cat r1 r2) l.
Proof.
  destruct r1, r2; cbn [cat];
    rewrite ?lang_Cat_Void_l, ?lang_Cat_Void_r, ?lang_Cat_Eps_l, ?lang_Cat_Eps_r,
      ?lang_Void; reflexivity.
Qed.

Lemma lang_alt_smart (r1 r2 : regex) (l : list ascii) :
  lang (alt r1 r2) l <-> lang (Alt r1 r2) l.
Proof.
  rewrite lang_Alt_inv.
  destruct r1, r2; cbn [alt]; rewrite ?lang_Alt_inv, ?lang_Void; tauto.
Qed.

(** A non-empty word of [Star r] starts with a non-empty word of [r]. *)
Lemma lang_star_cons_inv (r : regex) (c : ascii) (l : list ascii) :
  lang (Star r) (c :: l) ->
  exists l1 l2, l = l1 ++ l2 /\ lang r (c :: l1) /\ lang (Star r) l2.
Proof.
  intros Hs. remember (Star r) as sr eqn:Er. remember (c :: l) as cl eqn:El.
  revert r c l Er El.
  induction Hs as [| | | | | |r' l1 l2 H1 _ H2 IH2]; intros r0 c0 l0 Er El;
    try discriminate.
  injection Er as ->.
  destruct l1 as [|c1 l1].
  - simpl in El. apply (IH2 r0 c0 l0 eq_refl El).
  - simpl in El. injection El as -> <-. exists l1, l2. auto.
Qed.

Lemma deriv_lang (c : ascii) (r : regex) (l : list ascii) :
  lang (deriv c r) l <-> lang r (c :: l).
Proof.
  revert l. induction r as [| |p|r1 IH1 r2 IH2|r1 IH1 r2 IH2|r IH]; intros l;
    cbn [deriv].
  - rewrite !lang_Void. tauto.
  - rewrite lang_Void, lang_Eps. split; [tauto|discriminate].
  - rewrite lang_Chr. destruct (p c) eqn:Hp.
    + rewrite lang_Eps. split.
      * intros ->. eauto.
      * intros (c' & E & _). now injection E.
    + rewrite lang_Void. split; [tauto|].
      intros (c' & E & Hp'). injection E as <- _. congruence.
  - assert (lang (Cat (deriv c r1) r2) l <->
            exists l1 l2, l = l1 ++ l2 /\ lang r1 (c :: l1) /\ lang r2 l2) as Hd.
    { rewrite lang_Cat_inv. split.
      - intros (l1 & l2 & E & H1 & H2). apply IH1 in H1. eauto.
      - intros (l1 & l2 & E & H1 & H2). apply IH1 in H1. eauto. }
    assert (lang (Cat r1 r2) (c :: l) <->
            (exists l1 l2, l = l1 ++ l2 /\ lang r1 (c :: l1) /\ lang r2 l2) \/
            (lang r1 [] /\ lang r2 (c :: l))) as Hc.
    { rewrite lang_Cat_inv. split.
      - intros (l1 & l2 & E & H1 & H2).
        destruct l1 as [|c1 l1]; simpl in E.
        + subst. right. auto.
        + injection E as -> ->. left. eauto.
      - intros [(l1 & l2 & -> & H1 & H2)|[H1 H2]].
        + exists (c :: l1), l2. auto.
        + exists [], (c :: l). auto. }
    rewrite Hc. destruct (nullable r1) eqn:Hn.
    + rewrite lang_alt_smart, lang_Alt_inv, lang_cat_smart, Hd, IH2.
      apply nullable_lang in Hn. tauto.
    + rewrite lang_cat_smart, Hd. split; [tauto|].
      intros [Ha|[Hb _]]; [exact Ha|].
      apply nullable_lang in Hb. congruence.
  - rewrite lang_alt_smart, !lang_Alt_inv, IH1, IH2. tauto.
  - rewrite lang_cat_smart, lang_Cat_inv. split.
    + intros (l1 & l2 & -> & H1 & H2).
      apply IH in H1. apply (lang_star_cons r (c :: l1) l2 H1 H2).
    + intros Hs. apply lang_star_cons_inv in Hs as (l1 & l2 & -> & H1 & H2).
      exists l1, l2. split; [reflexivity|]. split; [now apply IH|exact H2].
Qed.

(** The matcher decides the words of the expression. *)
Lemma accepts_lang (r : regex) (l : list ascii) : accepts r l = true <-> lang r l.
Proof.
  unfold accepts. revert r. induction l as [|c l IH]; intros r; cbn [fold_left].
  - apply nullable_lang.
  - rewrite IH. apply deriv_lang.
Qed.

Lemma lang_lit_chars (cs l : list ascii) :
  lang (fold_right (fun c r => cat (Chr (Ascii.eqb c)) r) Eps cs) l <-> l = cs.
Proof.
  revert l. induction cs as [|c cs IH]; intros l; cbn [fold_right].
  - apply lang_Eps.
  - rewrite lang_cat_smart, lang_Cat_inv. split.
    + intros (l1 & l2 & -> & H1 & H2). apply lang_Chr in H1 as (c' & -> & Hc).
      apply Ascii.eqb_eq in Hc. subst. apply IH in H2. now subst.
    + intros ->. exists [c], cs. repeat split.
      * constructor. apply Ascii.eqb_refl.
      * now apply IH.
Qed.

Lemma lang_lit (s : string) (l : list ascii) : lang (lit s) l <-> l = chars s.
Proof. apply lang_lit_chars. Qed.

Lemma lang_Star_Chr (p : ascii -> bool) (l : list ascii) :
  lang (Star (Chr p)) l <-> forallb p l = true.
Proof.
  split.
  - intros Hs. remember (Star (Chr p)) as sr eqn:Er.
    induction Hs as [| | | | | |r l1 l2 H1 _ H2 IH2]; try discriminate;
      [reflexivity|].
    injection Er as ->. apply lang_Chr in H1 as (c & -> & Hc).
    simpl. rewrite Hc. now apply IH2.
  - induction l as [|c l IH]; simpl; [constructor|].
    rewrite andb_true_iff. intros [Hc Hl].
    apply (lang_star_cons (Chr p) [c] l); [now constructor|now apply IH].
Qed.

(** [re.test(s)] for an expression that ends in [$]: a suffix is a word. *)
Lemma search_to_end_lang (r : regex) (s : string) :
  search_to_end r s = true <->
  exists pre suf, chars s = pre ++ suf /\ lang r suf.
Proof.
  unfold search_to_end. rewrite accepts_lang, lang_cat_smart, lang_Cat_inv.
  split.
  - intros (l1 & l2 & E & _ & H2). eauto.
  - intros (l1 & l2 & E & H2). exists l1, l2. repeat split; auto.
    apply lang_Star_Chr. now apply forallb_forall.
Qed.

Lemma search_fileNumRegex (s : string) :
  search_to_end fileNumRegex s = true <-> indexed_catalog (chars s).
Proof.
  rewrite search_to_end_lang. unfold fileNumRegex, indexed_catalog. split.
  - intros (pre & suf & E & Hl).
    apply lang_cat_smart, lang_Cat_inv in Hl as (line & l2 & -> & _ & Hl).
    apply lang_cat_smart, lang_Cat_inv in Hl as (c & l3 & -> & Hc & Hl).
    apply lang_lit in Hc. subst c.
    apply lang_cat_smart, lang_Cat_inv in Hl as (ds & j & -> & Hd & Hj).
    apply lang_lit in Hj. subst j.
    apply lang_cat_smart, lang_Cat_inv in Hd as (d1 & d2 & -> & Hd1 & Hd2).
    apply lang_Chr in Hd1 as (d & -> & Hd).
    apply lang_Star_Chr in Hd2.
    exists (pre ++ line), ([d] ++ d2). rewrite E, <- !app_assoc.
    repeat split; [discriminate|]. simpl. now rewrite Hd, Hd2.
  - intros (pre & ds & E & Hne & Hd).
    destruct ds as [|d ds]; [congruence|]. simpl in Hd.
    apply andb_true_iff in Hd as [Hd1 Hd2].
    exists pre, (chars "catalog" ++ (d :: ds) ++ chars ".json").
    split; [exact E|].
    apply lang_cat_smart, lang_Cat_inv. exists [], (chars "catalog" ++ (d :: ds) ++ chars ".json").
    repeat split; [constructor|].
    apply lang_cat_smart, lang_Cat_inv. exists (chars "catalog"), ((d :: ds) ++ chars ".json").
    repeat split; [now apply lang_lit|].
    apply lang_cat_smart, lang_Cat_inv. exists (d :: ds), (chars ".json").
    repeat split; [|now apply lang_lit].
    apply lang_cat_smart, lang_Cat_inv. exists [d], ds.
    repeat split; [now constructor|now apply lang_Star_Chr].
Qed.

Lemma strip_app (pre l r : list ascii) : strip pre l = Some r <-> l = pre ++ r.
Proof.
  revert l. induction pre as [|c pre IH]; intros l; cbn [strip].
  - split; [now intros [= ->]|now intros ->].
  - destruct l as [|d l]; [split; discriminate|].
    destruct (Ascii.eqb_spec c d) as [->|Hne].
    + rewrite IH. split; [now intros ->|now intros [= ->]].
    + split; [discriminate|]. intros [= -> _]. congruence.
Qed.

Lemma span_app {A} (p : A -> bool) (l : list A) :
  l = fst (span p l) ++ snd (span p l) /\
  forallb p (fst (span p l)) = true /\
  match snd (span p l) with [] => True | x :: _ => p x = false end.
Proof.
  induction l as [|y l IH]; [cbn; auto|].
  cbn [span]. destruct (p y) eqn:Hp.
  - destruct (span p l) as [a b]. cbn [fst snd] in *.
    destruct IH as (E & Ha & Hb). repeat split; [now rewrite E at 1| |exact Hb].
    simpl. now rewrite Hp.
  - cbn [fst snd]. auto.
Qed.

Lemma span_unique {A} (p : A -> bool) (a b : list A) :
  forallb p a = true ->
  match b with [] => True | x :: _ => p x = false end ->
  span p (a ++ b) = (a, b).
Proof.
  intros Ha Hb. induction a as [|x a IH]; cbn [app].
  - destruct b as [|y b]; [reflexivity|]. cbn [span]. now rewrite Hb.
  - simpl in Ha. apply andb_true_iff in Ha as [Hx Ha].
    cbn [span]. rewrite Hx, (IH Ha). reflexivity.
Qed.

Lemma forallb_rev {A} (p : A -> bool) (l : list A) :
  forallb p (rev l) = forallb p l.
Proof.
  induction l as [|x l IH]; [reflexivity|].
  simpl. rewrite forallb_app, IH. simpl. rewrite andb_true_r. apply andb_comm.
Qed.

(** [match] with [/.*catalog(\d+)\.json$/] is not [null] exactly where the
    expression matches, and its group 1 is the run of digits. *)
Lemma match_fileNumRegex_matches (s : string) :
  match_fileNumRegex s <> None <-> search_to_end fileNumRegex s = true.
Proof.
  rewrite search_fileNumRegex. unfold match_fileNumRegex, indexed_catalog. split.
  - destruct (strip _ (rev (chars s))) as [r1|] eqn:E1; [|congruence].
    apply strip_app in E1.
    pose proof (span_app is_digit r1) as (E2 & Hd & _).
    destruct (span is_digit r1) as [ds r2]. cbn [fst snd] in *.
    destruct ds as [|d ds]; [congruence|].
    destruct (strip _ r2) as [r3|] eqn:E3; [|congruence].
    apply strip_app in E3. intros _.
    exists (rev r3), (rev (d :: ds)).
    split; [|split].
    + apply (f_equal (@rev _)) in E1. rewrite rev_involutive in E1.
      rewrite E1, E2, E3. rewrite !rev_app_distr, !rev_involutive, <- !app_assoc.
      reflexivity.
    + intros Hn. apply (f_equal (@length _)) in Hn.
      rewrite length_rev in Hn. discriminate.
    + now rewrite forallb_rev.
  - intros (pre & ds & E & Hne & Hd).
    apply (f_equal (@rev _)) in E. rewrite !rev_app_distr, <- !app_assoc in E.
    rewrite E.
    rewrite (proj2 (strip_app _ _ _) eq_refl).
    rewrite span_unique; [|now rewrite forallb_rev|reflexivity].
    destruct (rev ds) as [|d ds'] eqn:Er.
    { apply (f_equal (@rev _)) in Er. rewrite rev_involutive in Er. now subst. }
    rewrite (proj2 (strip_app _ _ _) eq_refl).
    destruct (span is_dot (rev pre)). discriminate.
Qed.

Lemma match_fileNumRegex_group (s : string) (m : list string) :
  match_fileNumRegex s = Some m ->
  exists pre ds,
    chars s = pre ++ chars "catalog" ++ ds ++ chars ".json" /\
    ds <> [] /\ forallb is_digit ds = true /\
    length m = 2%nat /\ nth 1 m ""%string = text ds.
Proof.
  unfold match_fileNumRegex.
  destruct (strip _ (rev (chars s))) as [r1|] eqn:E1; [|discriminate].
  apply strip_app in E1.
  pose proof (span_app is_digit r1) as (E2 & Hd & _).
  destruct (span is_digit r1) as [ds r2]. cbn [fst snd] in *.
  destruct ds as [|d ds]; [discriminate|].
  destruct (strip _ r2) as [r3|] eqn:E3; [|discriminate].
  apply strip_app in E3.
  destruct (span is_dot r3) as [line rest]. intros [= <-].
  exists (rev r3), (rev (d :: ds)).
  split; [|split; [|split; [|split]]].
  - apply (f_equal (@rev _)) in E1. rewrite rev_involutive in E1.
    rewrite E1, E2, E3. rewrite !rev_app_distr, !rev_involutive, <- !app_assoc.
    reflexivity.
  - intros Hn. apply (f_equal (@length _)) in Hn.
    rewrite length_rev in Hn. discriminate.
  - now rewrite forallb_rev.
  - reflexivity.
  - reflexivity.
Qed.
End RegexFacts.

(** ** [packages/util/string.ts] *)

Section StringFacts.
Import StringUtil.

Lemma length_text (l : list ascii) : String.length (text l) = length l.
Proof. induction l as [|c l IH]; [reflexivity|]. simpl. now rewrite IH. Qed.

Lemma length_chars (s : string) : length (chars s) = String.length s.
Proof. induction s as [|c s IH]; [reflexivity|]. simpl. now rewrite IH. Qed.

Lemma length_append (a b : string) :
  String.length (a +:+ b) = (String.length a + String.length b)%nat.
Proof. induction a as [|c a IH]; [reflexivity|]. simpl. now rewrite IH. Qed.

Lemma chars_append (a b : string) : chars (a +:+ b) = chars a ++ chars b.
Proof. induction a as [|c a IH]; [reflexivity|]. simpl. now rewrite IH. Qed.

Lemma string_app_assoc (a b c : string) : (a +:+ b) +:+ c = a +:+ b +:+ c.
Proof.
  induction a as [|x a IH]; [reflexivity|].
  change (String x ((a +:+ b) +:+ c) = String x (a +:+ b +:+ c)). now rewrite IH.
Qed.

Lemma chars_text (l : list ascii) : chars (text l) = l.
Proof. apply list_ascii_of_string_of_list_ascii. Qed.

Lemma text_chars (s : string) : text (chars s) = s.
Proof. apply string_of_list_ascii_of_string. Qed.

Lemma truncateString_cases (s : string) (n : Z) :
  (Z.of_nat (String.length s) <= n /\ truncateString s n = s) \/
  (n < Z.of_nat (String.length s) /\ n < 3 /\ truncateString s n = "..."%string) \/
  (n < Z.of_nat (String.length s) /\ 3 <= n /\
   truncateString s n = text (take (Z.to_nat (n - 3)) (chars s)) +:+ "..." /\
   Z.of_nat (String.length (truncateString s n)) = n).
Proof.
  unfold truncateString.
  destruct (Z.ltb_spec n (Z.of_nat (String.length s))) as [Hlt|Hge]; [|now left].
  right. destruct (Z.ltb_spec n 3) as [H3|H3]; [now left|right].
  repeat split; try assumption.
  rewrite length_append, length_text, length_take, length_chars. simpl. lia.
Qed.

(** X2: for [n] of 3 or more, [truncateString s n] has [min n (length s)]
    characters: a text longer than [n] keeps its first [n - 3] characters,
    followed by three dots; a text of at most [n] characters is unchanged. *)
Theorem truncateString_length (s : string) (n : Z) :
  3 <= n ->
  Z.of_nat (String.length (truncateString s n)) = Z.min n (Z.of_nat (String.length s)) /\
  (n < Z.of_nat (String.length s) ->
   truncateString s n = text (take (Z.to_nat (n - 3)) (chars s)) +:+ "...") /\
  (Z.of_nat (String.length s) <= n -> truncateString s n = s).
Proof.
  intros Hn.
  destruct (truncateString_cases s n) as [[H1 E]|[(H1 & H2 & E)|(H1 & H2 & E & L)]].
  - rewrite E. split; [lia|split; [lia|reflexivity]].
  - lia.
  - split; [lia|split; [now intros _|lia]].
Qed.

Lemma truncateString_length_witness :
  3 <= 6 /\
  truncateString "abcdefgh" 6 = "abc..."%string /\
  Z.of_nat (String.length (truncateString "abcdefgh" 6)) = 6.
Proof.
  split; [lia|]. split; [reflexivity|].
  now destruct (truncateString_length "abcdefgh" 6 ltac:(lia)) as [-> _].
Defined.

(** X3: truncating twice to the same length is truncating once, for every
    [n], the lengths below 3 (where the result is the three dots) included. *)
Theorem truncateString_idempotent (s : string) (n : Z) :
  truncateString (truncateString s n) n = truncateString s n.
Proof.
  assert (Hshort : forall t, Z.of_nat (String.length t) <= n -> truncateString t n = t).
  { intros t Ht. destruct (truncateString_cases t n) as [[_ E]|[(?&_)|(?&_)]];
      [exact E|lia|lia]. }
  destruct (truncateString_cases s n) as [[H1 E]|[(H1 & H2 & E)|(H1 & H2 & E & L)]].
  - rewrite E. now apply Hshort.
  - rewrite E.
    destruct (truncateString_cases "..." n) as [[H E']|[(_ & _ & E')|(_ & ? & _)]];
      [simpl in H; lia|exact E'|lia].
  - apply Hshort. lia.
Qed.

Lemma Array_join_snoc (sep x y : string) (l : list string) :
  Array_join sep (x :: l ++ [y]) = Array_join sep (x :: l) +:+ sep +:+ y.
Proof.
  revert x. induction l as [|z l IH]; intros x; [reflexivity|].
  change (Array_join sep (x :: (z :: l) ++ [y]))
    with (x +:+ sep +:+ Array_join sep (z :: l ++ [y])).
  rewrite IH.
  change (Array_join sep (x :: z :: l)) with (x +:+ sep +:+ Array_join sep (z :: l)).
  now rewrite !string_app_assoc.
Qed.

(** X1: [listToText] is empty for a missing or empty list, the item for one
    item, [x and y] for two; for three or more the items are separated by
    [, ] and the join word comes after the last comma (Oxford comma). *)
Theorem listToText_oxford (w : option Conjunction) :
  listToText None w = ""%string /\
  listToText (Some []) w = ""%string /\
  (forall x, listToText (Some [x]) w = x) /\
  (forall x y,
     listToText (Some [x; y]) w
     = x +:+ " " +:+ Conjunction_text (default AND w) +:+ " " +:+ y) /\
  (forall x y init z,
     listToText (Some (x :: y :: init ++ [z])) w
     = Array_join ", " (x :: y :: init) +:+ ", "
       +:+ Conjunction_text (default AND w) +:+ " " +:+ z).
Proof.
  repeat split; try reflexivity.
  - intros x y. unfold listToText. cbn [length Array_join].
    now rewrite !string_app_assoc.
  - intros x y init z. unfold listToText.
    assert (Hlen : length (x :: y :: init ++ [z]) = S (S (S (length init)))).
    { cbn [length]. rewrite length_app. simpl. lia. }
    rewrite Hlen. cbn [Nat.sub].
    replace (S (S (length init)) - 0)%nat with (length (x :: y :: init))
      by (cbn [length]; lia).
    change (x :: y :: init ++ [z]) with ((x :: y :: init) ++ [z]).
    rewrite app_nth2, Nat.sub_diag by (cbn [length]; lia). cbn [nth].
    rewrite insert_app_r_alt, Nat.sub_diag by (cbn [length]; lia).
    cbn [insert list_insert].
    change ((x :: y :: init) ++ [?a]) with (x :: (y :: init) ++ [a]).
    rewrite Array_join_snoc. reflexivity.
Qed.

End StringFacts.

Section PredicateFacts.
Import StringUtil.

Lemma lang_digits1 (l : list ascii) :
  lang (cat digit (Star digit)) l <-> l <> [] /\ forallb is_digit l = true.
Proof.
  rewrite lang_cat_smart, lang_Cat_inv. split.
  - intros (l1 & l2 & -> & H1 & H2). apply lang_Chr in H1 as (d & -> & Hd).
    apply lang_Star_Chr in H2. split; [discriminate|]. simpl. now rewrite Hd.
  - intros [Hne Hd]. destruct l as [|d l]; [congruence|]. simpl in Hd.
    apply andb_true_iff in Hd as [Hd1 Hd2].
    exists [d], l. repeat split; [now constructor|now apply lang_Star_Chr].
Qed.

Lemma lang_lit_i_chars (cs l : list ascii) :
  lang (fold_right
          (fun c r => cat (Chr (fun d => Ascii.eqb (toUpperCase d) (toUpperCase c))) r)
          Eps cs) l
  <-> map toUpperCase l = map toUpperCase cs.
Proof.
  revert l. induction cs as [|c cs IH]; intros l; cbn [fold_right].
  - rewrite lang_Eps. split; [now intros ->|]. now destruct l.
  - rewrite lang_cat_smart, lang_Cat_inv. split.
    + intros (l1 & l2 & -> & H1 & H2). apply lang_Chr in H1 as (d & -> & Hd).
      apply Ascii.eqb_eq in Hd. apply IH in H2. simpl. now rewrite Hd, H2.
    + destruct l as [|d l]; [discriminate|]. simpl. intros [= Hd Hl].
      exists [d], l. repeat split; [|now apply IH].
      constructor. now apply Ascii.eqb_eq.
Qed.

Lemma lang_lit_i (s : string) (l : list ascii) :
  lang (lit_i s) l <-> map toUpperCase l = map toUpperCase (chars s).
Proof. apply lang_lit_i_chars. Qed.

Lemma lang_any (l : list ascii) : lang (Star any_char) l.
Proof. apply lang_Star_Chr. now apply forallb_forall. Qed.

Lemma isInteger_iff (s : string) :
  isInteger s = true <->
  exists ds, ds <> [] /\ forallb is_digit ds = true /\
             (chars s = ds \/ chars s = "-"%char :: ds).
Proof.
  unfold isInteger, test_whole, integerRegex.
  rewrite accepts_lang, lang_cat_smart, lang_Cat_inv. split.
  - intros (l1 & l2 & E & H1 & H2). apply lang_digits1 in H2 as [Hne Hd].
    exists l2. repeat split; [assumption..|].
    apply lang_alt_smart, lang_Alt_inv in H1 as [H1|H1].
    + apply lang_Eps in H1. subst. now left.
    + apply lang_lit in H1. subst. now right.
  - intros (ds & Hne & Hd & [E|E]).
    + exists [], ds. repeat split; [exact E| |now apply lang_digits1].
      apply lang_alt_smart, lang_Alt_inv. left. constructor.
    + exists ["-"%char], ds. repeat split; [exact E| |now apply lang_digits1].
      apply lang_alt_smart, lang_Alt_inv. right. now apply lang_lit.
Qed.

Lemma is_digit_pretty_N_char (x : N) : is_digit (pretty_N_char x) = true.
Proof.
  unfold pretty_N_char.
  repeat (match goal with |- context [match ?p with _ => _ end] => destruct p end;
          try reflexivity).
Qed.

Lemma digits_pretty_N_go (x : N) (s : string) :
  forallb is_digit (chars s) = true ->
  forallb is_digit (chars (pretty_N_go x s)) = true.
Proof.
  revert s. induction (N.lt_wf_0 x) as [x _ IH]. intros s Hs.
  destruct (decide (x = 0)%N) as [->|Hx].
  - now rewrite pretty_N_go_0.
  - rewrite pretty_N_go_step by lia. apply IH.
    + apply N.div_lt; lia.
    + simpl. now rewrite is_digit_pretty_N_char.
Qed.

Lemma nonempty_pretty_N_go (x : N) (s : string) :
  (0 < x)%N -> pretty_N_go x s <> ""%string.
Proof.
  revert s. induction (N.lt_wf_0 x) as [x _ IH]. intros s Hx.
  rewrite pretty_N_go_step by lia.
  destruct (decide (x `div` 10 = 0)%N) as [E|E].
  - rewrite E, pretty_N_go_0. discriminate.
  - apply IH; [apply N.div_lt; lia|now apply N.neq_0_lt_0].
Qed.

Lemma digits_pretty_N (x : N) :
  chars (pretty x) <> [] /\ forallb is_digit (chars (pretty x)) = true.
Proof.
  unfold pretty, pretty_N. destruct (decide (x = 0)%N) as [->|Hx].
  - split; [discriminate|reflexivity].
  - split; [|now apply digits_pretty_N_go].
    intros E. apply (nonempty_pretty_N_go x ""); [lia|].
    rewrite <- (text_chars (pretty_N_go x "")), E. reflexivity.
Qed.

(** X4: [isInteger] accepts exactly the non-empty runs of decimal digits
    with an optional minus sign in front; the decimal text of every integer
    is accepted. *)
Theorem isInteger_decimal :
  (forall s : string,
     isInteger s = true <->
     exists ds, ds <> [] /\ forallb is_digit ds = true /\
                (chars s = ds \/ chars s = "-"%char :: ds)) /\
  (forall n : Z, isInteger (pretty n) = true).
Proof.
  split; [exact isInteger_iff|].
  intros n. apply isInteger_iff. destruct n as [|p|p].
  - exists ["0"%char]. repeat split; [discriminate|now left].
  - exists (chars (pretty (N.pos p))).
    destruct (digits_pretty_N (N.pos p)) as [Hne Hd].
    repeat split; [assumption..|now left].
  - exists (chars (pretty (N.pos p))).
    destruct (digits_pretty_N (N.pos p)) as [Hne Hd].
    repeat split; [assumption..|now right].
Qed.


Lemma isFloat_iff (s : string) :
  isFloat s = true <->
  exists sign ds1 ds2,
    chars s = sign ++ ds1 ++ "."%char :: ds2 /\
    (sign = [] \/ sign = ["-"%char] \/ sign = ["+"%char]) /\
    forallb is_digit ds1 = true /\ ds2 <> [] /\ forallb is_digit ds2 = true.
Proof.
  unfold isFloat, test_whole, floatRegex.
  rewrite accepts_lang, lang_cat_smart, lang_Cat_inv. split.
  - intros (l1 & l2 & E & H1 & H2).
    apply lang_cat_smart, lang_Cat_inv in H2 as (ds1 & l3 & -> & Hd1 & H3).
    apply lang_Star_Chr in Hd1.
    apply lang_cat_smart, lang_Cat_inv in H3 as (p & ds2 & -> & Hp & Hd2).
    apply lang_lit in Hp. subst p. apply lang_digits1 in Hd2 as [Hne Hd2].
    exists l1, ds1, ds2. repeat split; try assumption.
    apply lang_alt_smart, lang_Alt_inv in H1 as [H1|H1].
    + apply lang_Eps in H1. now left.
    + apply lang_Chr in H1 as (c & -> & Hc). right.
      apply orb_true_iff in Hc as [Hc|Hc]; apply Ascii.eqb_eq in Hc; subst; auto.
  - intros (sign & ds1 & ds2 & E & Hs & Hd1 & Hne & Hd2).
    exists sign, (ds1 ++ "."%char :: ds2). repeat split; [exact E| |].
    + apply lang_alt_smart, lang_Alt_inv.
      destruct Hs as [->|[->| ->]]; [left; constructor|right..]; now constructor.
    + apply lang_cat_smart, lang_Cat_inv. exists ds1, ("."%char :: ds2).
      repeat split; [now apply lang_Star_Chr|].
      apply lang_cat_smart, lang_Cat_inv. exists ["."%char], ds2.
      repeat split; [now apply lang_lit|now apply lang_digits1].
Qed.

Lemma digits_no_point (a b l : list ascii) :
  forallb is_digit l = true -> l <> a ++ "."%char :: b.
Proof.
  intros Hd ->. rewrite forallb_app in Hd. apply andb_true_iff in Hd as [_ Hd].
  discriminate.
Qed.

(** X5: [isFloat] accepts exactly an optional sign, digits (possibly none), a
    point and at least one digit; no text is both an integer and a float. *)
Theorem isFloat_decimal_point (s : string) :
  (isFloat s = true <->
   exists sign ds1 ds2,
     chars s = sign ++ ds1 ++ "."%char :: ds2 /\
     (sign = [] \/ sign = ["-"%char] \/ sign = ["+"%char]) /\
     forallb is_digit ds1 = true /\ ds2 <> [] /\ forallb is_digit ds2 = true) /\
  (isInteger s = true -> isFloat s = false).
Proof.
  split; [apply isFloat_iff|].
  intros Hi. destruct (isFloat s) eqn:Hf; [exfalso|reflexivity].
  apply isInteger_iff in Hi as (ds & _ & Hd & Hs).
  apply isFloat_iff in Hf as (sign & ds1 & ds2 & E & Hsign & _).
  assert (Hall : exists a b, ds = a ++ "."%char :: b).
  { destruct Hs as [Hs|Hs]; rewrite Hs in E.
    - subst ds. exists (sign ++ ds1), ds2. now rewrite <- app_assoc.
    - destruct Hsign as [->|[->| ->]]; simpl in E.
      + destruct ds1 as [|d ds1]; simpl in E.
        * discriminate.
        * injection E as <- ->. simpl in *. eauto.
      + injection E as ->. eauto.
      + discriminate. }
  destruct Hall as (a & b & Hab). now apply (digits_no_point a b ds).
Qed.

Lemma map_take_prefix {A B} (f : A -> B) (l : list A) (a r : list B) :
  map f l = a ++ r -> map f (take (length a) l) = a.
Proof.
  intros E. rewrite <- firstn_map, E. now rewrite take_app_length.
Qed.

Lemma map_drop_suffix {A B} (f : A -> B) (l : list A) (p b : list B) :
  map f l = p ++ b -> map f (drop (length p) l) = b.
Proof.
  intros E. rewrite <- skipn_map, E. now rewrite drop_app_length.
Qed.

Lemma isBoolean_iff (s : string) :
  isBoolean s = true <->
  (exists rest, map toUpperCase (chars s) = chars "TRUE" ++ rest) \/
  (exists pre, map toUpperCase (chars s) = pre ++ chars "FALSE").
Proof.
  unfold isBoolean, test_whole, booleanRegex.
  rewrite accepts_lang, lang_alt_smart, lang_Alt_inv.
  rewrite !lang_cat_smart, !lang_Cat_inv. split.
  - intros [(l1 & l2 & E & H1 & _)|(l1 & l2 & E & _ & H2)].
    + left. apply lang_lit_i in H1. exists (map toUpperCase l2).
      rewrite E, map_app, H1. reflexivity.
    + right. apply lang_lit_i in H2. exists (map toUpperCase l1).
      rewrite E, map_app, H2. reflexivity.
  - intros [[rest E]|[pre E]].
    + left. exists (take (length (chars "TRUE")) (chars s)),
                   (drop (length (chars "TRUE")) (chars s)).
      repeat split; [now rewrite take_drop| |apply lang_any].
      apply lang_lit_i. now apply map_take_prefix in E.
    + right. exists (take (length pre) (chars s)), (drop (length pre) (chars s)).
      repeat split; [now rewrite take_drop|apply lang_any|].
      apply lang_lit_i. now apply map_drop_suffix in E.
Qed.

Lemma parseBoolean_iff (s : string) :
  parseBoolean s = true <-> map toUpperCase (chars s) = chars "TRUE".
Proof.
  unfold parseBoolean, test_whole. rewrite accepts_lang. apply lang_lit_i.
Qed.

(** X6: [/^true|false$/i] is the alternation of [^true] and [false$]:
    [isBoolean] accepts the texts that start with [true] or end with [false],
    whatever the case; [parseBoolean] accepts [true] alone, whatever the
    case, and what it accepts [isBoolean] accepts. *)
Theorem isBoolean_prefix_or_suffix (s : string) :
  (isBoolean s = true <->
   (exists rest, map toUpperCase (chars s) = chars "TRUE" ++ rest) \/
   (exists pre, map toUpperCase (chars s) = pre ++ chars "FALSE")) /\
  (parseBoolean s = true <-> map toUpperCase (chars s) = chars "TRUE") /\
  (parseBoolean s = true -> isBoolean s = true) /\
  (forall rest, isBoolean ("true" +:+ rest) = true) /\
  (forall pre, isBoolean (pre +:+ "false") = true).
Proof.
  split; [apply isBoolean_iff|]. split; [apply parseBoolean_iff|].
  split; [|split].
  - intros Hp. apply parseBoolean_iff in Hp. apply isBoolean_iff. left.
    exists []. now rewrite Hp.
  - intros rest. apply isBoolean_iff. left. exists (map toUpperCase (chars rest)).
    now rewrite chars_append, map_app.
  - intros pre. apply isBoolean_iff. right. exists (map toUpperCase (chars pre)).
    now rewrite chars_append, map_app.
Qed.

End PredicateFacts.

Lemma isInteger_decimal_witness :
  StringUtil.isInteger "-42" = true /\ StringUtil.isInteger (pretty (-42)) = true.
Proof.
  split.
  - apply (proj1 isInteger_decimal "-42"). exists (chars "42").
    split; [discriminate|]. split; [reflexivity|]. now right.
  - apply (proj2 isInteger_decimal).
Defined.

Lemma isFloat_decimal_point_witness :
  StringUtil.isInteger "7" = true /\ StringUtil.isFloat "7" = false /\
  StringUtil.isFloat "-.5" = true.
Proof.
  split; [reflexivity|]. split.
  - now apply (proj2 (isFloat_decimal_point "7")).
  - apply (proj1 (isFloat_decimal_point "-.5")).
    exists ["-"%char], [], ["5"%char].
    split; [reflexivity|]. split; [now right; left|].
    split; [reflexivity|]. split; [discriminate|reflexivity].
Defined.

Lemma isBoolean_prefix_or_suffix_witness :
  StringUtil.parseBoolean "True" = true /\ StringUtil.isBoolean "True" = true /\
  StringUtil.isBoolean "truest" = true /\ StringUtil.parseBoolean "truest" = false.
Proof.
  split; [reflexivity|]. split; [|split; [|reflexivity]].
  - now apply (proj1 (proj2 (proj2 (isBoolean_prefix_or_suffix "True")))).
  - apply (proj1 (proj2 (proj2 (proj2 (isBoolean_prefix_or_suffix "")))) "st").
Defined.

Section ReplaceFacts.
Import StringUtil.

Lemma longest_match_cases (r : regex) (l : list ascii) (n : nat) (best : option nat) :
  (longest_match r l n best = best /\
   forall k, (k <= length l)%nat -> ~ lang r (take k l)) \/
  (exists k, (k <= length l)%nat /\
     longest_match r l n best = Some (n + k)%nat /\
     lang r (take k l) /\
     forall k', (k < k' <= length l)%nat -> ~ lang r (take k' l)).
Proof.
  revert r n best. induction l as [|c l IH]; intros r n best; cbn [longest_match].
  - destruct (nullable r) eqn:Hn.
    + right. exists 0%nat. rewrite Nat.add_0_r.
      repeat split; [lia|now apply nullable_lang|]. simpl. lia.
    + left. split; [reflexivity|]. intros k _ Hl.
      rewrite take_nil in Hl. apply nullable_lang in Hl. congruence.
  - destruct (IH (deriv c r) (S n) (if nullable r then Some n else best))
      as [[E Hno]|(k & Hk & E & Hl & Hmax)].
    + rewrite E. destruct (nullable r) eqn:Hn.
      * right. exists 0%nat. rewrite Nat.add_0_r.
        repeat split; [lia|now apply nullable_lang|].
        intros k' [Hk1 Hk2] Hl. destruct k' as [|k']; [lia|].
        cbn [take firstn] in Hl. apply deriv_lang in Hl.
        apply (Hno k'); [simpl in Hk2; lia|exact Hl].
      * left. split; [reflexivity|]. intros k Hk Hl. destruct k as [|k].
        -- apply nullable_lang in Hl. congruence.
        -- cbn [take firstn] in Hl. apply deriv_lang in Hl.
           apply (Hno k); [simpl in Hk; lia|exact Hl].
    + right. exists (S k). rewrite E. repeat split.
      * simpl. lia.
      * f_equal. lia.
      * cbn [take firstn]. now apply deriv_lang.
      * intros k' [Hk1 Hk2] Hl'. destruct k' as [|k']; [lia|].
        cbn [take firstn] in Hl'. apply deriv_lang in Hl'.
        apply (Hmax k'); [simpl in Hk2; lia|exact Hl'].
Qed.

Lemma replace_first_eq (r : regex) (l : list ascii) :
  replace_first r l =
  match longest_match r l 0 None with
  | Some n => drop n l
  | None => match l with
            | [] => []
            | c :: l' => c :: replace_first r l'
            end
  end.
Proof. destruct l; reflexivity. Qed.

Lemma occurs_prefix (r : regex) (l : list ascii) (k : nat) :
  lang r (take k l) -> occurs r l.
Proof.
  intros Hl. exists [], (take k l), (drop k l). split; [|exact Hl].
  simpl. now rewrite take_drop.
Qed.

Lemma occurs_drop (r : regex) (l : list ascii) (n : nat) :
  occurs r (drop n l) -> occurs r l.
Proof.
  intros (a & w & b & E & Hl). exists (take n l ++ a), w, b. split; [|exact Hl].
  rewrite <- app_assoc, <- E. now rewrite take_drop.
Qed.

Lemma occurs_cons (r : regex) (c : ascii) (l : list ascii) :
  occurs r l -> occurs r (c :: l).
Proof. apply (occurs_drop r (c :: l) 1). Qed.

(** Without a match the text is left as it is. *)
Lemma replace_first_absent (r : regex) (l : list ascii) :
  ~ occurs r l -> replace_first r l = l.
Proof.
  induction l as [|c l IH]; intros Hno; rewrite replace_first_eq.
  - destruct (longest_match_cases r [] 0 None) as [[-> _]|(k & _ & _ & Hl & _)];
      [reflexivity|]. exfalso. eauto using occurs_prefix.
  - destruct (longest_match_cases r (c :: l) 0 None) as [[-> _]|(k & _ & _ & Hl & _)].
    + rewrite IH; [reflexivity|]. intros Ho. apply Hno. now apply occurs_cons.
    + exfalso. eauto using occurs_prefix.
Qed.

(** [re.test]: the search at every position finds a match exactly when the
    text holds a word. *)
Lemma test_occurs (r : regex) (l : list ascii) :
  existsb (fun i => match longest_match r (drop i l) 0 None with
                    | Some _ => true
                    | None => false
                    end) (seq 0 (S (length l))) = true
  <-> occurs r l.
Proof.
  rewrite existsb_exists. split.
  - intros (i & _ & Hi).
    destruct (longest_match_cases r (drop i l) 0 None) as [[E _]|(k & _ & _ & Hl & _)].
    + rewrite E in Hi. discriminate.
    + eapply occurs_drop, occurs_prefix, Hl.
  - intros (a & w & b & E & Hl). exists (length a). split.
    + apply in_seq. subst l. rewrite length_app. lia.
    + destruct (longest_match_cases r (drop (length a) l) 0 None)
        as [[_ Hno]|(k & _ & -> & _)]; [|reflexivity].
      exfalso. apply (Hno (length w)).
      * subst l. rewrite drop_app_length, length_app. lia.
      * subst l. now rewrite drop_app_length, take_app_length.
Qed.

Lemma forallb_drop {A} (p : A -> bool) (l : list A) (n : nat) :
  forallb p l = true -> forallb p (drop n l) = true.
Proof.
  rewrite <- (take_drop n l) at 1. rewrite forallb_app.
  intros Hl. now apply andb_true_iff in Hl as [_ ->].
Qed.

Section LeftClosed.
Context (r : regex) (Hclosed : left_closed r) (Hne : ~ lang r []).

(** On one line, the leftmost match starts the text and the greedy [.*]
    takes it to the last occurrence: what is left holds no word. *)
Lemma replace_first_line (l : list ascii) :
  forallb is_dot l = true ->
  exists n, replace_first r l = drop n l /\ ~ occurs r (replace_first r l).
Proof.
  intros Hline.
  destruct (longest_match_cases r l 0 None) as [[E Hno]|(k & Hk & E & Hl & Hmax)].
  - assert (Hnone : ~ occurs r l).
    { intros (a & w & b & El & Hw).
      apply (Hno (length (a ++ w))).
      - subst l. rewrite !length_app. lia.
      - subst l. rewrite app_assoc, take_app_length. apply Hclosed; [|exact Hw].
        rewrite !forallb_app in Hline. now apply andb_true_iff in Hline as [-> _]. }
    exists 0%nat. rewrite replace_first_absent by exact Hnone. now split.
  - exists k. rewrite replace_first_eq, E. simpl. split; [reflexivity|].
    intros (a & w & b & El & Hw).
    assert (El' : l = (take k l ++ a) ++ w ++ b).
    { rewrite <- app_assoc, <- El. now rewrite take_drop. }
    assert (Hdots : forallb is_dot (take k l ++ a) = true).
    { rewrite El' in Hline. rewrite forallb_app in Hline.
      now apply andb_true_iff in Hline as [-> _]. }
    destruct w as [|c w]; [now apply Hne|].
    apply (Hmax (length ((take k l ++ a) ++ c :: w))).
    + pose proof (f_equal (@length _) El') as Hlen.
      rewrite !length_app, length_take in Hlen. cbn [length] in Hlen.
      rewrite !length_app, length_take. cbn [length]. lia.
    + remember (take k l ++ a) as P eqn:EP. clear EP Hmax Hl E.
      rewrite El', app_assoc, take_app_length. now apply Hclosed.
Qed.

End LeftClosed.

Lemma left_closed_dot_star (p : regex) : left_closed (Cat (Star dot) p).
Proof.
  intros a w Ha Hw. apply lang_Cat_inv in Hw as (d & w' & -> & Hd & Hw').
  rewrite app_assoc. constructor; [|exact Hw'].
  apply lang_Star_Chr. apply lang_Star_Chr in Hd. rewrite forallb_app.
  fold is_dot in *. now rewrite Ha.
Qed.


Lemma left_closed_cat (p : regex) : left_closed (cat (Star dot) p).
Proof.
  intros a w Ha Hw. apply lang_cat_smart. apply lang_cat_smart in Hw.
  now apply left_closed_dot_star.
Qed.

Lemma not_nullable (r : regex) : nullable r = false -> ~ lang r [].
Proof. intros Hn Hl. apply nullable_lang in Hl. congruence. Qed.

Lemma inEcr_occurs (image : string) :
  inEcr image = true <-> occurs ecrRegex (chars image).
Proof.
  unfold inEcr. rewrite <- length_chars. apply test_occurs.
Qed.

Lemma lang_host (name tld : string) (w : list ascii) :
  lang (cat (lit name) (cat dot (lit tld))) w <->
  exists c, is_dot c = true /\ w = chars name ++ c :: chars tld.
Proof.
  rewrite lang_cat_smart, lang_Cat_inv. split.
  - intros (l1 & l2 & -> & H1 & H2). apply lang_lit in H1. subst l1.
    apply lang_cat_smart, lang_Cat_inv in H2 as (d & t & -> & Hd & Ht).
    apply lang_Chr in Hd as (c & -> & Hc). apply lang_lit in Ht. subst t.
    now exists c.
  - intros (c & Hc & ->). exists (chars name), (c :: chars tld).
    repeat split; [now apply lang_lit|].
    apply lang_cat_smart, lang_Cat_inv. exists [c], (chars tld).
    repeat split; [now constructor|now apply lang_lit].
Qed.

Lemma occurs_dot_star (p : regex) (l : list ascii) :
  occurs (cat (Star dot) p) l <-> occurs p l.
Proof.
  split.
  - intros (a & w & b & -> & Hw).
    apply lang_cat_smart, lang_Cat_inv in Hw as (d & w' & -> & _ & Hw').
    exists (a ++ d), w', b. split; [now rewrite <- !app_assoc|exact Hw'].
  - intros (a & w & b & -> & Hw). exists a, w, b. split; [reflexivity|].
    apply lang_cat_smart, lang_Cat_inv. exists [], w.
    repeat split; [constructor|exact Hw].
Qed.

(** X7: [inEcr] holds exactly when the image holds [amazonaws], one
    character that is no line terminator (the point of the expression is not
    escaped), and [com/]. *)
Theorem inEcr_contains_host (image : string) :
  inEcr image = true <->
  exists a c b, is_dot c = true /\
    chars image = a ++ chars "amazonaws" ++ c :: chars "com/" ++ b.
Proof.
  rewrite inEcr_occurs. unfold ecrRegex. rewrite occurs_dot_star. split.
  - intros (a & w & b & E & Hw). apply lang_host in Hw as (c & Hc & ->).
    exists a, c, b. split; [exact Hc|]. rewrite E. now rewrite <- !app_assoc.
  - intros (a & c & b & Hc & E).
    exists a, (chars "amazonaws" ++ c :: chars "com/"), b. split.
    + rewrite E. now rewrite <- !app_assoc.
    + apply lang_host. now exists c.
Qed.

Lemma sanitizeImage_line (image : string) :
  forallb is_dot (chars image) = true ->
  exists n,
    sanitizeImage image = text (drop n (chars image)) /\
    ~ occurs ecrRegex (drop n (chars image)) /\
    ~ occurs ghcrRegex (drop n (chars image)) /\
    ~ occurs earthdataRegex (drop n (chars image)).
Proof.
  intros H0. unfold sanitizeImage.
  destruct (replace_first_line ecrRegex (left_closed_cat _)
              (not_nullable ecrRegex eq_refl) _ H0) as (n1 & E1 & N1).
  rewrite E1 in N1 |- *.
  pose proof (forallb_drop _ _ n1 H0) as H1.
  destruct (replace_first_line ghcrRegex (left_closed_cat _)
              (not_nullable ghcrRegex eq_refl) _ H1) as (n2 & E2 & N2).
  rewrite E2 in N2 |- *.
  pose proof (forallb_drop _ _ n2 H1) as H2.
  destruct (replace_first_line earthdataRegex (left_closed_cat _)
              (not_nullable earthdataRegex eq_refl) _ H2) as (n3 & E3 & N3).
  rewrite E3 in N3 |- *.
  exists (n1 + (n2 + n3))%nat. rewrite <- !drop_drop.
  split; [reflexivity|]. split; [|split; [|exact N3]].
  - intros Ho. apply N1. eapply occurs_drop, occurs_drop, Ho.
  - intros Ho. apply N2. eapply occurs_drop, Ho.
Qed.

(** X8: on an image name of one line, [sanitizeImage] removes a prefix; the
    result holds none of the three registry hosts ([inEcr] is false on it),
    and sanitizing it again changes nothing. *)
Theorem sanitizeImage_hides_registry (image : string) :
  forallb is_dot (chars image) = true ->
  (exists n, sanitizeImage image = text (drop n (chars image))) /\
  inEcr (sanitizeImage image) = false /\
  ~ occurs ghcrRegex (chars (sanitizeImage image)) /\
  ~ occurs earthdataRegex (chars (sanitizeImage image)) /\
  sanitizeImage (sanitizeImage image) = sanitizeImage image.
Proof.
  intros H0. destruct (sanitizeImage_line image H0) as (n & E & N1 & N2 & N3).
  rewrite E, chars_text.
  split; [now exists n|]. split; [|split; [exact N2|split; [exact N3|]]].
  - destruct (inEcr (text (drop n (chars image)))) eqn:Hi; [exfalso|reflexivity].
    apply inEcr_occurs in Hi. now rewrite chars_text in Hi.
  - unfold sanitizeImage. rewrite chars_text.
    rewrite (replace_first_absent ecrRegex) by exact N1.
    rewrite (replace_first_absent ghcrRegex) by exact N2.
    now rewrite (replace_first_absent earthdataRegex) by exact N3.
Qed.

Lemma sanitizeImage_hides_registry_witness :
  forallb is_dot
    (chars "123456789012.dkr.ecr.us-west-2.amazonaws.com/harmonyservices/service-example:latest")
  = true /\
  sanitizeImage
    "123456789012.dkr.ecr.us-west-2.amazonaws.com/harmonyservices/service-example:latest"
  = "harmonyservices/service-example:latest"%string /\
  inEcr (sanitizeImage
    "123456789012.dkr.ecr.us-west-2.amazonaws.com/harmonyservices/service-example:latest")
  = false.
Proof.
  split; [reflexivity|]. split; [vm_compute; reflexivity|].
  apply (sanitizeImage_hides_registry
    "123456789012.dkr.ecr.us-west-2.amazonaws.com/harmonyservices/service-example:latest").
  reflexivity.
Defined.

End ReplaceFacts.

Lemma inEcr_contains_host_witness :
  StringUtil.inEcr "123.dkr.ecr.us-west-2.amazonaws.com/harmony" = true /\
  StringUtil.inEcr "registry/amazonaws-com/harmony" = true.
Proof.
  split.
  - apply (inEcr_contains_host "123.dkr.ecr.us-west-2.amazonaws.com/harmony").
    exists (chars "123.dkr.ecr.us-west-2."), "."%char, (chars "harmony").
    split; reflexivity.
  - apply (inEcr_contains_host "registry/amazonaws-com/harmony").
    exists (chars "registry/"), "-"%char, (chars "harmony").
    split; reflexivity.
Defined.

(** ** The service runner: output catalogs *)

Section SortedFacts.
Context {A : Type} (key : A -> Z).

Lemma insert_sorted_by_key (x : A) (l : list A) :
  StronglySorted (fun a b => key a <= key b) l ->
  StronglySorted (fun a b => key a <= key b)
                 (insert_sorted (fun a b => key a <=? key b) x l).
Proof.
  induction 1 as [|y r Hr IH Hy]; simpl; [repeat constructor|].
  destruct (key x <=? key y) eqn:C.
  - apply Z.leb_le in C. constructor; [now constructor|].
    constructor; [exact C|].
    eapply Forall_impl; [exact Hy|]. simpl. intros; lia.
  - apply Z.leb_gt in C. constructor; [exact IH|].
    rewrite (insert_sorted_perm _ x r). constructor; [lia|exact Hy].
Qed.

Lemma sort_by_key_sorted (l : list A) :
  StronglySorted (fun a b => key a <= key b)
                 (sort_by (fun a b => key a <=? key b) l).
Proof.
  induction l as [|x r IH]; simpl; [constructor|].
  now apply insert_sorted_by_key.
Qed.

End SortedFacts.

Section CatalogFacts.
Import Logging WorkItemModel Runner.

Lemma fileNum_matched (x : string) :
  match_fileNumRegex x <> None -> fileNum x = Ok (fileNumber x).
Proof.
  unfold fileNumber, fileNum. now destruct (match_fileNumRegex x).
Qed.

Lemma fileNum_unmatched (x : string) :
  match_fileNumRegex x = None -> exists e, fileNum x = Throw e.
Proof.
  unfold fileNum. intros ->. eauto.
Qed.

Lemma sort_insert_matched (x : string) (l : list string) :
  match_fileNumRegex x <> None ->
  Forall (fun y => match_fileNumRegex y <> None) l ->
  sort_insert compareFileNum x l =
    Ok (insert_sorted (fun a b => fileNumber a <=? fileNumber b) x l).
Proof.
  intros Hx. induction 1 as [|y r Hy _ IH]; cbn [sort_insert insert_sorted];
    [reflexivity|].
  unfold compareFileNum at 1.
  rewrite (fileNum_matched x Hx), (fileNum_matched y Hy). cbn [res_bind].
  replace (fileNumber x - fileNumber y <=? 0) with (fileNumber x <=? fileNumber y)
    by (destruct (Z.leb_spec (fileNumber x) (fileNumber y));
        destruct (Z.leb_spec (fileNumber x - fileNumber y) 0); lia).
  destruct (fileNumber x <=? fileNumber y); [reflexivity|].
  rewrite IH. reflexivity.
Qed.

(** With an index in every URL, [sort] gives the stable ascending order. *)
Lemma Array_sort_matched (l : list string) :
  Forall (fun y => match_fileNumRegex y <> None) l ->
  Array_sort compareFileNum l =
    Ok (sort_by (fun a b => fileNumber a <=? fileNumber b) l).
Proof.
  induction 1 as [|x r Hx Hr IH]; simpl; [reflexivity|].
  rewrite IH. simpl. apply sort_insert_matched; [exact Hx|].
  eapply Forall_forall. intros y Hy.
  rewrite Forall_forall in Hr. apply Hr.
  apply list_elem_of_In. apply list_elem_of_In in Hy.
  eapply Permutation_in; [apply sort_by_perm|exact Hy].
Qed.

Lemma sort_insert_unmatched (x y : string) (r : list string) :
  match_fileNumRegex x = None \/ match_fileNumRegex y = None ->
  exists e, sort_insert compareFileNum x (y :: r) = Throw e.
Proof.
  intros Hxy. simpl. unfold compareFileNum, fileNum.
  destruct (match_fileNumRegex x); [|simpl; eauto].
  destruct Hxy as [Hx|Hy]; [discriminate|].
  rewrite Hy. simpl. eauto.
Qed.

(** With two URLs or more, one URL without an index makes the comparator
    read [length] of [null]: [sort] throws. *)
Lemma Array_sort_unmatched (l : list string) :
  (2 <= length l)%nat ->
  Exists (fun y => match_fileNumRegex y = None) l ->
  exists e, Array_sort compareFileNum l = Throw e.
Proof.
  induction l as [|x r IH]; intros Hlen Hex; [simpl in Hlen; lia|].
  cbn [Array_sort].
  destruct (Array_sort compareFileNum r) as [r'|e] eqn:Hr; cbn [res_bind]; [|eauto].
  destruct (decide (Exists (fun y => match_fileNumRegex y = None) r)) as [Hbad|Hgood].
  - destruct r as [|y [|z r2]]; [inversion Hbad| |].
    + cbn in Hr. injection Hr as <-.
      apply sort_insert_unmatched. right.
      inversion Hbad as [? ? Hy|? ? Hn]; [exact Hy|inversion Hn].
    + destruct IH as [e He]; [simpl; lia|exact Hbad|].
      congruence.
  - inversion Hex as [? ? Hx|? ? Hn]; subst; [|contradiction].
    apply not_Exists_Forall in Hgood; [|intros y; simpl; apply _].
    rewrite (Array_sort_matched r) in Hr
      by (eapply Forall_impl; [exact Hgood|]; auto).
    injection Hr as <-.
    destruct (sort_by _ r) as [|y r2] eqn:Es.
    + pose proof (sort_by_perm (fun a b => fileNumber a <=? fileNumber b) r) as P.
      rewrite Es in P. apply Permutation_nil in P. subst r. simpl in Hlen. lia.
    + apply sort_insert_unmatched. now left.
Qed.

End CatalogFacts.

Section GetStacCatalogsFacts.
Import Logging WorkItemModel Runner.
Context {O : Type} `{ObjectStore O} (env : Env).

(** With a manifest, its entries in their order, each behind the directory *)
Lemma getStacCatalogs_manifest (dir : string) (s3 : O) (names : list json) :
  objectExists (dir +:+ "batch-catalogs.json") s3 = Ok true ->
  getObjectJson (dir +:+ "batch-catalogs.json") s3 = Ok (JArr names) ->
  _getStacCatalogs env dir s3 = Ok (map (fun f => dir +:+ js_String f) names).
Proof.
  intros He Hg. unfold _getStacCatalogs. rewrite He. cbn [res_bind].
  rewrite Hg. reflexivity.
Qed.

(** Without a manifest, and with an index in every catalog URL: the URLs in
    ascending order of their index *)
Lemma getStacCatalogs_sorted (dir : string) (s3 : O) (keys : list string) :
  objectExists (dir +:+ "batch-catalogs.json") s3 = Ok false ->
  listObjectKeys dir s3 = Ok keys ->
  Forall (fun u => match_fileNumRegex u <> None) (catalogUrls env keys) ->
  exists urls,
    _getStacCatalogs env dir s3 = Ok urls /\
    Permutation urls (catalogUrls env keys) /\
    StronglySorted (fun a b => fileNumber a <= fileNumber b) urls.
Proof.
  intros He Hl Hall. unfold _getStacCatalogs. rewrite He. cbn [res_bind].
  rewrite Hl. cbn [res_bind]. fold (catalogUrls env keys).
  rewrite (Array_sort_matched _ Hall).
  eexists. split; [reflexivity|]. split.
  - apply sort_by_perm.
  - apply sort_by_key_sorted.
Qed.

(** Without a manifest, two catalog URLs or more, one of them without an
    index: the call throws. *)
Lemma getStacCatalogs_throws (dir : string) (s3 : O) (keys : list string) :
  objectExists (dir +:+ "batch-catalogs.json") s3 = Ok false ->
  listObjectKeys dir s3 = Ok keys ->
  (2 <= length (catalogUrls env keys))%nat ->
  Exists (fun u => match_fileNumRegex u = None) (catalogUrls env keys) ->
  exists e, _getStacCatalogs env dir s3 = Throw e.
Proof.
  intros He Hl Hlen Hex. unfold _getStacCatalogs. rewrite He. cbn [res_bind].
  rewrite Hl. cbn [res_bind]. fold (catalogUrls env keys).
  now apply Array_sort_unmatched.
Qed.

End GetStacCatalogsFacts.

(** The files [catalog0.json], [catalog10.json], [catalog2.json] (as the store
    lists them) come out in the order 0, 2, 10. *)
Example getStacCatalogs_0_2_10 :
  Runner._getStacCatalogs Fixtures.env0 Fixtures.outputs7 Fixtures.three_catalogs
  = Ok [ "s3://artifacts/job/7/outputs/catalog0.json";
         "s3://artifacts/job/7/outputs/catalog2.json";
         "s3://artifacts/job/7/outputs/catalog10.json" ]%string.
Proof. vm_compute. reflexivity. Qed.

(** C4, at an input where the code departs from it: the output directory holds
    [catalog.json] and [catalog0.json] and no manifest.  Both keys pass
    [/catalog\d*.json$/]; [catalog.json] has no index, its [match] is [null],
    and reading [aMatches.length] throws instead of giving the index 0. *)
Theorem getStacCatalogs_index_missing :
  search_to_end catalogKeyRegex "job/7/outputs/catalog.json" = true /\
  search_to_end fileNumRegex "s3://artifacts/job/7/outputs/catalog.json" = false /\
  match_fileNumRegex "s3://artifacts/job/7/outputs/catalog.json" = None /\
  Runner._getStacCatalogs Fixtures.env0 Fixtures.outputs7
    Fixtures.catalog_without_index
  = Throw (TypeError "Cannot read properties of null (reading 'length')").
Proof. vm_compute. repeat split. Qed.

(** ** The service runner: the log stream *)

Section LogStreamFacts.
Import Logging WorkItemModel Runner.
Context `{JSONBuiltins}.

Lemma lookup_alloc (h : list json) (v : json) : (h ++ [v]) !! length h = Some v.
Proof. now rewrite list_lookup_middle. Qed.

Lemma insert_alloc (h : list json) (v v' : json) :
  <[length h := v']> (h ++ [v]) = h ++ [v'].
Proof.
  rewrite insert_app_r_alt by lia. now rewrite Nat.sub_diag.
Qed.

Lemma delete_prop_absent (p : string) (fs : list (string * json)) :
  get_prop p fs = None -> delete_prop p fs = fs.
Proof.
  induction fs as [|[k v] fs IH]; simpl; [reflexivity|].
  destruct (String.eqb p k); [discriminate|]. intros G. now rewrite IH.
Qed.

Lemma rename_prop_absent (p : string) (fs : list (string * json)) :
  has_prop p fs = false -> rename_prop p (JObj fs) = JObj fs.
Proof.
  unfold has_prop, rename_prop. destruct (get_prop p fs) eqn:G; [discriminate|].
  intros _. now rewrite delete_prop_absent.
Qed.

Lemma renameWorkerField_object (p : string) (h : list json) (fs : list (string * json))
    (la : list nat) (lg : list LogCall) :
  renameWorkerField (length h) p (mkLogStream (h ++ [JObj fs]) la lg)
  = (Ok tt, mkLogStream (h ++ [rename_prop p (JObj fs)]) la lg).
Proof.
  unfold renameWorkerField, bind, deref, lift_res, assign, modify, ret.
  cbn [heap logStrArr streamLogger].
  rewrite lookup_alloc. cbn [in_op].
  destruct (has_prop p fs) eqn:Hp; cbn [heap logStrArr streamLogger].
  - now rewrite insert_alloc.
  - now rewrite rename_prop_absent.
Qed.

Lemma renameWorkerField_primitive (p : string) (h : list json) (v : json)
    (la : list nat) (lg : list LogCall) :
  is_primitive v = true ->
  exists e, instanceof_SyntaxError e = false /\
    renameWorkerField (length h) p (mkLogStream (h ++ [v]) la lg)
    = (Throw e, mkLogStream (h ++ [v]) la lg).
Proof.
  intros Hv.
  unfold renameWorkerField, bind, deref, lift_res.
  cbn [heap logStrArr streamLogger]. rewrite lookup_alloc.
  destruct v; try discriminate; cbn [in_op]; eexists; (split; [|reflexivity]); reflexivity.
Qed.

(** A chunk that is not JSON is kept as it is and logged with the tag. *)
Lemma handleLogString_text (logStr : string) (st : LogStream) :
  JSON_parse logStr = None ->
  _handleLogString logStr st =
    (Ok tt, captured (Some (JStr logStr))
                     (Some (mkLog Debug (JStr logStr) [("worker"%string, JBool true)]))
                     st).
Proof.
  intros Hp.
  unfold _handleLogString, handleLogString_try, try_catch, bind, lift_res,
    JSON_parse_res.
  rewrite Hp. reflexivity.
Qed.

(** A chunk that parses to an object: the entry kept and the record logged
    have [timestamp] and [level] renamed; the record logged has the tag. *)
Lemma handleLogString_object (logStr : string) (st : LogStream)
    (fs : list (string * json)) :
  JSON_parse logStr = Some (JObj fs) ->
  _handleLogString logStr st =
    (Ok tt, captured (Some (JObj (workerFields fs)))
                     (Some (mkLog Debug
                              (JObj (set_prop "worker" (JBool true) (workerFields fs)))
                              []))
                     st).
Proof.
  intros Hp. destruct st as [h la lg].
  unfold _handleLogString, handleLogString_try, try_catch, JSON_parse_res.
  rewrite Hp. cbn [for_of].
  unfold bind at 1. unfold lift_res at 1.
  unfold bind at 1. unfold alloc at 1. cbn [heap logStrArr streamLogger].
  unfold bind at 1. unfold push at 1, modify at 1. cbn [heap logStrArr streamLogger].
  unfold bind at 1. unfold bind at 1.
  rewrite renameWorkerField_object. cbn [rename_prop].
  unfold bind at 1.
  rewrite renameWorkerField_object.
  unfold ret at 1. unfold bind at 1. unfold deref at 1.
  cbn [heap logStrArr streamLogger]. rewrite lookup_alloc.
  unfold streamLogger_debug, modify, captured, workerFields.
  cbn [heap logStrArr streamLogger rename_prop spread_props]. reflexivity.
Qed.

(** A chunk that parses to a number, a string, a boolean or [null]: the parsed
    value is kept, [in] throws a [TypeError] that the [catch] block lets go,
    and nothing is logged. *)
Lemma handleLogString_primitive (logStr : string) (st : LogStream) (v : json) :
  JSON_parse logStr = Some v ->
  is_primitive v = true ->
  _handleLogString logStr st = (Ok tt, captured (Some v) None st).
Proof.
  intros Hp Hv. destruct st as [h la lg].
  unfold _handleLogString, handleLogString_try, try_catch, JSON_parse_res.
  rewrite Hp. cbn [for_of].
  unfold bind at 1. unfold lift_res at 1.
  unfold bind at 1. unfold alloc at 1. cbn [heap logStrArr streamLogger].
  unfold bind at 1. unfold push at 1, modify at 1. cbn [heap logStrArr streamLogger].
  unfold bind at 1. unfold bind at 1.
  destruct (renameWorkerField_primitive "timestamp" h v (la ++ [length h]) lg Hv)
    as (e & He & ->).
  rewrite He. reflexivity.
Qed.
End LogStreamFacts.

(** C8, at an input where the code departs from it: the chunk [42] is JSON.
    The number 42 is pushed on [logStrArr]; then ['timestamp' in 42] throws a
    [TypeError], which the [catch] block ignores: the entry kept is neither a
    record nor the text of the chunk, and the logger is not called, so no
    entry carries the worker tag. *)
Theorem handleLogString_number_chunk :
  Reference.parse "42" = Some (JNum 42) /\
  Runner._handleLogString "42" Runner.new_LogStream =
    (Ok tt, {| Runner.heap := [JNum 42]; Runner.logStrArr := [0%nat];
               Runner.streamLogger := [] |}) /\
  Runner.logStrArr_view (snd (Runner._handleLogString "42" Runner.new_LogStream))
    = [JNum 42].
Proof. vm_compute. repeat split. Qed.


(** ** Polling: the batch path *)

Lemma ceil_div_bounds (b n : Z) :
  0 <= b -> 1 <= n -> 0 <= Math_ceil_div b n <= b.
Proof.
  intros Hb Hn. unfold Math_ceil_div.
  assert (- b <= (- b) / n) by (apply Z.div_le_lower_bound; nia).
  assert ((- b) / n <= 0) by (apply Z.div_le_upper_bound; lia).
  lia.
Qed.

Section ShuffleFacts.
Import Polling.
Context {T : Type} (pick : nat -> nat).

Lemma swap_perm (i j : nat) (l : list T) : Permutation (swap i j l) l.
Proof.
  unfold swap.
  destruct (l !! i) as [ai|] eqn:Hi; [|reflexivity].
  destruct (l !! j) as [aj|] eqn:Hj; [|reflexivity].
  now apply Permutation_insert_swap.
Qed.

Lemma shuffle_from_perm (i : nat) (l : list T) :
  Permutation (shuffle_from pick i l) l.
Proof.
  revert l. induction i as [|i IH]; intros l; simpl; [reflexivity|].
  rewrite IH. apply swap_perm.
Qed.

Lemma shuffleArray_perm (l : list T) : Permutation (shuffleArray pick l) l.
Proof. apply shuffle_from_perm. Qed.

End ShuffleFacts.

Section BatchPathFacts.
Import Logging WorkItemModel Polling.
Context `{JSONBuiltins} `{Config} {D Q : Type} `{WorkItemStore D} `{WorkQueue Q}.
Context (pick : nat -> nat).
Local Abbreviation W := (World D Q).

Lemma pushWorkItem_vars (svc : string) (wi : WorkItem) (w w' : W BatchVars) (r : res unit) :
  pushWorkItem svc wi w = (r, w') ->
  remainingNumOfJobs (vars w') = remainingNumOfJobs (vars w) /\
  remainingBatchSize (vars w') = remainingBatchSize (vars w) /\
  match r with
  | Ok _ => exists x, workItems (vars w') = workItems (vars w) ++ [x] /\ workItem x = wi
  | Throw _ => workItems (vars w') = workItems (vars w)
  end.
Proof.
  unfold pushWorkItem, bind, query, logger, assign, modify.
  destruct (QUERY_CMR_SERVICE_REGEX_test _).
  - destruct (calculateQueryCmrLimit wi (db w)) as [[n d']|e];
      intros [= <- <-]; cbn; eauto.
  - intros [= <- <-]; cbn; eauto.
Qed.

Lemma for_of_push_vars (svc : string) (l : list WorkItem) (w w' : W BatchVars) (r : res unit) :
  for_of l (pushWorkItem svc) w = (r, w') ->
  remainingNumOfJobs (vars w') = remainingNumOfJobs (vars w) /\
  remainingBatchSize (vars w') = remainingBatchSize (vars w) /\
  exists added,
    workItems (vars w') = workItems (vars w) ++ added /\
    match r with
    | Ok _ => map workItem added = l
    | Throw _ => (length added <= length l)%nat
    end.
Proof.
  revert w. induction l as [|wi l IH]; intros w; cbn [for_of].
  - unfold ret. intros [= <- <-]. repeat split. exists []. now rewrite app_nil_r.
  - unfold bind.
    destruct (pushWorkItem svc wi w) as [[[]|e] w1] eqn:E1;
      apply pushWorkItem_vars in E1; destruct E1 as (Hj & Hb & Hw).
    + intros E2. apply IH in E2. destruct E2 as (Hj2 & Hb2 & added & Hw2 & Hr).
      destruct Hw as (x & Hx & Hwi).
      split; [congruence|]. split; [congruence|].
      exists (x :: added). split.
      * rewrite Hw2, Hx, <- app_assoc. reflexivity.
      * destruct r; simpl; [congruence|lia].
    + intros [= <- <-]. repeat split; auto.
      exists []. rewrite app_nil_r. split; [exact Hw|simpl; lia].
Qed.

Lemma processJob_step (svc job : string) (w w' : W BatchVars) :
  processJob svc job w = (Ok tt, w') ->
  exists (fetched : option (list WorkItem)) (d1 : D) (added : list WorkItemData),
    getNextWorkItems svc job (nextWorkSize (vars w)) (db w) = Ok (fetched, d1) /\
    workItems (vars w') = workItems (vars w) ++ added /\
    map workItem added = default [] fetched /\
    remainingNumOfJobs (vars w') = remainingNumOfJobs (vars w) - 1 /\
    remainingBatchSize (vars w')
      = remainingBatchSize (vars w) - Z.of_nat (length (default [] fetched)) /\
    (default [] fetched = [] -> recalculateCounts job d1 = Ok (tt, db w')).
Proof.
  unfold processJob.
  unfold bind at 1. unfold read at 1, gets at 1.
  unfold bind at 1. unfold assign at 1, modify at 1.
  unfold bind at 1. unfold query at 1. cbn [db vars set_vars set_db].
  destruct (getNextWorkItems svc job (nextWorkSize (vars w)) (db w))
    as [[fetched d1]|e] eqn:Ef; [|discriminate].
  unfold bind at 1.
  destruct fetched as [[|first rest]|].
  - (* an empty array *)
    unfold bind, logger, query, assign, modify. cbn.
    destruct (recalculateCounts job d1) as [[[] d2]|e] eqn:Er; [|discriminate].
    intros [= <-]. cbn. exists (Some []), d1, []. rewrite app_nil_r.
    repeat split; auto; lia.
  - unfold bind at 1.
    match goal with |- context [for_of ?l ?f ?s] =>
      destruct (for_of l f s) as [[[]|e] w2] eqn:Efor end.
    + apply for_of_push_vars in Efor. cbn in Efor.
      destruct Efor as (Hj & Hb & added & Hw & Hm).
      unfold query at 1.
      destruct (incrementRunningAndDecrementReadyCounts _ _ _ _) as [[[] d2]|e] eqn:Ei;
        [|discriminate].
      unfold assign, modify. intros [= <-]. cbn.
      exists (Some (first :: rest)), d1, added.
      repeat split; auto; try congruence.
      all: cbn in *; try lia; try discriminate.
    + discriminate.
  - unfold bind, logger, query, assign, modify. cbn.
    destruct (recalculateCounts job d1) as [[[] d2]|e] eqn:Er; [|discriminate].
    intros [= <-]. cbn. exists None, d1, []. rewrite app_nil_r.
    repeat split; auto; lia.
Qed.

Lemma processJob_bound (svc job : string) (w w' : W BatchVars) (r : res unit) :
  fetches_at_most_limit ->
  0 <= remainingBatchSize (vars w) ->
  1 <= remainingNumOfJobs (vars w) ->
  processJob svc job w = (r, w') ->
  match r with
  | Ok _ =>
      numCollected w' + remainingBatchSize (vars w') = numCollected w + remainingBatchSize (vars w) /\
      0 <= remainingBatchSize (vars w') /\
      remainingNumOfJobs (vars w') = remainingNumOfJobs (vars w) - 1
  | Throw _ => numCollected w' <= numCollected w + remainingBatchSize (vars w)
  end.
Proof.
  intros Hfetch Hb Hj.
  assert (0 <= nextWorkSize (vars w) <= remainingBatchSize (vars w)) as Hsize.
  { unfold nextWorkSize. destruct (0 <? _) eqn:C; [|apply Z.ltb_ge in C; lia].
    now apply ceil_div_bounds. }
  unfold processJob.
  unfold bind at 1. unfold read at 1, gets at 1.
  unfold bind at 1. unfold assign at 1, modify at 1.
  unfold bind at 1. unfold query at 1. cbn [db vars set_vars set_db].
  destruct (getNextWorkItems svc job (nextWorkSize (vars w)) (db w))
    as [[fetched d1]|e] eqn:Ef.
  2:{ intros [= <- <-]. unfold numCollected. cbn [vars workItems remainingNumOfJobs remainingBatchSize set_vars set_db db]. lia. }
  unfold bind at 1.
  destruct fetched as [[|first rest]|].
  - unfold bind, logger, query, assign, modify. cbn.
    destruct (recalculateCounts job d1) as [[[] d2]|e] eqn:Er;
      intros [= <- <-]; unfold numCollected; cbn [vars workItems remainingNumOfJobs remainingBatchSize set_vars set_db db]; lia.
  - pose proof (Hfetch _ _ _ _ _ _ Ef) as Hlen.
    unfold bind at 1.
    match goal with |- context [for_of ?l ?f ?s] =>
      destruct (for_of l f s) as [[[]|e] w2] eqn:Efor end;
      apply for_of_push_vars in Efor; unfold set_db, set_vars in Efor;
      cbn [vars workItems remainingNumOfJobs remainingBatchSize db] in Efor;
      destruct Efor as (Hj2 & Hb2 & added & Hw & Hm).
    + apply (f_equal (@length _)) in Hm. rewrite length_map in Hm.
      unfold query at 1.
      destruct (incrementRunningAndDecrementReadyCounts _ _ _ _) as [[[] d2]|e] eqn:Ei.
      * unfold assign, modify. intros [= <- <-]. unfold numCollected. cbn [vars workItems remainingNumOfJobs remainingBatchSize set_vars set_db db].
        rewrite Hw, Hj2, Hb2, length_app. cbn [length] in *. lia.
      * intros [= <- <-]. unfold numCollected. cbn [vars workItems remainingNumOfJobs remainingBatchSize set_vars set_db db].
        rewrite Hw, length_app. cbn [length] in *. lia.
    + intros [= <- <-]. unfold numCollected.
      rewrite Hw, length_app. cbn [length] in *. lia.
  - unfold bind, logger, query, assign, modify. cbn.
    destruct (recalculateCounts job d1) as [[[] d2]|e] eqn:Er;
      intros [= <- <-]; unfold numCollected; cbn [vars workItems remainingNumOfJobs remainingBatchSize set_vars set_db db]; lia.
Qed.

Lemma jobs_loop_bound (svc : string) (jobs : list string) (w w' : W BatchVars)
    (r : res unit) :
  fetches_at_most_limit ->
  0 <= remainingBatchSize (vars w) ->
  remainingNumOfJobs (vars w) = Z.of_nat (length jobs) ->
  for_of jobs (fun jobId => transaction (processJob svc jobId)) w = (r, w') ->
  numCollected w' <= numCollected w + remainingBatchSize (vars w).
Proof.
  intros Hfetch. revert w. induction jobs as [|job jobs IH]; intros w Hb Hj; cbn [for_of].
  - unfold ret. intros [= <- <-]. lia.
  - unfold bind, transaction.
    destruct (processJob svc job w) as [[[]|e] w1] eqn:E;
      apply processJob_bound in E; auto; try (cbn [length] in Hj; lia).
    + destruct E as (Hc & Hb1 & Hj1). intros E2.
      apply IH in E2; [lia|exact Hb1|]. rewrite Hj1, Hj. cbn [length]. lia.
    + intros [= <- <-]. unfold numCollected in *. cbn [vars set_db]. exact E.
Qed.

Lemma batch_within_batchSize (svc : string) (batchSize : Z) (w : W unit) :
  fetches_at_most_limit ->
  0 <= batchSize ->
  exists (items : list WorkItemData) (w' : W unit),
    getWorkItemsFromDatabase pick svc batchSize w = (Ok items, w') /\
    Z.of_nat (length items) <= batchSize.
Proof.
  intros Hfetch Hb.
  unfold getWorkItemsFromDatabase, with_vars.
  unfold bind at 1. unfold try_catch.
  unfold bind at 1. unfold query at 1. cbn [db set_vars].
  destruct (getNextJobIds svc batchSize (db w)) as [[jobIds d1]|e] eqn:Ej.
  - unfold bind at 1. unfold assign at 1, modify at 1.
    match goal with |- context [for_of ?l ?f ?s] =>
      destruct (for_of l f s) as [r w2] eqn:Eloop end.
    apply jobs_loop_bound in Eloop;
      [ | exact Hfetch
        | unfold set_db, set_vars; cbn [vars remainingBatchSize]; exact Hb
        | unfold set_db, set_vars; cbn [vars remainingNumOfJobs];
          now rewrite (Permutation_length (shuffleArray_perm pick jobIds)) ].
    unfold numCollected in Eloop. unfold set_db, set_vars in Eloop.
    cbn [vars workItems remainingBatchSize length] in Eloop.
    destruct r as [[]|e]; unfold gets, logger, modify;
      cbn [vars set_vars workItems];
      do 2 eexists; (split; [reflexivity|]); lia.
  - unfold gets, logger, modify. cbn. do 2 eexists. split; [reflexivity|]. cbn. lia.
Qed.



End BatchPathFacts.

Lemma claim_length (svc job : string) (n : nat) (l : list WorkItemModel.WorkItem) :
  (length (fst (Reference.claim svc job n l)) <= n)%nat.
Proof.
  revert n. induction l as [|x l IH]; intros [|n]; simpl; try lia.
  destruct (Reference.is_ready svc job x).
  - specialize (IH n). destruct (Reference.claim svc job n l). simpl in *. lia.
  - specialize (IH (S n)). destruct (Reference.claim svc job (S n) l). simpl in *. lia.
Qed.

Lemma memStore_fetches_at_most_limit :
  @Polling.fetches_at_most_limit Reference.MemDb Reference.memStore.
Proof.
  intros svc job limit d d' l. simpl. unfold Reference.statement.
  pose proof (claim_length svc job (Z.to_nat limit)) as Hc.
  destruct (Reference.outage d) as [[|n]|]; [discriminate| |];
    match goal with |- context [Reference.claim ?a ?b ?c ?x] =>
      specialize (Hc x); destruct (Reference.claim a b c x) end;
    intros [= <- _]; simpl in Hc; lia.
Qed.


(** The run of the witness: job [a] first gets ceil(4/3) = 2 and gives 1,
    [b] gets ceil(3/2) = 2 and gives 1, [c] gets ceil(2/1) = 2 and gives 2
    (the shuffle with all draws 0 puts [a] last). *)
Example batch_of_four :
  fst (Polling.getWorkItemsFromDatabase (fun _ => O) "svc" 4
         (Fixtures.poller Fixtures.three_jobs []))
  = Ok (map (fun w => Polling.mkData w None)
            [ Fixtures.item 2 "b" WorkItemModel.READY;
              Fixtures.item 3 "c" WorkItemModel.READY;
              Fixtures.item 4 "c" WorkItemModel.READY;
              Fixtures.item 1 "a" WorkItemModel.READY ]).
Proof. vm_compute. reflexivity. Qed.


(** ** Polling: one work item from the database *)

Section SingleItemFacts.
Import Logging WorkItemModel Polling.
Context `{Config} {D Q : Type} `{WorkItemStore D}.
Local Abbreviation W := (World D Q).

Lemma truthy_string_Some (s : string) : s <> ""%string -> truthy_string (Some s) = Some s.
Proof.
  intros Hs. unfold truthy_string. destruct (String.eqb_spec s ""); congruence.
Qed.

(** A transaction callback that throws has not assigned [result]; it touches
    neither the queues nor, once undone, the database. *)
Lemma getWorkFromDatabase_tx_throws (svc : string) (w0 w1 : W (option WorkItemData))
    (err : exn) :
  getWorkFromDatabase_tx svc w0 = (Throw err, w1) ->
  vars w1 = vars w0 /\ queues w1 = queues w0 /\ schedulerQueue w1 = schedulerQueue w0.
Proof.
  unfold getWorkFromDatabase_tx, bind, query, logger, assign, modify, ret.
  repeat (match goal with
          | |- context [match ?x with _ => _ end] =>
              lazymatch x with
              | context [match _ with _ => _ end] => fail
              | _ => destruct x eqn:?
              end
          end; cbn [db vars queues schedulerQueue set_db set_vars reqLogger]);
    intros [= <- <-] || discriminate; cbn; auto.
Qed.

Lemma getWorkFromDatabase_total (svc : string) (w : W unit) :
  exists (r : option WorkItemData) (w' : W unit),
    getWorkFromDatabase svc w = (Ok r, w').
Proof.
  unfold getWorkFromDatabase, with_vars, bind, try_catch, transaction, read, gets,
    logger, modify.
  destruct (getWorkFromDatabase_tx svc _) as [[[]|e] w1]; cbn; eauto.
Qed.

Lemma getWorkFromDatabase_error (svc : string) (w : W unit)
    (w1 : W (option WorkItemData)) (err : exn) :
  getWorkFromDatabase_tx svc (set_vars None w) = (Throw err, w1) ->
  getWorkFromDatabase svc w =
    (Ok None,
     mkWorld (db w) (queues w) (schedulerQueue w)
       (say LError ("Error getting work from database: " +:+ message err)
            (reqLogger w1)) tt).
Proof.
  intros Htx.
  destruct (getWorkFromDatabase_tx_throws svc _ _ _ Htx) as (Hv & Hq & Hs).
  unfold getWorkFromDatabase, with_vars, bind, try_catch, transaction, read, gets,
    logger, modify.
  rewrite Htx. cbn. rewrite Hv, Hq, Hs. reflexivity.
Qed.

Lemma getWorkFromDatabase_desync (svc : string) (w : W unit)
    (user job : string) (d1 d2 d3 d4 : D) :
  getNextUsernameForWork svc (db w) = Ok (Some user, d1) -> user <> ""%string ->
  getNextJobIdForUsernameAndService svc user d1 = Ok (Some job, d2) -> job <> ""%string ->
  getNextWorkItem svc job d2 = Ok (None, d3) ->
  recalculateCounts job d3 = Ok (tt, d4) ->
  getWorkFromDatabase svc w =
    (Ok None,
     mkWorld d4 (queues w) (schedulerQueue w)
       (say Warn ("recalculating ready and running counts for job " +:+ job)
          (say Warn ("user_work is out of sync for user " +:+ user +:+ " and job "
                     +:+ job +:+ ", could not find ready work item")
               (reqLogger w))) tt).
Proof.
  intros Hu Hun Hj Hjn Hi Hr.
  unfold getWorkFromDatabase, with_vars, bind, try_catch, transaction, read, gets.
  unfold getWorkFromDatabase_tx, bind, query, logger, modify.
  cbn [db set_vars set_db vars queues schedulerQueue reqLogger].
  rewrite Hu. cbn [db set_vars set_db vars queues schedulerQueue reqLogger].
  rewrite (truthy_string_Some user Hun).
  cbn [db set_vars set_db vars queues schedulerQueue reqLogger].
  rewrite Hj. cbn [db set_vars set_db vars queues schedulerQueue reqLogger].
  rewrite (truthy_string_Some job Hjn).
  cbn [db set_vars set_db vars queues schedulerQueue reqLogger].
  rewrite Hi. cbn [db set_vars set_db vars queues schedulerQueue reqLogger].
  rewrite Hr. reflexivity.
Qed.


End SingleItemFacts.



(** ** Polling: one work item from the queue *)

Section QueueFacts.
Import Logging WorkItemModel Polling.
Context `{JSONBuiltins} `{Config} {D Q : Type} `{WorkItemStore D} `{WorkQueue Q}.
Context (processSchedulerQueue : Eff (World D Q unit) unit).
Local Abbreviation W := (World D Q).

(** The transaction callback touches the database and the logger only. *)
Lemma takeQueueItem_tx_frame (item : json) (w w' : W unit) (r : res unit) :
  takeQueueItem_tx item w = (r, w') ->
  queues w' = queues w /\ schedulerQueue w' = schedulerQueue w.
Proof.
  unfold takeQueueItem_tx, bind, lift_res, query, logger, modify.
  destruct (workItem_id item) as [i|e]; [|intros [= <- <-]; auto].
  destruct (getWorkItemStatus i (db w)) as [[st d1]|e]; [|intros [= <- <-]; auto].
  destruct (bool_decide _); cbn [db set_db].
  - intros [= <- <-]; auto.
  - destruct (updateWorkItemStatuses _ _ _) as [[[] d2]|e]; intros [= <- <-]; auto.
Qed.

(** From a deleted message on: what [takeQueueItem] does is the transaction
    on the world left by the deletion. *)
Lemma takeQueueItem_deleted (svc : string) (m : QueueMessage) (q q' : Q)
    (item : json) (w : W unit) :
  queues w !! getQueueUrlForService svc = Some q ->
  deleteMessage (receipt m) q = Ok (tt, q') ->
  JSON_parse (body m) = Some item ->
  takeQueueItem svc (Some m) w =
    match takeQueueItem_tx item (afterDelete (getQueueUrlForService svc) m q' w) with
    | (Ok _, w2) => (Ok (Some item), w2)
    | (Throw err, w2) =>
        (Ok None,
         mkWorld (db w) (queues w2) (schedulerQueue w2)
           (say LError ("Error updating work item status to running: "
                        +:+ message err) (reqLogger w2)) tt)
    end.
Proof.
  intros Hq Hd Hp. destruct w as [d0 qs0 s0 l0 []]. cbn [queues] in Hq.
  unfold takeQueueItem, JSON_parse_res, afterDelete.
  unfold bind at 1. unfold logger at 1, modify at 1.
  unfold bind at 1. unfold on_queue at 1. cbn [queues]. rewrite Hq, Hd.
  unfold bind at 1. unfold logger at 1, modify at 1.
  cbn [db queues schedulerQueue reqLogger vars].
  rewrite Hp. unfold bind at 1. unfold lift_res at 1.
  unfold try_catch, bind, transaction, ret, logger, modify.
  destruct (takeQueueItem_tx item _) as [[[]|err] w2] eqn:Etx; [reflexivity|].
  cbn [db set_db queues schedulerQueue reqLogger vars afterDelete].
  destruct w2 as [d2 qs2 s2 l2 []]. reflexivity.
Qed.

Lemma getWorkFromQueue_dequeued (svc : string) (w w1 : W unit) (m : QueueMessage) :
  pollQueue processSchedulerQueue svc w = (Ok (Some m), w1) ->
  getWorkFromQueue processSchedulerQueue svc w = takeQueueItem svc (Some m) w1.
Proof.
  intros Hpoll. unfold getWorkFromQueue, bind. now rewrite Hpoll.
Qed.

(** A dequeued item that is not canceled is set to RUNNING and returned; the
    message is gone from the queue before the status is read. *)
Lemma takeQueueItem_running (svc : string) (m : QueueMessage) (q q' : Q)
    (item : json) (w : W unit) (i : Z) (st : option WorkItemStatus) (d1 d2 : D) :
  queues w !! getQueueUrlForService svc = Some q ->
  deleteMessage (receipt m) q = Ok (tt, q') ->
  JSON_parse (body m) = Some item ->
  workItem_id item = Ok i ->
  getWorkItemStatus i (db w) = Ok (st, d1) ->
  st <> Some CANCELED ->
  updateWorkItemStatuses [i] RUNNING d1 = Ok (tt, d2) ->
  takeQueueItem svc (Some m) w =
    (Ok (Some item), set_db d2 (afterDelete (getQueueUrlForService svc) m q' w)).
Proof.
  intros Hq Hd Hp Hi Hs Hne Hu.
  rewrite (takeQueueItem_deleted svc m q q' item w Hq Hd Hp).
  unfold takeQueueItem_tx, bind, lift_res, query, afterDelete.
  rewrite Hi. cbn [db]. rewrite Hs.
  rewrite bool_decide_eq_false_2 by exact Hne.
  cbn [db set_db]. rewrite Hu. reflexivity.
Qed.

(** A dequeued item that is canceled: the skip is logged, the status is left
    as it is, and the item is returned all the same. *)
Lemma takeQueueItem_canceled (svc : string) (m : QueueMessage) (q q' : Q)
    (item : json) (w : W unit) (i : Z) (d1 : D) :
  queues w !! getQueueUrlForService svc = Some q ->
  deleteMessage (receipt m) q = Ok (tt, q') ->
  JSON_parse (body m) = Some item ->
  workItem_id item = Ok i ->
  getWorkItemStatus i (db w) = Ok (Some CANCELED, d1) ->
  takeQueueItem svc (Some m) w =
    (Ok (Some item),
     snd (logger Debug ("Work item " +:+ pretty i +:+ " was canceled, skipping")
            (set_db d1 (afterDelete (getQueueUrlForService svc) m q' w)))).
Proof.
  intros Hq Hd Hp Hi Hs.
  rewrite (takeQueueItem_deleted svc m q q' item w Hq Hd Hp).
  unfold takeQueueItem_tx, bind, lift_res, query, afterDelete.
  rewrite Hi. cbn [db]. rewrite Hs.
  rewrite bool_decide_eq_true_2 by reflexivity. reflexivity.
Qed.

(** C10: when the transaction that reads the status of a dequeued item and
    sets it to RUNNING throws, [getWorkFromQueue] logs the error and returns
    [null]; the message is deleted from its queue and nothing is sent to any
    queue, and the database is as it was when the message was received. *)
Theorem getWorkFromQueue_lost_item (svc : string) (w w1 w2 : W unit)
    (m : QueueMessage) (q q' : Q) (item : json) (err : exn) :
  pollQueue processSchedulerQueue svc w = (Ok (Some m), w1) ->
  queues w1 !! getQueueUrlForService svc = Some q ->
  deleteMessage (receipt m) q = Ok (tt, q') ->
  JSON_parse (body m) = Some item ->
  takeQueueItem_tx item (afterDelete (getQueueUrlForService svc) m q' w1)
    = (Throw err, w2) ->
  getWorkFromQueue processSchedulerQueue svc w =
    (Ok None,
     mkWorld (db w1) (<[getQueueUrlForService svc := q']> (queues w1))
       (schedulerQueue w1)
       (say LError ("Error updating work item status to running: " +:+ message err)
            (reqLogger w2))
       tt).
Proof.
  intros Hpoll Hq Hd Hp Htx.
  rewrite (getWorkFromQueue_dequeued svc w w1 m Hpoll).
  rewrite (takeQueueItem_deleted svc m q q' item w1 Hq Hd Hp).
  rewrite Htx.
  destruct (takeQueueItem_tx_frame _ _ _ _ Htx) as [-> ->].
  reflexivity.
Qed.

End QueueFacts.

Lemma getWorkFromQueue_lost_item_witness :
  fst (Polling.getWorkFromQueue (ret tt) "svc"
         (Fixtures.poller (Fixtures.failing_after 0 Fixtures.three_jobs)
                          [Fixtures.message7]))
    = Ok None /\
  Polling.queues
    (snd (Polling.getWorkFromQueue (ret tt) "svc"
            (Fixtures.poller (Fixtures.failing_after 0 Fixtures.three_jobs)
                             [Fixtures.message7])))
    !! "https://queue/svc"%string
    = Some (Reference.mkMemQueue [] [] 0).
Proof.
  erewrite (getWorkFromQueue_lost_item (ret tt) "svc" _ _ _ Fixtures.message7);
    cycle 1.
  - vm_compute; reflexivity.
  - vm_compute; reflexivity.
  - vm_compute; reflexivity.
  - vm_compute; reflexivity.
  - vm_compute; reflexivity.
  - split; reflexivity.
Defined.

(** C1, at an input where the code departs from it: item 7 is CANCELED in the
    store and its dispatch message waits on the queue.  The message is
    deleted, the status is read, the skip is logged; the [return null] leaves
    the transaction callback only, and [getWorkFromQueue] goes on to
    [return item]: the canceled item is handed to the caller. *)
Theorem getWorkFromQueue_canceled_item :
  Polling.getWorkItemStatus 7 Fixtures.three_jobs
    = Ok (Some WorkItemModel.CANCELED, Fixtures.three_jobs) /\
  fst (Polling.getWorkFromQueue (ret tt) "svc"
         (Fixtures.poller Fixtures.three_jobs [Fixtures.message7]))
    = Ok (Some (Reference.json_of_WorkItemData
                  (Polling.mkData (Fixtures.item 7 "c" WorkItemModel.READY) None))) /\
  last (Polling.reqLogger
          (snd (Polling.getWorkFromQueue (ret tt) "svc"
                  (Fixtures.poller Fixtures.three_jobs [Fixtures.message7]))))
    = Some (Logging.mkLog Logging.Debug (JStr "Work item 7 was canceled, skipping") []).
Proof. vm_compute. repeat split. Qed.

(** ** The service runner: [runServiceFromPull] *)

Section ExecFacts.
Import Logging WorkItemModel Runner.
Context `{JSONBuiltins} `{Locations} {O : Type} `{ObjectStore O}.
Context (env : Env) (workItem : WorkItem).
Local Abbreviation Run := (@Run O).

Lemma settled_resolve (r r' : ServiceResponse) (s : Run) :
  settled s = Some r -> settled (resolve r' s) = Some r.
Proof. unfold resolve. intros Hs. now rewrite Hs. Qed.

Lemma resolve_settles (r : ServiceResponse) (s : Run) :
  settled (resolve r s) = Some (default r (settled s)).
Proof. unfold resolve. destruct (settled s) eqn:E; [exact E|reflexivity]. Qed.

Lemma settled_logging (l : Level) (x : string) (s : Run) :
  settled (logging l x s) = settled s.
Proof. reflexivity. Qed.

Lemma settled_fire (s : Run) (r : ServiceResponse) :
  settled s = Some r -> settled (fire env s) = Some r.
Proof.
  unfold fire. intros Hs. destruct (timeout s); auto.
  now apply settled_resolve.
Qed.

Lemma settled_resume (k : Suspended) (s : Run) (r : ServiceResponse) :
  settled s = Some r -> settled (resume env workItem k s) = Some r.
Proof.
  intros Hs. unfold resume, status_catch.
  destruct k as [st [[]|e]|[catalogs|e]|[logErr|e]];
    try (now apply settled_resolve).
  destruct (bool_decide _); [exact Hs|].
  destruct (_getErrorMessage _ _ _). exact Hs.
Qed.

Lemma settled_handle (ev : Event) (s : Run) (r : ServiceResponse) :
  settled s = Some r -> settled (handle env workItem ev s) = Some r.
Proof.
  intros Hs. destruct ev as [chunk|st|n|e]; cbn [handle].
  - exact Hs.
  - unfold on_status. destruct (uploadLogs _ _ _). exact Hs.
  - destruct (awaiting s !! n); [|exact Hs]. now apply settled_resume.
  - unfold on_rejected. now apply settled_resolve.
Qed.

Lemma settled_step (s : Run) (te : Z * Event) (r : ServiceResponse) :
  settled s = Some r -> settled (step env workItem s te) = Some r.
Proof.
  intros Hs. unfold step, tick. apply settled_handle.
  destruct (_ <=? _); [now apply settled_fire|exact Hs].
Qed.

Lemma settled_run_events (evs : list (Z * Event)) (s : Run) (r : ServiceResponse) :
  settled s = Some r -> settled (run_events env workItem evs s) = Some r.
Proof.
  revert s. induction evs as [|te evs IH]; intros s Hs; [exact Hs|].
  apply IH. now apply settled_step.
Qed.

(** *** Shape of the settled value *)

Lemma one_outcome_error (msg : string) : one_outcome (response_error msg).
Proof. right. split; [reflexivity|discriminate]. Qed.

Lemma one_outcome_catalogs (l : list string) : one_outcome (response_catalogs l).
Proof. left. split; [discriminate|reflexivity]. Qed.

Lemma shaped_resolve (r : ServiceResponse) (s : Run) :
  one_outcome r -> shaped s -> shaped (resolve r s).
Proof.
  intros Hr Hs r'. rewrite resolve_settles.
  destruct (settled s) as [r0|] eqn:E; cbn [default]; intros [= <-]; auto.
Qed.

Lemma shaped_same (s s' : Run) : settled s' = settled s -> shaped s -> shaped s'.
Proof. unfold shaped. intros ->. auto. Qed.

Lemma shaped_fire (s : Run) : shaped s -> shaped (fire env s).
Proof.
  unfold fire. intros Hs. destruct (timeout s); auto.
  apply shaped_resolve; [apply one_outcome_error|].
  eapply shaped_same; [|exact Hs]. reflexivity.
Qed.

Lemma shaped_resume (k : Suspended) (s : Run) :
  shaped s -> shaped (resume env workItem k s).
Proof.
  intros Hs. unfold resume, status_catch.
  destruct k as [st [[]|e]|[catalogs|e]|[logErr|e]];
    try (apply shaped_resolve;
         [apply one_outcome_error || apply one_outcome_catalogs
         |eapply shaped_same; [|exact Hs]; reflexivity]).
  destruct (bool_decide _); [eapply shaped_same; [|exact Hs]; reflexivity|].
  destruct (_getErrorMessage _ _ _). eapply shaped_same; [|exact Hs]; reflexivity.
Qed.

Lemma shaped_handle (ev : Event) (s : Run) :
  shaped s -> shaped (handle env workItem ev s).
Proof.
  intros Hs. destruct ev as [chunk|st|n|e]; cbn [handle].
  - eapply shaped_same; [|exact Hs]; reflexivity.
  - unfold on_status. destruct (uploadLogs _ _ _).
    eapply shaped_same; [|exact Hs]; reflexivity.
  - destruct (awaiting s !! n); [|exact Hs]. apply shaped_resume.
    eapply shaped_same; [|exact Hs]; reflexivity.
  - unfold on_rejected. apply shaped_resolve; [apply one_outcome_error|].
    eapply shaped_same; [|exact Hs]; reflexivity.
Qed.

Lemma shaped_run_events (evs : list (Z * Event)) (s : Run) :
  shaped s -> shaped (run_events env workItem evs s).
Proof.
  revert s. induction evs as [|te evs IH]; intros s Hs; [exact Hs|].
  apply IH. unfold step, tick. apply shaped_handle.
  destruct (_ <=? _); [now apply shaped_fire|exact Hs].
Qed.

(** *** The promise settles *)

Lemma live_settled (s : Run) (r : ServiceResponse) : settled s = Some r -> live s.
Proof. unfold live. congruence. Qed.

Lemma live_resolve (r : ServiceResponse) (s : Run) : live (resolve r s).
Proof. eapply live_settled. apply resolve_settles. Qed.

Lemma live_fire (s : Run) : live s -> live (fire env s).
Proof.
  unfold fire. intros Hs. destruct (timeout s) eqn:E; auto.
  apply live_resolve.
Qed.

Lemma live_resume (k : Suspended) (s : Run) : live (resume env workItem k s).
Proof.
  unfold resume, status_catch.
  destruct k as [st [[]|e]|[catalogs|e]|[logErr|e]]; try apply live_resolve.
  destruct (bool_decide _).
  - intros _. right. cbn [awaiting suspend]. apply Exists_app. right.
    constructor. reflexivity.
  - destruct (_getErrorMessage _ _ _) as [r w]. intros _. right.
    cbn [awaiting suspend]. apply Exists_app. right. constructor. reflexivity.
Qed.

Lemma live_handle (ev : Event) (s : Run) :
  live s -> live (handle env workItem ev s).
Proof.
  intros Hs. destruct ev as [chunk|st|n|e]; cbn [handle].
  - exact Hs.
  - unfold on_status. destruct (uploadLogs _ _ _) as [r w].
    intros Hn. destruct (Hs Hn) as [Ha|He]; [now left|right].
    cbn [awaiting suspend with_world logging]. apply Exists_app. now left.
  - destruct (awaiting s !! n); [apply live_resume|exact Hs].
  - unfold on_rejected. apply live_resolve.
Qed.

Lemma live_run_events (evs : list (Z * Event)) (s : Run) :
  live s -> live (run_events env workItem evs s).
Proof.
  revert s. induction evs as [|te evs IH]; intros s Hs; [exact Hs|].
  apply IH. unfold step, tick. apply live_handle.
  destruct (_ <=? _); [now apply live_fire|exact Hs].
Qed.

Lemma runServiceFromPull_settles (w : World O) (evs : list (Z * Event)) :
  awaiting (run_events env workItem evs (start env workItem w)) = [] ->
  exists r, runServiceFromPull env workItem w evs = Some r /\ one_outcome r.
Proof.
  intros Hno. unfold runServiceFromPull.
  set (s := run_events env workItem evs (start env workItem w)) in *.
  assert (shaped (fire env s)) as Hshape.
  { apply shaped_fire, shaped_run_events. intros r. discriminate. }
  assert (live s) as Hlive.
  { apply live_run_events. intros _. now left. }
  destruct (settled (fire env s)) as [r|] eqn:E; [eauto|].
  exfalso. unfold fire in E.
  destruct (timeout s) eqn:Et.
  - rewrite resolve_settles in E. discriminate.
  - destruct (Hlive E) as [Ha|He]; [congruence|].
    rewrite Hno in He. inversion He.
  - destruct (Hlive E) as [Ha|He]; [congruence|].
    rewrite Hno in He. inversion He.
Qed.

(** *** The timer *)

Lemma fire_quiet (s : Run) :
  quiet s -> settled (fire env s) = Some (response_error (timedOut env)).
Proof.
  intros (Hs & Ht & _). unfold fire. rewrite Ht, resolve_settles.
  cbn [settled]. now rewrite Hs.
Qed.

Lemma run_events_timeout (evs : list (Z * Event)) (s : Run) :
  (forall t ev, In (t, ev) evs -> signals_completion ev = true ->
                workerTimeout env <= t) ->
  quiet s \/ settled s = Some (response_error (timedOut env)) ->
  quiet (run_events env workItem evs s) \/
  settled (run_events env workItem evs s) = Some (response_error (timedOut env)).
Proof.
  revert s. induction evs as [|[t ev] evs IH]; intros s Hevs Hs; [exact Hs|].
  cbn [run_events fold_left]. apply IH.
  { intros t' ev' Hin. apply Hevs. now right. }
  destruct Hs as [Hq|Hs]; [|right; now apply settled_step].
  unfold step, tick. cbn [fst snd].
  destruct (workerTimeout env <=? t) eqn:C.
  - right. apply settled_handle. now apply fire_quiet.
  - apply Z.leb_gt in C.
    destruct ev as [chunk|st|n|e]; cbn [handle].
    + left. exact Hq.
    + specialize (Hevs t (ExecStatus st) (or_introl eq_refl) eq_refl). lia.
    + left. destruct Hq as (Hs & Ht & Ha). rewrite Ha.
      rewrite lookup_nil. repeat split; assumption.
    + specialize (Hevs t (ExecRejected e) (or_introl eq_refl) eq_refl). lia.
Qed.

Lemma runServiceFromPull_timeout (w : World O) (evs : list (Z * Event)) :
  (forall t ev, In (t, ev) evs -> signals_completion ev = true ->
                workerTimeout env <= t) ->
  runServiceFromPull env workItem w evs = Some (response_error (timedOut env)).
Proof.
  intros Hevs. unfold runServiceFromPull.
  destruct (run_events_timeout evs (start env workItem w) Hevs) as [Hq|Hs].
  - left. repeat split.
  - now apply fire_quiet.
  - now apply settled_fire.
Qed.


End ExecFacts.


(** A worker that finishes in time: the catalogs, in the order of their
    indices; the timer is cleared and settles nothing. *)
Example runServiceFromPull_in_time :
  Runner.runServiceFromPull Fixtures.env0 Fixtures.item7
    (Runner.mkWorld Fixtures.three_catalogs []) Fixtures.timely_run
  = Some (Runner.response_catalogs
            [ "s3://artifacts/job/7/outputs/catalog0.json";
              "s3://artifacts/job/7/outputs/catalog2.json";
              "s3://artifacts/job/7/outputs/catalog10.json" ]%string).
Proof. vm_compute. reflexivity. Qed.
(** ** The service runner: [runQueryCmrFromPull] *)

Section QueryCmrFacts.
Import Logging WorkItemModel Runner QueryCmr.
Context `{JSONBuiltins} `{Locations} {O : Type} `{ObjectStore O}.
Context (env : Env) (workerPort : Z) (axios_post : WorkRequest -> PostResult).

Local Abbreviation pull := (runQueryCmrFromPull env workerPort axios_post).

Lemma pull_rejected (workItem : WorkItem) (n : option Z) (w : World O)
    (e : exn) (r : option HttpResponse) :
  axios_post (workRequest env workerPort workItem n) = Rejected e r ->
  pull workItem n w =
    (Ok (after_try r),
     mkWorld (store w)
       (say LError (exn_toString e)
          (say Debug ("CALLING WORKER with maxCmrGranules = " +:+ template_number n)
               (logged w)))).
Proof.
  intros E. unfold runQueryCmrFromPull, bind, log, modify, ret. cbn.
  rewrite E. reflexivity.
Qed.

Lemma pull_page (workItem : WorkItem) (n : option Z) (w : World O)
    (r : HttpResponse) (catalogs : list string) (fs : list (string * json)) :
  axios_post (workRequest env workerPort workItem n) = Responded r ->
  below_300 r = true ->
  _getStacCatalogs env (getStacLocation workItem) (store w) = Ok catalogs ->
  data r = Some (JObj fs) ->
  pull workItem n w =
    (Ok (Page catalogs (get_prop "totalItemsSize" fs) (get_prop "outputItemSizes" fs)
              (get_prop "scrollID" fs)),
     mkWorld (store w)
       (say Debug ("CALLING WORKER with maxCmrGranules = " +:+ template_number n)
            (logged w))).
Proof.
  intros E H300 Hc Hd.
  unfold runQueryCmrFromPull, bind, log, modify, ret, try_catch, on_store, lift_res. cbn.
  rewrite E, H300. cbn. rewrite Hc, Hd. reflexivity.
Qed.

Lemma pull_unreadable (workItem : WorkItem) (n : option Z) (w : World O)
    (r : HttpResponse) (e : exn) :
  axios_post (workRequest env workerPort workItem n) = Responded r ->
  below_300 r = true ->
  _getStacCatalogs env (getStacLocation workItem) (store w) = Throw e ->
  pull workItem n w =
    (Ok (after_try (Some r)),
     mkWorld (store w)
       (say LError (exn_toString e)
          (say Debug ("CALLING WORKER with maxCmrGranules = " +:+ template_number n)
               (logged w)))).
Proof.
  intros E H300 Hc.
  unfold runQueryCmrFromPull, bind, log, modify, ret, try_catch, on_store, lift_res. cbn.
  rewrite E, H300. cbn. rewrite Hc. reflexivity.
Qed.

(** X9: [runQueryCmrFromPull] never throws, whatever the HTTP client and the
    object store do, and it leaves the object store as it was. *)
Theorem runQueryCmrFromPull_total (workItem : WorkItem) (n : option Z) (w : World O) :
  exists (r : CmrResponse) (w' : World O),
    pull workItem n w = (Ok r, w') /\ store w' = store w.
Proof.
  unfold runQueryCmrFromPull, bind, log, modify, ret, try_catch, on_store, lift_res. cbn.
  destruct (axios_post _) as [r|e r]; [|eauto].
  destruct (below_300 r); [|eauto]. cbn.
  destruct (_getStacCatalogs _ _ _); [|eauto].
  destruct (properties (data r)); eauto.
Qed.

Lemma after_try_described (r : HttpResponse) (d : json) :
  description (Some r) = Some d -> truthy (Some d) = true ->
  after_try (Some r) = Failed d.
Proof.
  intros Hd Ht. unfold after_try. rewrite Hd, Ht. cbn zeta. now rewrite Ht.
Qed.

Lemma after_try_status (r : HttpResponse) (t : string) :
  truthy (description (Some r)) = false ->
  statusText r = Some t -> t <> ""%string ->
  after_try (Some r) =
    Failed (JStr ("The Query CMR service responded with status " +:+ t +:+ ".")).
Proof.
  intros Hd Ht Hne. unfold after_try.
  assert (Hnone : match description (Some r) with
                  | Some d => if truthy (Some d) then d else JStr ""
                  | None => JStr ""
                  end = JStr "").
  { destruct (description (Some r)) as [d|]; [|reflexivity]. now rewrite Hd. }
  rewrite Hnone, Ht. cbn [negb truthy andb].
  assert (Et : String.eqb t "" = false) by now apply String.eqb_neq.
  assert (Hs : truthy (JStr <$> Some t) = true).
  { cbn. destruct t; [congruence|reflexivity]. }
  rewrite Hs, orb_true_r. unfold or_text. now rewrite Et.
Qed.

(** X10: the error of a failed pull.  Without a response (the request timed
    out or never reached the worker) the error is the empty text; with a
    response, it is the [description] of its data when that is truthy, and
    otherwise names the status text.  A response below 300 whose catalogs
    cannot be read ends the same way: the error names its status text. *)
Theorem runQueryCmrFromPull_error (workItem : WorkItem) (n : option Z) (w : World O) :
  (forall e : exn,
     axios_post (workRequest env workerPort workItem n) = Rejected e None ->
     fst (pull workItem n w) = Ok (Failed (JStr ""))) /\
  (forall (e : exn) (r : HttpResponse) (d : json),
     axios_post (workRequest env workerPort workItem n) = Rejected e (Some r) ->
     description (Some r) = Some d -> truthy (Some d) = true ->
     fst (pull workItem n w) = Ok (Failed d)) /\
  (forall (e : exn) (r : HttpResponse) (t : string),
     axios_post (workRequest env workerPort workItem n) = Rejected e (Some r) ->
     truthy (description (Some r)) = false ->
     statusText r = Some t -> t <> ""%string ->
     fst (pull workItem n w) =
       Ok (Failed (JStr ("The Query CMR service responded with status "
                         +:+ t +:+ ".")))) /\
  (forall (r : HttpResponse) (e : exn) (t : string),
     axios_post (workRequest env workerPort workItem n) = Responded r ->
     below_300 r = true ->
     _getStacCatalogs env (getStacLocation workItem) (store w) = Throw e ->
     truthy (description (Some r)) = false ->
     statusText r = Some t -> t <> ""%string ->
     fst (pull workItem n w) =
       Ok (Failed (JStr ("The Query CMR service responded with status "
                         +:+ t +:+ ".")))).
Proof.
  repeat split.
  - intros e E. now rewrite (pull_rejected _ _ _ _ _ E).
  - intros e r d E Hd Ht. rewrite (pull_rejected _ _ _ _ _ E). cbn [fst].
    now rewrite (after_try_described r d).
  - intros e r t E Hd Ht Hne. rewrite (pull_rejected _ _ _ _ _ E). cbn [fst].
    now rewrite (after_try_status r t).
  - intros r e t E H300 Hc Hd Ht Hne. rewrite (pull_unreadable _ _ _ _ _ E H300 Hc).
    cbn [fst]. now rewrite (after_try_status r t).
Qed.

(** X11: when the worker answers below 300 with an object and the catalogs
    can be read, the result holds the catalogs and the [totalItemsSize],
    [outputItemSizes] and [scrollID] of the data, and nothing but the
    opening debug line is logged. *)
Theorem runQueryCmrFromPull_page (workItem : WorkItem) (n : option Z) (w : World O)
    (r : HttpResponse) (catalogs : list string) (fs : list (string * json)) :
  axios_post (workRequest env workerPort workItem n) = Responded r ->
  below_300 r = true ->
  _getStacCatalogs env (getStacLocation workItem) (store w) = Ok catalogs ->
  data r = Some (JObj fs) ->
  fst (pull workItem n w) =
    Ok (Page catalogs (get_prop "totalItemsSize" fs) (get_prop "outputItemSizes" fs)
             (get_prop "scrollID" fs)) /\
  logged (snd (pull workItem n w)) =
    say Debug ("CALLING WORKER with maxCmrGranules = " +:+ template_number n)
        (logged w).
Proof.
  intros E H300 Hc Hd. now rewrite (pull_page _ _ _ _ _ _ E H300 Hc Hd).
Qed.

End QueryCmrFacts.

Lemma runQueryCmrFromPull_error_witness :
  fst (QueryCmr.runQueryCmrFromPull Fixtures.env0 5000
         (fun _ => QueryCmr.Rejected (Error "timeout of 1500ms exceeded") None)
         Fixtures.item7 None (Fixtures.store_of []))
    = Ok (QueryCmr.Failed (JStr "")) /\
  fst (QueryCmr.runQueryCmrFromPull Fixtures.env0 5000
         (fun _ => QueryCmr.Rejected (Error "Request failed with status code 400")
                            (Some Fixtures.refusal))
         Fixtures.item7 None (Fixtures.store_of []))
    = Ok (QueryCmr.Failed (JStr "Too many granules")) /\
  fst (QueryCmr.runQueryCmrFromPull Fixtures.env0 5000
         (fun _ => QueryCmr.Rejected (Error "Request failed with status code 500")
                            (Some Fixtures.breakdown))
         Fixtures.item7 None (Fixtures.store_of []))
    = Ok (QueryCmr.Failed
           (JStr "The Query CMR service responded with status Internal Server Error.")) /\
  fst (QueryCmr.runQueryCmrFromPull Fixtures.env0 5000
         (fun _ => QueryCmr.Responded Fixtures.page_answer)
         Fixtures.item7 None (Runner.mkWorld Fixtures.catalog_without_index []))
    = Ok (QueryCmr.Failed (JStr "The Query CMR service responded with status OK.")).
Proof.
  split; [|split; [|split]].
  - eapply (proj1 (runQueryCmrFromPull_error _ _ _ _ _ _)). reflexivity.
  - eapply (proj1 (proj2 (runQueryCmrFromPull_error _ _ _ _ _ _)));
      [reflexivity|reflexivity|reflexivity].
  - exact (proj1 (proj2 (proj2 (runQueryCmrFromPull_error _ _ _ _ _ _)))
             (Error "Request failed with status code 500") Fixtures.breakdown
             "Internal Server Error" eq_refl eq_refl eq_refl ltac:(discriminate)).
  - refine (proj2 (proj2 (proj2 (runQueryCmrFromPull_error _ _ _ _ _ _)))
              Fixtures.page_answer
              (TypeError "Cannot read properties of null (reading 'length')")
              "OK" eq_refl eq_refl _ eq_refl eq_refl ltac:(discriminate)).
    vm_compute. reflexivity.
Defined.

Lemma runQueryCmrFromPull_page_witness :
  fst (QueryCmr.runQueryCmrFromPull Fixtures.env0 5000
         (fun _ => QueryCmr.Responded Fixtures.page_answer)
         Fixtures.item7 (Some 2000) (Runner.mkWorld Fixtures.three_catalogs []))
    = Ok (QueryCmr.Page [ "s3://artifacts/job/7/outputs/catalog0.json";
                 "s3://artifacts/job/7/outputs/catalog2.json";
                 "s3://artifacts/job/7/outputs/catalog10.json" ]%string
               (Some (JNum 12)) (Some (JArr [JNum 5; JNum 7]))
               (Some (JStr "scroll-2"))).
Proof.
  refine (proj1 (runQueryCmrFromPull_page Fixtures.env0 5000
                   (fun _ => QueryCmr.Responded Fixtures.page_answer) Fixtures.item7
                   (Some 2000) (Runner.mkWorld Fixtures.three_catalogs [])
                   Fixtures.page_answer _
                   [ ("totalItemsSize"%string, JNum 12);
                     ("outputItemSizes"%string, JArr [JNum 5; JNum 7]);
                     ("scrollID"%string, JStr "scroll-2") ]
                   eq_refl eq_refl _ eq_refl)).
  vm_compute. reflexivity.
Defined.

(** ** [util/object-store]: the object stores by protocol *)

Section ObjectStoreFacts.
Import ObjectStores.

Lemma step_ok_same (st : State) : wf st -> step_ok st None st.
Proof.
  intros Hwf. unfold step_ok.
  split; [exact Hwf|]. split; [lia|]. split; [auto|].
  split; [discriminate|]. split; [discriminate|]. auto.
Qed.

Lemma step_ok_s3 (st st' : State) (s : StoreObject) :
  wf st -> the_s3Store st = (s, st') -> step_ok st (Some s) st'.
Proof.
  intros Hwf. unfold the_s3Store, step_ok.
  destruct (s3Store st) as [x|] eqn:E; intros [= <- <-].
  - split; [exact Hwf|]. split; [lia|]. split; [congruence|].
    split; [intros a0 [= ->]; exact E|]. split; [|intros x0 Hx0; left; congruence].
    intros a0 [= ->]. destruct (Hwf _ E) as (b0 & Hb & _). discriminate.
  - cbn. split.
    { intros y [= <-]. eexists. split; [reflexivity|]. cbn. lia. }
    split; [lia|]. split; [congruence|]. split; [now intros a0 [= ->]|].
    split; [discriminate|]. intros x0 [= <-]. right. cbn. lia.
Qed.

Lemma step_ok_file (st : State) :
  wf st ->
  step_ok st (Some (FileStore (built st)))
          {| s3Store := s3Store st; built := S (built st) |}.
Proof.
  intros Hwf. unfold step_ok. cbn.
  split.
  { intros y Hy. destruct (Hwf y Hy) as (a0 & -> & Ha). eexists.
    split; [reflexivity|]. cbn. lia. }
  split; [lia|]. split; [auto|]. split; [discriminate|].
  split; [now intros a0 [= <-]|]. auto.
Qed.

Lemma call_spec (c : Call) (st st' : State) (r : option StoreObject) :
  wf st -> call c st = (r, st') -> step_ok st r st'.
Proof.
  intros Hwf Hc.
  destruct c as [|[p|]]; unfold call, defaultObjectStore, objectStoreForProtocol in Hc.
  - destruct (the_s3Store st) as [s st1] eqn:E. injection Hc as <- <-.
    now apply step_ok_s3.
  - destruct (String.eqb p "").
    { injection Hc as <- <-. now apply step_ok_same. }
    destruct (String.eqb _ "s3").
    { destruct (the_s3Store st) as [s st1] eqn:E. injection Hc as <- <-.
      now apply step_ok_s3. }
    destruct (String.eqb _ "file"); injection Hc as <- <-.
    + now apply step_ok_file.
    + now apply step_ok_same.
  - injection Hc as <- <-. now apply step_ok_same.
Qed.

Lemma calls_spec (cs : list Call) (st st' : State) (rs : list (option StoreObject)) :
  wf st -> calls cs st = (rs, st') ->
  wf st' /\ (built st <= built st')%nat /\
  (forall x, s3Store st = Some x -> s3Store st' = Some x) /\
  (forall a, In (Some (S3ObjectStore a)) rs -> s3Store st' = Some (S3ObjectStore a)) /\
  (forall i a, rs !! i = Some (Some (FileStore a)) ->
     (built st <= a < built st')%nat /\
     s3Store st' <> Some (S3ObjectStore a) /\
     forall j, rs !! j = Some (Some (FileStore a)) -> i = j) /\
  (forall x, s3Store st' = Some (S3ObjectStore x) ->
     s3Store st = Some (S3ObjectStore x) \/ (built st <= x < built st')%nat).
Proof.
  revert st rs. induction cs as [|c cs IH]; intros st rs Hwf; cbn [calls].
  - intros [= <- <-]. repeat split; auto.
    + intros a [].
    + rewrite lookup_nil in H. discriminate.
    + rewrite lookup_nil in H. discriminate.
    + rewrite lookup_nil in H. discriminate.
  - destruct (call c st) as [r st1] eqn:Ec.
    destruct (calls cs st1) as [rs' st2] eqn:Ecs. intros [= <- <-].
    destruct (call_spec c st st1 r Hwf Ec) as (W1 & B1 & K1 & S1 & F1 & N1).
    destruct (IH st1 rs' W1 Ecs) as (W2 & B2 & K2 & S2 & F2 & N2).
    split; [exact W2|]. split; [lia|]. split; [auto|]. split; [|split].
    + intros a [->|Hin]; [apply K2, S1; reflexivity|now apply S2].
    + intros i a Hi.
      assert (Hhead : r = Some (FileStore a) ->
                (built st <= a < built st2)%nat /\
                s3Store st2 <> Some (S3ObjectStore a) /\
                forall j, rs' !! j <> Some (Some (FileStore a))).
      { intros Hr. destruct (F1 a Hr) as (-> & Hb & Hs). repeat split; [lia|lia| |].
        - intros Hx. destruct (N2 _ Hx) as [Hx'|Hx']; [|lia].
          rewrite Hs in Hx'. destruct (Hwf _ Hx') as (b & [= <-] & Hlt). lia.
        - intros j Hj. destruct (F2 j _ Hj) as (Hr' & _). lia. }
      assert (Htail : forall k, rs' !! k = Some (Some (FileStore a)) ->
                r <> Some (FileStore a)).
      { intros k Hk Hr. destruct (Hhead Hr) as (_ & _ & Hno). now apply (Hno k). }
      destruct i as [|i]; cbn in Hi.
      * injection Hi as Hr. destruct (Hhead Hr) as (H1 & H2 & H3).
        repeat split; [lia|lia|exact H2|].
        intros [|j] Hj; [reflexivity|]. cbn in Hj. now apply H3 in Hj.
      * destruct (F2 i a Hi) as (H1 & H2 & H3). repeat split; [lia|lia|exact H2|].
        intros [|j] Hj; cbn in Hj.
        -- injection Hj as Hr. now apply (Htail i Hi) in Hr.
        -- f_equal. now apply H3.
    + intros x Hx. destruct (N2 x Hx) as [Hx'|Hx'].
      * destruct (N1 x Hx') as [?|?]; [now left|right; lia].
      * right. lia.
Qed.

Lemma wf_initial : wf initial.
Proof. intros s. discriminate. Qed.

(** X12: whatever calls are made to [defaultObjectStore] and
    [objectStoreForProtocol], every S3 store they return is the same object;
    it is none of the file stores, and every file store returned is an object
    of its own. *)
Theorem s3Store_singleton (cs : list Call) :
  let rs := fst (calls cs initial) in
  (forall a b, In (Some (S3ObjectStore a)) rs -> In (Some (S3ObjectStore b)) rs ->
               a = b) /\
  (forall a b, In (Some (S3ObjectStore a)) rs -> In (Some (FileStore b)) rs ->
               a <> b) /\
  (forall i j a, rs !! i = Some (Some (FileStore a)) ->
                 rs !! j = Some (Some (FileStore a)) -> i = j).
Proof.
  destruct (calls cs initial) as [rs st'] eqn:E. cbn [fst].
  destruct (calls_spec cs initial st' rs wf_initial E) as (_ & _ & _ & S & F & _).
  split; [|split].
  - intros a b Ha Hb. apply S in Ha. apply S in Hb. congruence.
  - intros a b Ha Hb ->. apply S in Ha.
    apply list_elem_of_In, list_elem_of_lookup in Hb as [i Hi].
    destruct (F i b Hi) as (_ & Hne & _). contradiction.
  - intros i j a Hi Hj. destruct (F i a Hi) as (_ & _ & Hu). now apply Hu.
Qed.

Lemma head_split_chars (sep : ascii) (l cur : list ascii) :
  nth 0 (split_chars sep l cur) ""%string
  = text (rev cur ++ fst (span (fun c => negb (Ascii.eqb c sep)) l)).
Proof.
  revert cur. induction l as [|c r IH]; intros cur; cbn [split_chars span].
  - now rewrite app_nil_r.
  - destruct (Ascii.eqb c sep); cbn [negb].
    + now rewrite app_nil_r.
    + rewrite IH. destruct (span _ r) as [a b]. cbn [fst rev].
      now rewrite <- app_assoc.
Qed.

Lemma head_split (name s : string) :
  forallb (fun c => negb (Ascii.eqb c ":")) (chars name) = true ->
  nth 0 (split ":" s) ""%string = name <->
  (chars s = chars name \/ exists rest, chars s = chars name ++ ":"%char :: rest).
Proof.
  intros Hname. unfold split. rewrite head_split_chars. cbn [rev app].
  pose proof (span_app (fun c => negb (Ascii.eqb c ":")) (chars s)) as (E & Ha & Hb).
  split.
  - intros Hn. apply (f_equal chars) in Hn. rewrite chars_text in Hn.
    rewrite Hn in E. destruct (snd (span _ (chars s))) as [|x rest].
    + left. now rewrite app_nil_r in E.
    + right. exists rest. apply negb_false_iff, Ascii.eqb_eq in Hb. now subst x.
  - intros [El|[rest El]].
    + rewrite El, <- (app_nil_r (chars name)), span_unique by auto.
      apply text_chars.
    + rewrite El, span_unique; [apply text_chars|exact Hname|reflexivity].
Qed.

(** X13: [objectStoreForProtocol] reads the protocol up to its first colon,
    whatever the case: [s3] gives the S3 store, [file] a new file store, and
    everything else, the empty and the missing protocol included, [null]. *)
Theorem objectStoreForProtocol_scheme (protocol : string) (st : State) :
  objectStoreForProtocol None st = (None, st) /\
  objectStoreForProtocol (Some ""%string) st = (None, st) /\
  (has_scheme "s3" protocol ->
   objectStoreForProtocol (Some protocol) st
   = (Some (fst (the_s3Store st)), snd (the_s3Store st))) /\
  (has_scheme "file" protocol ->
   objectStoreForProtocol (Some protocol) st
   = (Some (FileStore (built st)),
      {| s3Store := s3Store st; built := S (built st) |})) /\
  (~ has_scheme "s3" protocol -> ~ has_scheme "file" protocol ->
   objectStoreForProtocol (Some protocol) st = (None, st)).
Proof.
  assert (Hempty : forall name, name <> ""%string -> has_scheme name protocol ->
                   String.eqb protocol "" = false).
  { intros name Hname Hs. apply String.eqb_neq. intros ->.
    destruct Hs as [E|[rest E]]; cbn in E.
    - apply Hname. now rewrite <- (text_chars name), <- E.
    - symmetry in E. now apply app_eq_nil in E as [_ ?]. }
  split; [reflexivity|]. split; [reflexivity|]. split; [|split].
  - intros Hs. unfold objectStoreForProtocol.
    rewrite (Hempty "s3"%string) by (auto; discriminate).
    apply (head_split "s3") in Hs; [|reflexivity]. rewrite Hs. cbn [String.eqb].
    rewrite !Ascii.eqb_refl. now destruct (the_s3Store st).
  - intros Hs. unfold objectStoreForProtocol.
    rewrite (Hempty "file"%string) by (auto; discriminate).
    apply (head_split "file") in Hs; [|reflexivity]. now rewrite Hs.
  - intros H3 Hf. unfold objectStoreForProtocol.
    destruct (String.eqb protocol ""); [reflexivity|].
    destruct (String.eqb _ "s3") eqn:E3.
    { exfalso. apply H3. apply String.eqb_eq in E3.
      now apply (head_split "s3") in E3. }
    destruct (String.eqb _ "file") eqn:Ef; [|reflexivity].
    exfalso. apply Hf. apply String.eqb_eq in Ef.
    now apply (head_split "file") in Ef.
Qed.

End ObjectStoreFacts.

Lemma s3Store_singleton_witness :
  fst (ObjectStores.calls
         [ ObjectStores.ForProtocol (Some "file:///tmp/x"%string);
           ObjectStores.ForProtocol (Some "S3://bucket/key"%string);
           ObjectStores.Default;
           ObjectStores.ForProtocol (Some "s3"%string) ]
         ObjectStores.initial)
  = [ Some (ObjectStores.FileStore 0); Some (ObjectStores.S3ObjectStore 1);
      Some (ObjectStores.S3ObjectStore 1); Some (ObjectStores.S3ObjectStore 1) ] /\
  (1 <> 0)%nat.
Proof.
  split; [vm_compute; reflexivity|].
  apply (proj1 (proj2 (s3Store_singleton
           [ ObjectStores.ForProtocol (Some "file:///tmp/x"%string);
             ObjectStores.ForProtocol (Some "S3://bucket/key"%string);
             ObjectStores.Default;
             ObjectStores.ForProtocol (Some "s3"%string) ])) 1 0)%nat.
  - vm_compute. right. left. reflexivity.
  - vm_compute. left. reflexivity.
Defined.

Lemma objectStoreForProtocol_scheme_witness :
  ObjectStores.has_scheme "s3" "S3://bucket/key" /\
  fst (ObjectStores.objectStoreForProtocol (Some "S3://bucket/key"%string)
         ObjectStores.initial)
  = Some (ObjectStores.S3ObjectStore 0).
Proof.
  assert (Hs : ObjectStores.has_scheme "s3" "S3://bucket/key")
    by (right; eexists; reflexivity).
  split; [exact Hs|].
  now rewrite (proj1 (proj2 (proj2 (objectStoreForProtocol_scheme
                                      "S3://bucket/key" ObjectStores.initial))) Hs).
Defined.

(** ** The service runner: what a run leaves in the log stream *)

Section LogStreamWrites.
Import Logging WorkItemModel Runner.
Context `{JSONBuiltins}.

Lemma renameWorkerField_array (p : string) (h : list json) (xs : list json)
    (la : list nat) (lg : list LogCall) :
  renameWorkerField (length h) p (mkLogStream (h ++ [JArr xs]) la lg)
  = (Ok tt, mkLogStream (h ++ [JArr xs]) la lg).
Proof.
  unfold renameWorkerField, bind, deref, lift_res, ret. cbn [heap].
  rewrite lookup_alloc. reflexivity.
Qed.

Lemma handleLogString_array (logStr : string) (st : LogStream) (xs : list json) :
  JSON_parse logStr = Some (JArr xs) ->
  _handleLogString logStr st =
    (Ok tt, captured (Some (JArr xs))
                     (Some (mkLog Debug
                              (JObj (set_prop "worker" (JBool true)
                                       (spread_props (JArr xs))))
                              []))
                     st).
Proof.
  intros Hp. destruct st as [h la lg].
  unfold _handleLogString, handleLogString_try, try_catch, JSON_parse_res.
  rewrite Hp. cbn [for_of].
  unfold bind at 1. unfold lift_res at 1.
  unfold bind at 1. unfold alloc at 1. cbn [heap logStrArr streamLogger].
  unfold bind at 1. unfold push at 1, modify at 1. cbn [heap logStrArr streamLogger].
  unfold bind at 1. unfold bind at 1.
  rewrite renameWorkerField_array.
  unfold bind at 1.
  rewrite renameWorkerField_array.
  unfold ret at 1. unfold bind at 1. unfold deref at 1.
  cbn [heap logStrArr streamLogger]. rewrite lookup_alloc.
  unfold streamLogger_debug, modify, captured.
  cbn [heap logStrArr streamLogger]. reflexivity.
Qed.

Lemma write_kept (chunk : string) (st : LogStream) :
  exists call : option LogCall,
    _write chunk st = captured (Some (kept chunk)) call st.
Proof.
  unfold _write, kept. destruct (JSON_parse chunk) as [v|] eqn:Hp.
  - destruct v as [| b | n | s | xs | fs].
    + eexists. now rewrite (handleLogString_primitive chunk st JNull Hp).
    + eexists. now rewrite (handleLogString_primitive chunk st (JBool b) Hp).
    + eexists. now rewrite (handleLogString_primitive chunk st (JNum n) Hp).
    + eexists. now rewrite (handleLogString_primitive chunk st (JStr s) Hp).
    + eexists. now rewrite (handleLogString_array chunk st xs Hp).
    + eexists. now rewrite (handleLogString_object chunk st fs Hp).
  - eexists. now rewrite (handleLogString_text chunk st Hp).
Qed.

Lemma omap_lookup_seq {A} (pre l : list A) :
  omap (fun a => (pre ++ l) !! a) (seq (length pre) (length l)) = l.
Proof.
  revert pre. induction l as [|v r IH]; intros pre; [reflexivity|].
  cbn [length seq].
  change (omap ?f (?a :: ?t))
    with (match f a with Some y => y :: omap f t | None => omap f t end).
  cbn beta. rewrite list_lookup_middle by reflexivity.
  f_equal. specialize (IH (pre ++ [v])).
  rewrite <- app_assoc, length_app, Nat.add_1_r in IH. exact IH.
Qed.

Lemma view_one_each (st : LogStream) : one_each st -> logStrArr_view st = heap st.
Proof.
  unfold one_each, logStrArr_view. intros ->. apply (omap_lookup_seq [] (heap st)).
Qed.

Lemma captured_one_each (v : json) (call : option LogCall) (st : LogStream) :
  one_each st ->
  one_each (captured (Some v) call st) /\
  heap (captured (Some v) call st) = heap st ++ [v] /\
  (length (streamLogger (captured (Some v) call st))
   <= S (length (streamLogger st)))%nat.
Proof.
  unfold one_each, captured. cbn [heap logStrArr streamLogger]. intros ->.
  split; [|split; [reflexivity|]].
  - rewrite length_app. cbn [length]. now rewrite Nat.add_1_r, seq_S.
  - destruct call; [rewrite length_app; cbn [length]|]; lia.
Qed.

Lemma write_all_heap (chunks : list string) (st : LogStream) :
  one_each st ->
  one_each (write_all chunks st) /\
  heap (write_all chunks st) = heap st ++ map kept chunks /\
  (length (streamLogger (write_all chunks st))
   <= length (streamLogger st) + length chunks)%nat.
Proof.
  revert st. induction chunks as [|c cs IH]; intros st Hst; cbn [write_all fold_left map].
  - rewrite app_nil_r. cbn [length]. split; [exact Hst|]. split; [reflexivity|lia].
  - destruct (write_kept c st) as [call ->].
    destruct (captured_one_each (kept c) call st Hst) as (H1 & H2 & H3).
    destruct (IH _ H1) as (I1 & I2 & I3). fold (write_all cs (captured (Some (kept c)) call st)).
    split; [exact I1|]. split.
    + rewrite I2, H2, <- app_assoc. reflexivity.
    + cbn [length]. lia.
Qed.

Lemma view_write_all (chunks : list string) :
  logStrArr_view (write_all chunks new_LogStream) = map kept chunks.
Proof.
  destruct (write_all_heap chunks new_LogStream eq_refl) as (H1 & H2 & _).
  now rewrite (view_one_each _ H1), H2.
Qed.

(** X14: the chunks written to a fresh stream leave one entry each in
    [logStrArr], in the order written: the text of a chunk that is not JSON,
    the record with its renamed fields for an object, the parsed value
    otherwise.  The logger is called once per chunk at most, and writing more
    chunks only adds entries after those already there. *)
Theorem write_all_view (chunks : list string) :
  logStrArr_view (write_all chunks new_LogStream) = map kept chunks /\
  (length (streamLogger (write_all chunks new_LogStream)) <= length chunks)%nat /\
  (forall more : list string,
     exists added,
       logStrArr_view (write_all (chunks ++ more) new_LogStream)
       = logStrArr_view (write_all chunks new_LogStream) ++ added /\
       length added = length more).
Proof.
  split; [apply view_write_all|]. split.
  - now destruct (write_all_heap chunks new_LogStream eq_refl) as (_ & _ & H3).
  - intros more. exists (map kept more).
    rewrite !view_write_all, map_app, length_map. auto.
Qed.
End LogStreamWrites.

(** ** The service runner: the outcomes of [runServiceFromPull] *)

Section ExecOutcomes.
Import Logging WorkItemModel Runner.
Context `{JSONBuiltins} `{Locations} {O : Type} `{ObjectStore O}.
Context (env : Env) (workItem : WorkItem).

Local Abbreviation Run := (@Run O).

Lemma tick_early (t : Z) (s : Run) : t < workerTimeout env -> tick env t s = s.
Proof. intros Ht. unfold tick. now destruct (Z.leb_spec (workerTimeout env) t); [lia|]. Qed.

Lemma run_events_cons (te : Z * Event) (evs : list (Z * Event)) (s : Run) :
  run_events env workItem (te :: evs) s
  = run_events env workItem evs (step env workItem s te).
Proof. reflexivity. Qed.

Lemma run_events_app (evs evs' : list (Z * Event)) (s : Run) :
  run_events env workItem (evs ++ evs') s
  = run_events env workItem evs' (run_events env workItem evs s).
Proof. apply fold_left_app. Qed.

Lemma run_chunk_events (timed : list (Z * string)) (s : Run) :
  Forall (fun tc => fst tc < workerTimeout env) timed ->
  run_events env workItem (chunk_events timed) s
  = mkRun (world s) (write_all (map snd timed) (stdOut s)) (settled s) (timeout s)
          (awaiting s) (execArgs s).
Proof.
  intros Ht. revert s. induction Ht as [|[t c] timed Htc _ IH]; intros s.
  - now destruct s.
  - change (chunk_events ((t, c) :: timed)) with ((t, Chunk c) :: chunk_events timed).
    rewrite run_events_cons, IH. unfold step. cbn [fst snd] in *.
    rewrite tick_early by exact Htc. reflexivity.
Qed.

Lemma settled_after (evs : list (Z * Event)) (s : Run) (r : ServiceResponse) :
  settled s = Some r ->
  settled (fire env (run_events env workItem evs s)) = Some r.
Proof.
  intros Hs. apply settled_fire. now apply settled_run_events.
Qed.

(** The run up to the moment the status callback awaits [uploadLogs] *)
Lemma run_to_upload (w : World O) (timed : list (Z * string)) (st : V1Status) (t1 : Z) :
  Forall (fun tc => fst tc < workerTimeout env) timed ->
  t1 < workerTimeout env ->
  run_events env workItem (chunk_events timed ++ [(t1, ExecStatus st)])
    (start env workItem w)
  = let up := uploadLogs workItem (map kept (map snd timed))
                (world_at_status env st w) in
    mkRun (snd up) (write_all (map snd timed) new_LogStream) None Armed
          [AwaitUploadLogs st (fst up)] (execArgs (start env workItem w)).
Proof.
  intros Ht Ht1. rewrite run_events_app, run_chunk_events by exact Ht.
  cbn [run_events fold_left]. unfold step. cbn [fst snd].
  rewrite tick_early by exact Ht1. cbn [handle]. unfold on_status.
  cbn [start world stdOut settled timeout awaiting execArgs logging with_world].
  rewrite view_write_all.
  unfold world_at_status.
  destruct (uploadLogs _ _ _) as [r w'] eqn:E. cbn [fst snd]. reflexivity.
Qed.


Local Abbreviation up w timed st :=
  (uploadLogs workItem (map kept (map snd timed)) (world_at_status env st w)).

Lemma run_completed (w : World O) (timed : list (Z * string)) (st : V1Status)
    (t1 t2 t3 : Z) :
  Forall (fun tc => fst tc < workerTimeout env) timed ->
  t1 < workerTimeout env ->
  run_events env workItem (completed_run timed st t1 t2 t3) (start env workItem w)
  = step env workItem
      (step env workItem
         (mkRun (snd (up w timed st)) (write_all (map snd timed) new_LogStream) None
                Armed [AwaitUploadLogs st (fst (up w timed st))]
                (execArgs (start env workItem w)))
         (t2, Resume 0))
      (t3, Resume 0).
Proof.
  intros Ht Ht1. unfold completed_run.
  change [(t1, ExecStatus st); (t2, Resume 0%nat); (t3, Resume 0%nat)]
    with ([(t1, ExecStatus st)] ++ [(t2, Resume 0%nat); (t3, Resume 0%nat)]).
  rewrite app_assoc, run_events_app, run_to_upload by assumption. reflexivity.
Qed.

Lemma step_resume (t : Z) (k : Suspended) (w' : World O) (so : LogStream)
    (tm : Timer) (args : list string) :
  (t < workerTimeout env \/ tm = Cleared) ->
  step env workItem (mkRun w' so None tm [k] args) (t, Resume 0)
  = resume env workItem k (mkRun w' so None tm [] args).
Proof.
  intros Ht. unfold step. cbn [fst snd].
  assert (E : tick env t (mkRun w' so None tm [k] args) = mkRun w' so None tm [k] args).
  { destruct Ht as [Ht| ->]; [now apply tick_early|].
    unfold tick, fire. cbn [timeout]. now destruct (_ <=? _). }
  rewrite E. reflexivity.
Qed.


(** X16: the timer runs on while the logs are uploaded: a status that
    arrives before the timeout still ends in [Worker timed out ...] when
    [uploadLogs] is over only after it, whatever the status. *)
Theorem runServiceFromPull_slow_upload (w : World O) (timed : list (Z * string))
    (st : V1Status) (t1 t2 t3 : Z) :
  Forall (fun tc => fst tc < workerTimeout env) timed ->
  t1 < workerTimeout env -> workerTimeout env <= t2 ->
  runServiceFromPull env workItem w (completed_run timed st t1 t2 t3)
  = Some (response_error (timedOut env)).
Proof.
  intros Ht Ht1 Ht2. unfold runServiceFromPull.
  rewrite run_completed by assumption.
  apply settled_fire, settled_step.
  unfold step. cbn [fst snd]. apply settled_handle.
  unfold tick. destruct (Z.leb_spec (workerTimeout env) t2) as [_|?]; [|lia].
  unfold fire. cbn [timeout]. now rewrite resolve_settles.
Qed.

End ExecOutcomes.


Lemma runServiceFromPull_slow_upload_witness :
  Runner.runServiceFromPull Fixtures.env0 Fixtures.item7
    (Runner.mkWorld Fixtures.three_catalogs [])
    (Runner.completed_run [(10, "starting"%string)] Fixtures.succeeded 900 1600 1700)
  = Some (Runner.response_error "Worker timed out after 1.5 seconds").
Proof.
  refine (runServiceFromPull_slow_upload Fixtures.env0 Fixtures.item7
            (Runner.mkWorld Fixtures.three_catalogs [])
            [(10, "starting"%string)] Fixtures.succeeded 900 1600 1700 _ _ _).
  - repeat constructor.
  - reflexivity.
  - discriminate.
Defined.

Section CommandLineFacts.
Import Logging WorkItemModel Runner.

Lemma split_chars_cons (sep : ascii) (l cur : list ascii) :
  exists x r, split_chars sep l cur = x :: r.
Proof.
  revert cur. induction l as [|c l IH]; intros cur; cbn [split_chars]; [eauto|].
  destruct (Ascii.eqb c sep); eauto.
Qed.

Lemma length_split_chars (sep : ascii) (l cur : list ascii) :
  length (split_chars sep l cur)
  = S (length (List.filter (fun c => Ascii.eqb c sep) l)).
Proof.
  revert cur. induction l as [|c l IH]; intros cur; cbn [split_chars List.filter];
    [reflexivity|].
  destruct (Ascii.eqb c sep); cbn [length]; now rewrite IH.
Qed.

Lemma split_one (sep : ascii) (s : string) :
  length (split sep s) = 1%nat <-> ~ In sep (chars s).
Proof.
  unfold split. rewrite length_split_chars. split.
  - intros Hl Hin.
    assert (Hf : In sep (List.filter (fun c => Ascii.eqb c sep) (chars s))).
    { apply filter_In. split; [exact Hin|apply Ascii.eqb_refl]. }
    destruct (List.filter _ (chars s)); [contradiction|discriminate].
  - intros Hno. destruct (List.filter _ (chars s)) as [|c r] eqn:E; [reflexivity|].
    exfalso. assert (Hc : In c (List.filter (fun c => Ascii.eqb c sep) (chars s))).
    { rewrite E. now left. }
    apply filter_In in Hc as [Hin Hc]. apply Ascii.eqb_eq in Hc. now subst.
Qed.

Lemma text_app (a b : list ascii) : text (a ++ b) = text a +:+ text b.
Proof.
  induction a as [|c a IH]; [reflexivity|].
  change (String c (text (a ++ b)) = String c (text a +:+ text b)). now rewrite IH.
Qed.

Lemma join_split_chars (sep : ascii) (l cur : list ascii) :
  Array_join (String sep "") (split_chars sep l cur) = text (rev cur ++ l).
Proof.
  revert cur. induction l as [|c l IH]; intros cur; cbn [split_chars].
  - now rewrite app_nil_r.
  - destruct (Ascii.eqb_spec c sep) as [->|Hne].
    + destruct (split_chars_cons sep l []) as (x & r & E).
      specialize (IH []). rewrite E in IH |- *.
      change (Array_join ?s (?a :: x :: r)) with (a +:+ s +:+ Array_join s (x :: r)).
      rewrite IH. cbn [rev app].
      now rewrite text_app.
    + rewrite IH. cbn [rev]. now rewrite <- app_assoc.
Qed.

(** X17: the command line of the worker.  When [invocationArgs] holds a
    newline the arguments are its lines, spaces included; otherwise they are
    its parts between spaces.  Either way the arguments, joined by the
    separator used, give [invocationArgs] back. *)
Theorem commandLine_separator (env : Env) :
  (In (ascii_of_nat 10) (chars (invocationArgs env)) ->
   commandLine env = split (ascii_of_nat 10) (invocationArgs env)) /\
  (~ In (ascii_of_nat 10) (chars (invocationArgs env)) ->
   commandLine env = split " " (invocationArgs env)) /\
  Array_join (String (ascii_of_nat 10) "") (split (ascii_of_nat 10) (invocationArgs env))
    = invocationArgs env /\
  Array_join " " (split " " (invocationArgs env)) = invocationArgs env.
Proof.
  unfold commandLine. split; [|split; [|split]].
  - intros Hin. destruct (Nat.eqb_spec (length (split (ascii_of_nat 10)
                                                  (invocationArgs env))) 1) as [E|E];
      [|reflexivity].
    apply split_one in E. contradiction.
  - intros Hno. apply split_one in Hno. now rewrite Hno.
  - unfold split. rewrite join_split_chars. apply text_chars.
  - unfold split. rewrite (join_split_chars " "). apply text_chars.
Qed.

End CommandLineFacts.

Lemma commandLine_separator_witness :
  ~ In (ascii_of_nat 10) (chars (Runner.invocationArgs Fixtures.env0)) /\
  Runner.commandLine Fixtures.env0
  = [ "python"; "-m"; "harmony_service_example" ]%string.
Proof.
  assert (Hno : ~ In (ascii_of_nat 10) (chars (Runner.invocationArgs Fixtures.env0))).
  { intros Hin. vm_compute in Hin. intuition discriminate. }
  split; [exact Hno|].
  now rewrite (proj1 (proj2 (commandLine_separator Fixtures.env0)) Hno).
Defined.

(** ** Polling: further paths of the three entry points *)

Section PollingFacts.
Import Logging WorkItemModel Polling.
Context `{JSONBuiltins} `{Config} {D Q : Type} `{WorkItemStore D} `{WorkQueue Q}.
Context (pick : nat -> nat).
Context (processSchedulerQueue : Eff (World D Q unit) unit).
Local Abbreviation W := (World D Q).

(** X18: without a queue for the URL of the service, [getWorkFromQueue]
    throws [No queue found for URL ...]; by then it has logged one debug line
    and touched neither the database nor any queue. *)
Theorem getWorkFromQueue_no_queue (svc : string) (w : W unit) :
  queues w !! getQueueUrlForService svc = None ->
  getWorkFromQueue processSchedulerQueue svc w =
    (Throw (Error ("No queue found for URL " +:+ getQueueUrlForService svc)),
     mkWorld (db w) (queues w) (schedulerQueue w)
       (say Debug ("Short polling for work from queue " +:+ getQueueUrlForService svc
                   +:+ " for service " +:+ svc) (reqLogger w))
       (vars w)).
Proof.
  intros Hq. unfold getWorkFromQueue, pollQueue.
  unfold bind at 1. unfold bind at 1. unfold logger at 1, modify at 1.
  unfold bind at 1. unfold get at 1. cbn [queues]. rewrite Hq. reflexivity.
Qed.

(** X19: [getWorkFromDatabase] when a ready item is found: the item that
    [getNextWorkItem] gives is returned once the counts of its job are
    stepped, all in one transaction; for a query-cmr item the limit computed
    by [calculateQueryCmrLimit] comes with it, and when computing it throws
    nothing is returned and the transaction is undone. *)
Theorem getWorkFromDatabase_found (svc : string) (w : W unit)
    (user job : string) (workItem : WorkItem) (d1 d2 d3 d4 : D) :
  getNextUsernameForWork svc (db w) = Ok (Some user, d1) -> user <> ""%string ->
  getNextJobIdForUsernameAndService svc user d1 = Ok (Some job, d2) -> job <> ""%string ->
  getNextWorkItem svc job d2 = Ok (Some workItem, d3) ->
  incrementRunningAndDecrementReadyCounts job svc None d3 = Ok (tt, d4) ->
  (QUERY_CMR_SERVICE_REGEX_test (WorkItemModel.serviceID workItem) = false ->
   getWorkFromDatabase svc w =
     (Ok (Some (mkData workItem None)),
      mkWorld d4 (queues w) (schedulerQueue w) (reqLogger w) tt)) /\
  (forall (n : Z) (d5 : D),
     QUERY_CMR_SERVICE_REGEX_test (WorkItemModel.serviceID workItem) = true ->
     calculateQueryCmrLimit workItem d4 = Ok (n, d5) ->
     getWorkFromDatabase svc w =
       (Ok (Some (mkData workItem (Some n))),
        mkWorld d5 (queues w) (schedulerQueue w)
          (say Debug (foundWorkItem workItem svc n) (reqLogger w)) tt)) /\
  (forall e : exn,
     QUERY_CMR_SERVICE_REGEX_test (WorkItemModel.serviceID workItem) = true ->
     calculateQueryCmrLimit workItem d4 = Throw e ->
     getWorkFromDatabase svc w =
       (Ok None,
        mkWorld (db w) (queues w) (schedulerQueue w)
          (say LError ("Error getting work from database: " +:+ message e)
               (reqLogger w)) tt)).
Proof.
  intros Hu Hun Hj Hjn Hi Hc.
  split; [|split].
  - intros Hq.
    unfold getWorkFromDatabase, with_vars, bind, try_catch, transaction, read, gets.
    unfold getWorkFromDatabase_tx, bind, query, logger, modify, assign, modify.
    cbn [db set_vars set_db vars queues schedulerQueue reqLogger].
    rewrite Hu. cbn [db set_vars set_db vars queues schedulerQueue reqLogger].
    rewrite (truthy_string_Some user Hun).
    cbn [db set_vars set_db vars queues schedulerQueue reqLogger].
    rewrite Hj. cbn [db set_vars set_db vars queues schedulerQueue reqLogger].
    rewrite (truthy_string_Some job Hjn).
    cbn [db set_vars set_db vars queues schedulerQueue reqLogger].
    rewrite Hi. cbn [db set_vars set_db vars queues schedulerQueue reqLogger].
    rewrite Hc. cbn [db set_vars set_db vars queues schedulerQueue reqLogger].
    rewrite Hq. reflexivity.
  - intros n d5 Hq Hl.
    unfold getWorkFromDatabase, with_vars, bind, try_catch, transaction, read, gets.
    unfold getWorkFromDatabase_tx, bind, query, logger, modify, assign, modify.
    cbn [db set_vars set_db vars queues schedulerQueue reqLogger].
    rewrite Hu. cbn [db set_vars set_db vars queues schedulerQueue reqLogger].
    rewrite (truthy_string_Some user Hun).
    cbn [db set_vars set_db vars queues schedulerQueue reqLogger].
    rewrite Hj. cbn [db set_vars set_db vars queues schedulerQueue reqLogger].
    rewrite (truthy_string_Some job Hjn).
    cbn [db set_vars set_db vars queues schedulerQueue reqLogger].
    rewrite Hi. cbn [db set_vars set_db vars queues schedulerQueue reqLogger].
    rewrite Hc. cbn [db set_vars set_db vars queues schedulerQueue reqLogger].
    rewrite Hq. unfold bind, query.
    cbn [db set_vars set_db vars queues schedulerQueue reqLogger].
    rewrite Hl. reflexivity.
  - intros e Hq Hl.
    unfold getWorkFromDatabase, with_vars, bind, try_catch, transaction, read, gets.
    unfold getWorkFromDatabase_tx, bind, query, logger, modify, assign, modify.
    cbn [db set_vars set_db vars queues schedulerQueue reqLogger].
    rewrite Hu. cbn [db set_vars set_db vars queues schedulerQueue reqLogger].
    rewrite (truthy_string_Some user Hun).
    cbn [db set_vars set_db vars queues schedulerQueue reqLogger].
    rewrite Hj. cbn [db set_vars set_db vars queues schedulerQueue reqLogger].
    rewrite (truthy_string_Some job Hjn).
    cbn [db set_vars set_db vars queues schedulerQueue reqLogger].
    rewrite Hi. cbn [db set_vars set_db vars queues schedulerQueue reqLogger].
    rewrite Hc. cbn [db set_vars set_db vars queues schedulerQueue reqLogger].
    rewrite Hq. unfold bind, query.
    cbn [db set_vars set_db vars queues schedulerQueue reqLogger].
    rewrite Hl. reflexivity.
Qed.


Lemma for_of_push_plain (svc : string) (l : list WorkItem) (w : W BatchVars) :
  Forall (fun x => QUERY_CMR_SERVICE_REGEX_test (WorkItemModel.serviceID x) = false) l ->
  for_of l (pushWorkItem svc) w =
    (Ok tt,
     set_vars (mkVars (workItems (vars w) ++ map (fun x => mkData x None) l)
                      (remainingNumOfJobs (vars w)) (remainingBatchSize (vars w))
                      (workSize (vars w))) w).
Proof.
  intros Hl. revert w. induction Hl as [|x l Hx _ IH]; intros w.
  - cbn [for_of map]. rewrite app_nil_r. unfold ret, set_vars.
    destruct w as [d qs sq lg [wi rn rb ws]]. reflexivity.
  - cbn [for_of]. unfold bind at 1. unfold pushWorkItem at 1. rewrite Hx.
    unfold assign at 1, modify at 1. rewrite IH.
    unfold set_vars. cbn [vars workItems remainingNumOfJobs remainingBatchSize workSize
                          db queues schedulerQueue reqLogger map].
    now rewrite <- app_assoc.
Qed.

(** X20: in the batch path, when stepping the counts of the first job throws
    after its items were fetched, the transaction of that job is undone and
    the later jobs are not gone through, yet the items fetched are returned:
    they were pushed on the result before the failure. *)
Theorem getWorkItemsFromDatabase_rolled_back (svc : string) (batchSize : Z) (w : W unit)
    (jobIds rest : list string) (job : string) (got : list WorkItem) (d0 d1 : D)
    (e : exn) :
  getNextJobIds svc batchSize (db w) = Ok (jobIds, d0) ->
  shuffleArray pick jobIds = job :: rest ->
  getNextWorkItems svc job
    (nextWorkSize (mkVars [] (Z.of_nat (length jobIds)) batchSize None)) d0
    = Ok (Some got, d1) ->
  got <> [] ->
  Forall (fun x => QUERY_CMR_SERVICE_REGEX_test (WorkItemModel.serviceID x) = false)
         got ->
  incrementRunningAndDecrementReadyCounts job svc (Some (Z.of_nat (length got))) d1
    = Throw e ->
  getWorkItemsFromDatabase pick svc batchSize w =
    (Ok (map (fun x => mkData x None) got),
     mkWorld d0 (queues w) (schedulerQueue w)
       (say LError ("Error getting works from database: " +:+ message e)
            (reqLogger w)) tt).
Proof.
  intros Hj Hs Hg Hne Hq Hi.
  unfold getWorkItemsFromDatabase, with_vars.
  unfold bind at 1. unfold try_catch.
  unfold bind at 1. unfold query at 1. cbn [db set_vars]. rewrite Hj.
  unfold bind at 1. unfold assign at 1, modify at 1. rewrite Hs.
  cbn [for_of]. unfold bind at 1. unfold transaction at 1.
  unfold processJob at 1.
  unfold bind at 1. unfold read at 1, gets at 1.
  unfold bind at 1. unfold assign at 1, modify at 1.
  unfold bind at 1. unfold bind at 1. unfold query at 1.
  cbn [set_vars set_db vars db queues schedulerQueue reqLogger workItems
       remainingNumOfJobs remainingBatchSize workSize].
  rewrite Hg. destruct got as [|x got']; [congruence|].
  unfold bind at 1. rewrite (for_of_push_plain svc _ _ Hq).
  unfold query at 1.
  cbn [set_vars set_db vars db queues schedulerQueue reqLogger workItems
       remainingNumOfJobs remainingBatchSize workSize].
  rewrite Hi. unfold logger, modify, gets.
  cbn [set_vars set_db vars db queues schedulerQueue reqLogger workItems
       remainingNumOfJobs remainingBatchSize workSize app]. reflexivity.
Qed.

Lemma on_queue_frame {V A} (url : string) (f : Q -> res (A * Q)) (w w' : W V)
    (r : res A) :
  on_queue url f w = (r, w') ->
  db w' = db w /\ schedulerQueue w' = schedulerQueue w /\ reqLogger w' = reqLogger w /\
  forall url', url' <> url -> queues w' !! url' = queues w !! url'.
Proof.
  unfold on_queue. destruct (queues w !! url) as [q|]; [|intros [= <- <-]; auto].
  destruct (f q) as [[a q']|e]; intros [= <- <-]; cbn; [|auto].
  repeat split. intros url' Hne. now rewrite lookup_insert_ne.
Qed.

Lemma takeQueueItem_frame (svc : string) (m : option QueueMessage) (w w' : W unit)
    (r : res (option json)) :
  takeQueueItem svc m w = (r, w') ->
  schedulerQueue w' = schedulerQueue w /\
  forall url', url' <> getQueueUrlForService svc ->
               queues w' !! url' = queues w !! url'.
Proof.
  destruct m as [m|]; unfold takeQueueItem.
  - unfold bind at 1. unfold logger at 1, modify at 1.
    unfold bind at 1.
    match goal with |- context [on_queue ?u ?f ?s] =>
      destruct (on_queue u f s) as [r1 w1] eqn:E1 end.
    apply on_queue_frame in E1 as (_ & Hs1 & _ & Hq1).
    cbn [schedulerQueue queues] in Hs1, Hq1.
    destruct r1 as [[]|e1]; [|intros [= <- <-]; auto].
    unfold bind at 1. unfold logger at 1, modify at 1.
    unfold bind at 1. unfold lift_res at 1.
    destruct (JSON_parse_res (body m)) as [item|e2];
      [|intros [= <- <-]; cbn [schedulerQueue queues]; auto].
    unfold try_catch, bind, transaction, ret, logger, modify.
    destruct (takeQueueItem_tx item _) as [[[]|err] w2] eqn:Etx;
      apply takeQueueItem_tx_frame in Etx as [Hq2 Hs2];
      cbn [schedulerQueue queues] in Hq2, Hs2;
      intros [= <- <-]; cbn [schedulerQueue queues set_db];
      rewrite Hq2, Hs2; auto.
  - unfold bind, logger, modify, ret. intros [= <- <-]. auto.
Qed.

(** X21: when the short poll finds a message, [getWorkFromQueue] goes on
    with it at once: no request is made to the scheduler (its queue is left
    as it was) and no queue but that of the service is touched. *)
Theorem getWorkFromQueue_short_poll (svc : string) (w : W unit) (q q1 : Q)
    (m : QueueMessage) :
  queues w !! getQueueUrlForService svc = Some q ->
  getMessage (Some 0) q = Ok (Some m, q1) ->
  getWorkFromQueue processSchedulerQueue svc w
  = takeQueueItem svc (Some m)
      (mkWorld (db w) (<[getQueueUrlForService svc := q1]> (queues w))
         (schedulerQueue w)
         (say Debug ("Short polling for work from queue "
                     +:+ getQueueUrlForService svc +:+ " for service " +:+ svc)
              (reqLogger w))
         tt) /\
  schedulerQueue (snd (getWorkFromQueue processSchedulerQueue svc w))
  = schedulerQueue w /\
  (forall url', url' <> getQueueUrlForService svc ->
     queues (snd (getWorkFromQueue processSchedulerQueue svc w)) !! url'
     = queues w !! url').
Proof.
  intros Hq Hm.
  assert (E : getWorkFromQueue processSchedulerQueue svc w
    = takeQueueItem svc (Some m)
        (mkWorld (db w) (<[getQueueUrlForService svc := q1]> (queues w))
           (schedulerQueue w)
           (say Debug ("Short polling for work from queue "
                       +:+ getQueueUrlForService svc +:+ " for service " +:+ svc)
                (reqLogger w))
           tt)).
  { apply getWorkFromQueue_dequeued. unfold pollQueue.
    unfold bind at 1. unfold logger at 1, modify at 1.
    unfold bind at 1. unfold get at 1. cbn [queues]. rewrite Hq.
    unfold bind at 1. unfold on_queue at 1. cbn [queues]. rewrite Hq, Hm.
    destruct w as [d0 qs0 s0 l0 []]. reflexivity. }
  split; [exact E|]. rewrite E.
  destruct (takeQueueItem svc (Some m) _) as [r w'] eqn:Et.
  apply takeQueueItem_frame in Et as [Hs Hqs]. cbn [snd schedulerQueue queues] in *.
  split; [exact Hs|]. intros url' Hne. rewrite (Hqs url' Hne).
  now rewrite lookup_insert_ne.
Qed.

End PollingFacts.

Lemma getWorkFromQueue_no_queue_witness :
  fst (Polling.getWorkFromQueue (ret tt) "other"
         (Fixtures.poller Fixtures.three_jobs []))
  = Throw (Error "No queue found for URL https://queue/other").
Proof.
  erewrite (getWorkFromQueue_no_queue (ret tt) "other"
              (Fixtures.poller Fixtures.three_jobs [])).
  - reflexivity.
  - vm_compute; reflexivity.
Defined.

Lemma getWorkFromDatabase_found_witness :
  fst (Polling.getWorkFromDatabase "svc" (Fixtures.poller Fixtures.three_jobs []))
  = Ok (Some (Polling.mkData (Fixtures.item 1 "a" WorkItemModel.READY) None)).
Proof.
  erewrite (proj1 (getWorkFromDatabase_found "svc"
                     (Fixtures.poller Fixtures.three_jobs []) "u" "a"
                     (Fixtures.item 1 "a" WorkItemModel.READY) _ _ _ _
                     _ _ _ _ _ _)); [reflexivity|vm_compute; reflexivity].
  Unshelve.
  all: try discriminate; try (vm_compute; reflexivity).
Defined.

Lemma getWorkItemsFromDatabase_rolled_back_witness :
  fst (Polling.getWorkItemsFromDatabase (fun _ => O) "svc" 4
         (Fixtures.poller (Fixtures.failing_after 2 Fixtures.three_jobs) []))
  = Ok [Polling.mkData (Fixtures.item 2 "b" WorkItemModel.READY) None] /\
  Reference.items
    (Polling.db (snd (Polling.getWorkItemsFromDatabase (fun _ => O) "svc" 4
                        (Fixtures.poller (Fixtures.failing_after 2 Fixtures.three_jobs)
                                         []))))
  = Reference.items Fixtures.three_jobs.
Proof.
  erewrite (getWorkItemsFromDatabase_rolled_back (fun _ => O) "svc" 4
              (Fixtures.poller (Fixtures.failing_after 2 Fixtures.three_jobs) [])
              ["a"; "b"; "c"]%string ["c"; "a"]%string "b"
              [Fixtures.item 2 "b" WorkItemModel.READY]); cycle 1.
  - vm_compute; reflexivity.
  - vm_compute; reflexivity.
  - vm_compute; reflexivity.
  - discriminate.
  - repeat constructor.
  - vm_compute; reflexivity.
  - split; reflexivity.
Defined.

Lemma getWorkFromQueue_short_poll_witness :
  Polling.schedulerQueue
    (snd (Polling.getWorkFromQueue (ret tt) "svc"
            (Fixtures.poller Fixtures.three_jobs [Fixtures.message7])))
  = Reference.mkMemQueue [] [] 0.
Proof.
  refine (proj1 (proj2 (getWorkFromQueue_short_poll (ret tt) "svc"
                          (Fixtures.poller Fixtures.three_jobs [Fixtures.message7])
                          (Reference.mkMemQueue [Fixtures.message7] [] 0)
                          (Reference.mkMemQueue [] [Fixtures.message7] 0)
                          Fixtures.message7 _ _))).
  - vm_compute; reflexivity.
  - vm_compute; reflexivity.
Defined.

(** ** Polling: messages that are no dispatch envelopes *)

Section QueueMessageFacts.
Import Logging WorkItemModel Polling.
Context `{JSONBuiltins} `{Config} {D Q : Type} `{WorkItemStore D} `{WorkQueue Q}.
Context (processSchedulerQueue : Eff (World D Q unit) unit).
Local Abbreviation W := (World D Q).

Lemma takeQueueItem_unparsed (svc : string) (m : QueueMessage) (q q' : Q) (w : W unit) :
  queues w !! getQueueUrlForService svc = Some q ->
  deleteMessage (receipt m) q = Ok (tt, q') ->
  JSON_parse (body m) = None ->
  takeQueueItem svc (Some m) w =
    (Throw (SyntaxError "Unexpected token in JSON"),
     afterDelete (getQueueUrlForService svc) m q' w).
Proof.
  intros Hq Hd Hp. destruct w as [d0 qs0 s0 l0 []]. cbn [queues] in Hq.
  unfold takeQueueItem, JSON_parse_res, afterDelete.
  unfold bind at 1. unfold logger at 1, modify at 1.
  unfold bind at 1. unfold on_queue at 1. cbn [queues]. rewrite Hq, Hd.
  unfold bind at 1. unfold logger at 1, modify at 1.
  cbn [db queues schedulerQueue reqLogger vars].
  rewrite Hp. reflexivity.
Qed.

(** X22: a message whose body is not a dispatch envelope.  The message is
    deleted first in any case.  A body that is not JSON makes
    [getWorkFromQueue] throw the [SyntaxError] of [JSON.parse]; a body that
    is JSON without [workItem.id] fails inside the transaction, so the error
    is logged and [null] is returned. *)
Theorem getWorkFromQueue_malformed (svc : string) (w w1 : W unit)
    (m : QueueMessage) (q q' : Q) :
  pollQueue processSchedulerQueue svc w = (Ok (Some m), w1) ->
  queues w1 !! getQueueUrlForService svc = Some q ->
  deleteMessage (receipt m) q = Ok (tt, q') ->
  (JSON_parse (body m) = None ->
   exists e,
     instanceof_SyntaxError e = true /\
     getWorkFromQueue processSchedulerQueue svc w =
       (Throw e, afterDelete (getQueueUrlForService svc) m q' w1)) /\
  (forall (item : json) (e : exn),
     JSON_parse (body m) = Some item ->
     workItem_id item = Throw e ->
     getWorkFromQueue processSchedulerQueue svc w =
       (Ok None,
        snd (logger LError ("Error updating work item status to running: "
                            +:+ message e)
               (afterDelete (getQueueUrlForService svc) m q' w1)))).
Proof.
  intros Hp Hq Hd. rewrite (getWorkFromQueue_dequeued _ _ _ _ _ Hp). split.
  - intros Hn. eexists. split; [|now apply (takeQueueItem_unparsed svc m q q')].
    reflexivity.
  - intros item e Hi He. rewrite (takeQueueItem_deleted _ _ _ _ _ _ Hq Hd Hi).
    unfold takeQueueItem_tx, bind, lift_res. rewrite He.
    unfold logger, modify, afterDelete. cbn. reflexivity.
Qed.

End QueueMessageFacts.

Lemma getWorkFromQueue_malformed_witness :
  fst (Polling.getWorkFromQueue (ret tt) "svc"
         (Fixtures.poller Fixtures.three_jobs
            [Polling.mkMessage "{}" "receipt-8"]))
  = Ok None /\
  Polling.queues
    (snd (Polling.getWorkFromQueue (ret tt) "svc"
            (Fixtures.poller Fixtures.three_jobs
               [Polling.mkMessage "{}" "receipt-8"])))
    !! "https://queue/svc"%string
  = Some (Reference.mkMemQueue [] [] 0).
Proof.
  pose proof (getWorkFromQueue_malformed (ret tt) "svc"
                (Fixtures.poller Fixtures.three_jobs
                   [Polling.mkMessage "{}" "receipt-8"])
                (snd (Polling.pollQueue (ret tt) "svc"
                        (Fixtures.poller Fixtures.three_jobs
                           [Polling.mkMessage "{}" "receipt-8"])))
                (Polling.mkMessage "{}" "receipt-8")
                (Reference.mkMemQueue [] [Polling.mkMessage "{}" "receipt-8"] 0)
                (Reference.mkMemQueue [] [] 0)) as Hm.
  destruct Hm as [_ Hm]; [vm_compute; reflexivity..|].
  rewrite (Hm (JObj [])
              (TypeError "Cannot read properties of undefined (reading 'id')"));
    [|vm_compute; reflexivity..].
  split; vm_compute; reflexivity.
Defined.

(** ** The service runner: a rejected [exec.exec] *)

Section ExecRejection.
Import Logging WorkItemModel Runner.
Context `{JSONBuiltins} `{Locations} {O : Type} `{ObjectStore O}.
Context (env : Env) (workItem : WorkItem).


End ExecRejection.


(** ** [packages/util/string.ts]: [joinTexts] *)

Section JoinTextsFacts.
Import StringUtil.

Lemma lang_sentenceEnd (l : list ascii) :
  lang sentenceEndRegex l <->
  exists a c b, l = a ++ c :: b /\ is_end_mark c = true /\
                (b = [] \/ exists t b', b = t :: b' /\ is_dot t = false).
Proof.
  unfold sentenceEndRegex. rewrite lang_cat_smart, lang_Cat_inv. split.
  - intros (a & l2 & -> & _ & H2).
    apply lang_cat_smart, lang_Cat_inv in H2 as (m & b & -> & Hm & Hb).
    apply lang_Chr in Hm as (c & -> & Hc).
    exists a, c, b. split; [reflexivity|]. split; [exact Hc|].
    apply lang_alt_smart, lang_Alt_inv in Hb as [Hb|Hb].
    + left. now apply lang_Eps.
    + right. apply lang_cat_smart, lang_Cat_inv in Hb as (t & b' & -> & Ht & _).
      apply lang_Chr in Ht as (t' & -> & Ht). exists t', b'.
      split; [reflexivity|]. now apply negb_true_iff.
  - intros (a & c & b & -> & Hc & Hb). exists a, (c :: b).
    split; [reflexivity|]. split; [apply lang_any|].
    apply lang_cat_smart, lang_Cat_inv. exists [c], b.
    split; [reflexivity|]. split; [now constructor|].
    apply lang_alt_smart, lang_Alt_inv. destruct Hb as [->|(t & b' & -> & Ht)].
    + left. constructor.
    + right. apply lang_cat_smart, lang_Cat_inv. exists [t], b'.
      split; [reflexivity|]. split; [|apply lang_any].
      constructor. now apply negb_true_iff.
Qed.

Lemma test_sentenceEnd_mark (s : string) :
  ends_with_mark s -> test_whole sentenceEndRegex s = true.
Proof.
  intros (pre & c & E & Hc). unfold test_whole.
  apply accepts_lang, lang_sentenceEnd. exists pre, c, []. auto.
Qed.

Lemma test_sentenceEnd_line (s : string) :
  forallb is_dot (chars s) = true ->
  test_whole sentenceEndRegex s = true -> ends_with_mark s.
Proof.
  intros Hline Ht. unfold test_whole in Ht.
  apply accepts_lang, lang_sentenceEnd in Ht as (a & c & b & E & Hc & Hb).
  destruct Hb as [->|(t & b' & -> & Ht)]; [now exists a, c|].
  rewrite E, forallb_app in Hline. cbn in Hline. rewrite Ht in Hline.
  rewrite !andb_false_r in Hline. discriminate.
Qed.

Lemma test_sentenceEnd_prefix (a b : string) :
  test_whole sentenceEndRegex b = true -> test_whole sentenceEndRegex (a +:+ b) = true.
Proof.
  unfold test_whole. rewrite !accepts_lang, chars_append, !lang_sentenceEnd.
  intros (x & c & y & -> & Hc & Hy). exists (chars a ++ x), c, y.
  now rewrite <- app_assoc.
Qed.

Lemma sentence_cases (item : string) :
  (test_whole sentenceEndRegex (trim item) = true /\ sentence item = trim item) \/
  (test_whole sentenceEndRegex (trim item) = false /\
   sentence item = trim item +:+ ".").
Proof.
  unfold sentence. destruct (test_whole sentenceEndRegex (trim item)); auto.
Qed.

Lemma sentence_test (item : string) :
  test_whole sentenceEndRegex (sentence item) = true.
Proof.
  destruct (sentence_cases item) as [[Ht ->]|[_ ->]]; [exact Ht|].
  apply test_sentenceEnd_mark. exists (chars (trim item)), "."%char.
  split; [now rewrite chars_append|reflexivity].
Qed.

Lemma span_head_fails {A} (p : A -> bool) (c : A) (l : list A) :
  p c = false -> span p (c :: l) = ([], c :: l).
Proof. intros Hc. cbn [span]. now rewrite Hc. Qed.

Lemma snd_span_head {A} (p : A -> bool) (l : list A) (c : A) (r : list A) :
  snd (span p l) = c :: r -> p c = false.
Proof.
  intros E. pose proof (span_app p l) as (_ & _ & Hs). now rewrite E in Hs.
Qed.

Lemma tight_trim_chars (l : list ascii) :
  tight (rev (snd (span is_space (rev (snd (span is_space l)))))).
Proof.
  set (l1 := snd (span is_space l)).
  pose proof (span_app is_space (rev l1)) as (E & _ & _).
  set (l2 := snd (span is_space (rev l1))) in *.
  set (a := fst (span is_space (rev l1))) in *.
  assert (E1 : l1 = rev l2 ++ rev a).
  { rewrite <- rev_app_distr, <- E. now rewrite rev_involutive. }
  split.
  - intros c l' Hc. rewrite Hc in E1. cbn in E1.
    now apply (snd_span_head is_space l c (l' ++ rev a)).
  - intros l' c Hc. apply (f_equal (@rev _)) in Hc.
    rewrite rev_involutive, rev_app_distr in Hc. cbn in Hc.
    now apply (snd_span_head is_space (rev l1) c (rev l')).
Qed.

Lemma trim_tight (s : string) : tight (chars s) -> trim s = s.
Proof.
  intros [Hh Hl]. unfold trim. destruct (chars s) as [|c l] eqn:E.
  - cbn. now rewrite <- (text_chars s), E.
  - rewrite (span_head_fails is_space c l (Hh c l eq_refl)). cbn [snd].
    destruct (exists_last (l := c :: l)) as (l' & y & Ey); [discriminate|].
    rewrite Ey, rev_app_distr. cbn [rev app].
    rewrite (span_head_fails is_space y (rev l') (Hl l' y Ey)). cbn [snd rev].
    rewrite rev_involutive, <- Ey, <- E. apply text_chars.
Qed.

Lemma tight_trim (s : string) : tight (chars (trim s)).
Proof. unfold trim. rewrite chars_text. apply tight_trim_chars. Qed.

Lemma tight_sentence (item : string) :
  tight (chars (sentence item)) /\ chars (sentence item) <> [].
Proof.
  pose proof (tight_trim item) as [Hh Hl].
  destruct (sentence_cases item) as [[Ht ->]|[_ ->]].
  - split; [now split|].
    intros E. unfold test_whole in Ht. rewrite E in Ht. discriminate.
  - rewrite chars_append. change (chars ".") with ["."%char]. split; [split|].
    + intros c l' E. destruct (chars (trim item)) as [|x t] eqn:Et.
      * cbn in E. now injection E as <- _.
      * cbn in E. injection E as <- _. now apply (Hh x t).
    + intros l' c E. apply app_inj_tail in E as [_ <-]. reflexivity.
    + intros E. now apply app_eq_nil in E as [_ ?].
Qed.

Lemma last_default {A} (x d d' : A) (l : list A) :
  List.last (x :: l) d = List.last (x :: l) d'.
Proof.
  revert x. induction l as [|y l IH]; intros x; [reflexivity|].
  change (List.last (y :: l) d = List.last (y :: l) d'). apply IH.
Qed.

Lemma last_shift {A} (a d : A) (l : list A) : List.last (a :: l) d = List.last l a.
Proof.
  destruct l as [|y l]; [reflexivity|]. apply (last_default y d a).
Qed.

Lemma last_sentence (items : list string) (item : string) :
  exists x, List.last (map sentence items) (sentence item) = sentence x.
Proof.
  revert item. induction items as [|y ys IH]; intros item; [now exists item|].
  cbn [map]. rewrite last_shift. apply IH.
Qed.

Lemma chars_join_tight (p : string) (ps : list string) :
  tight (chars p) -> chars p <> [] ->
  Forall (fun q => tight (chars q) /\ chars q <> []) ps ->
  tight (chars (Array_join " " (p :: ps))) /\
  chars (Array_join " " (p :: ps)) <> [] /\
  exists pre, Array_join " " (p :: ps) = pre +:+ List.last ps p.
Proof.
  intros Hp Hne Hps. revert p Hp Hne.
  induction Hps as [|q ps [Hq Hqne] _ IH]; intros p Hp Hne.
  - cbn [Array_join List.last]. split; [exact Hp|]. split; [exact Hne|]. now exists ""%string.
  - change (Array_join " " (p :: q :: ps))
      with (p +:+ " " +:+ Array_join " " (q :: ps)).
    destruct (IH q Hq Hqne) as ([Jh Jl] & Jne & pre & Jp).
    rewrite !chars_append. split; [split|split].
    + intros c l' E. destruct (chars p) as [|x t] eqn:Ep; [congruence|].
      cbn in E. injection E as <- _. now apply (proj1 Hp x t).
    + intros l' c E. rewrite app_assoc in E.
      destruct (exists_last Jne) as (j' & y & Ey). rewrite Ey, app_assoc in E.
      apply app_inj_tail in E as [_ <-]. now apply (Jl j' y).
    + intros E. now apply app_eq_nil in E as [? _].
    + cbn [List.last]. destruct ps as [|q' ps'].
      * exists (p +:+ " "). cbn [Array_join List.last]. now rewrite string_app_assoc.
      * exists (p +:+ " " +:+ pre).
        rewrite Jp, !string_app_assoc, (last_default q' q p). reflexivity.
Qed.

(** X24: [joinTexts].  An item that ends with [.], [!] or [?] once trimmed is
    pushed as it is, trimmed; an item of one line ends with such a mark once
    pushed, a period being added when it has none; and joining the result of
    a join of one item or more changes nothing. *)
Theorem joinTexts_sentences :
  (forall item,
     ends_with_mark (trim item) -> sentence item = trim item) /\
  (forall item,
     forallb is_dot (chars (trim item)) = true ->
     ends_with_mark (sentence item) /\
     (sentence item = trim item \/ sentence item = trim item +:+ ".")) /\
  (forall items, items <> [] -> joinTexts [joinTexts items] = joinTexts items).
Proof.
  split; [|split].
  - intros item Hm. apply test_sentenceEnd_mark in Hm.
    destruct (sentence_cases item) as [[_ E]|[Hf _]]; [exact E|congruence].
  - intros item Hline. destruct (sentence_cases item) as [[Ht E]|[Hf E]].
    + split; [|now left]. rewrite E. now apply test_sentenceEnd_line.
    + split; [|now right]. rewrite E. exists (chars (trim item)), "."%char.
      split; [now rewrite chars_append|reflexivity].
  - intros [|item items] Hne; [congruence|]. unfold joinTexts. cbn [map].
    set (r := Array_join " " (sentence item :: map sentence items)).
    destruct (chars_join_tight (sentence item) (map sentence items)) as (Ht & _ & pre & Ep).
    + apply tight_sentence.
    + apply tight_sentence.
    + clear. induction items as [|y ys IH]; cbn [map]; constructor;
        [apply tight_sentence|exact IH].
    + fold r in Ht, Ep. cbn [Array_join]. unfold sentence.
      rewrite (trim_tight r Ht).
      assert (Hr : test_whole sentenceEndRegex r = true).
      { rewrite Ep. apply test_sentenceEnd_prefix.
        destruct (last_sentence items item) as [x ->]. apply sentence_test. }
      now rewrite Hr.
Qed.

End JoinTextsFacts.

Lemma joinTexts_sentences_witness :
  StringUtil.joinTexts ["  Hello world "; "Done! "]%string
  = "Hello world. Done!"%string /\
  StringUtil.joinTexts [StringUtil.joinTexts ["  Hello world "; "Done! "]%string]
  = StringUtil.joinTexts ["  Hello world "; "Done! "]%string /\
  StringUtil.sentence "Done! " = Text.trim "Done! ".
Proof.
  split; [reflexivity|]. split.
  - apply (proj2 (proj2 joinTexts_sentences)). discriminate.
  - apply (proj1 joinTexts_sentences). exists (chars "Done"), "!"%char.
    split; reflexivity.
Defined.

(** ** [util/log.ts]: the log level *)

Section LogLevelFacts.
Import StringUtil Log.
Context (validLevels : list string).

Lemma includes_In (level : string) :
  existsb (String.eqb level) validLevels = true <-> In level validLevels.
Proof.
  rewrite existsb_exists. split.
  - intros (x & Hx & E). apply String.eqb_eq in E. now subst.
  - intros Hin. exists level. split; [exact Hin|apply String.eqb_refl].
Qed.

(** X25: [configureLogLevel] sets the level of the transport to a valid
    level and says from which level to which; for any other level it throws
    a [RequestValidationError] that lists the valid levels and leaves the
    level as it was.  After a change the next change starts from the level
    set. *)
Theorem configureLogLevel_valid_only (level : string) (current : option string) :
  (In level validLevels ->
   configureLogLevel validLevels level current
   = (Returned ("Log level was changed from " +:+ default "undefined" current
                +:+ " to " +:+ level),
      Some level)) /\
  (~ In level validLevels ->
   configureLogLevel validLevels level current
   = (RequestValidationError
        ("Requested to configure log level with invalid level (" +:+ level
         +:+ "). Valid levels are: " +:+ listToText (Some validLevels) (Some AND)
         +:+ "."),
      current)) /\
  (forall next : string,
     In level validLevels -> In next validLevels ->
     fst (configureLogLevel validLevels next
            (snd (configureLogLevel validLevels level current)))
     = Returned ("Log level was changed from " +:+ level +:+ " to " +:+ next)).
Proof.
  assert (Hv : forall l c, In l validLevels ->
    configureLogLevel validLevels l c
    = (Returned ("Log level was changed from " +:+ default "undefined" c
                 +:+ " to " +:+ l), Some l)).
  { intros l c Hin. unfold configureLogLevel, validateLogLevel.
    apply includes_In in Hin. now rewrite Hin. }
  split; [apply Hv|]. split.
  - intros Hno. unfold configureLogLevel, validateLogLevel.
    destruct (existsb _ validLevels) eqn:E; [|reflexivity].
    apply includes_In in E. contradiction.
  - intros next Hl Hn. rewrite (Hv level current Hl). cbn [snd].
    now rewrite (Hv next _ Hn).
Qed.

End LogLevelFacts.

Lemma configureLogLevel_valid_only_witness :
  Log.configureLogLevel
    ["error"; "warn"; "info"; "http"; "verbose"; "debug"; "silly"]%string
    "trace" (Some "info"%string)
  = (Log.RequestValidationError
       "Requested to configure log level with invalid level (trace). Valid levels are: error, warn, info, http, verbose, debug, and silly.",
     Some "info"%string) /\
  fst (Log.configureLogLevel
         ["error"; "warn"; "info"; "http"; "verbose"; "debug"; "silly"]%string
         "debug" (Some "info"%string))
  = Log.Returned "Log level was changed from info to debug".
Proof.
  split.
  - refine (proj1 (proj2 (configureLogLevel_valid_only
                            ["error"; "warn"; "info"; "http"; "verbose"; "debug";
                             "silly"]%string "trace" (Some "info"%string))) _).
    intros Hin. cbn in Hin. intuition discriminate.
  - rewrite (proj1 (configureLogLevel_valid_only
                      ["error"; "warn"; "info"; "http"; "verbose"; "debug";
                       "silly"]%string "debug" (Some "info"%string))).
    + reflexivity.
    + cbn. tauto.
Defined.

(** ** [models/batch.ts]: the order of the rows *)

Section BatchOrderFacts.
Import BatchModel.

Lemma NoDup_map_inj {A B} (f : A -> B) (l : list A) (x y : A) :
  List.NoDup (map f l) -> In x l -> In y l -> f x = f y -> x = y.
Proof.
  induction l as [|a l IH]; cbn [map]; [intros _ []|].
  intros Hnd Hx Hy E. apply List.NoDup_cons_iff in Hnd as [Hna Hnd].
  destruct Hx as [->|Hx], Hy as [->|Hy]; auto.
  - exfalso. apply Hna. rewrite E. now apply in_map.
  - exfalso. apply Hna. rewrite <- E. now apply in_map.
Qed.

Lemma withHighest_row (tx : table) (j s : string) (b : Batch) :
  withHighestBatchIDForJobService tx j s = Some b ->
  exists r, b = Batch_of_row r /\ In r (where_job_service j s tx) /\
            Forall (fun y => row_batchID y <= row_batchID r) (where_job_service j s tx).
Proof.
  unfold withHighestBatchIDForJobService.
  destruct (first (orderBy_batchID_desc (where_job_service j s tx))) as [r|] eqn:E;
    [|discriminate].
  intros [= <-]. exists r. split; [reflexivity|]. now apply head_sort_desc.
Qed.

(** X26: when the batch ids of a job and service are all different,
    [withHighestBatchIDForJobService] gives the same batch whatever the order
    of the rows of the table: the result is fixed by the rows there are. *)
Theorem withHighestBatchID_any_table_order (tx tx' : table) (j s : string) :
  Permutation tx tx' ->
  List.NoDup (map row_batchID (where_job_service j s tx)) ->
  withHighestBatchIDForJobService tx' j s = withHighestBatchIDForJobService tx j s.
Proof.
  intros Hp Hnd.
  assert (Hw : Permutation (where_job_service j s tx) (where_job_service j s tx')).
  { unfold where_job_service. now apply filter_Permutation. }
  destruct (withHighestBatchIDForJobService tx j s) as [b|] eqn:E;
    destruct (withHighestBatchIDForJobService tx' j s) as [b'|] eqn:E'.
  - apply withHighest_row in E as (r & -> & Hin & Hmax).
    apply withHighest_row in E' as (r' & -> & Hin' & Hmax').
    f_equal. f_equal.
    assert (Hin2 : In r' (where_job_service j s tx)).
    { apply list_elem_of_In. rewrite Hw. now apply list_elem_of_In. }
    assert (Hin3 : In r (where_job_service j s tx')).
    { apply list_elem_of_In. rewrite <- Hw. now apply list_elem_of_In. }
    apply (NoDup_map_inj row_batchID _ r' r Hnd Hin2 Hin).
    rewrite List.Forall_forall in Hmax, Hmax'.
    pose proof (Hmax r' Hin2). pose proof (Hmax' r Hin3). lia.
  - exfalso. pose proof (withHighestBatchID_max tx' j s) as H'. rewrite E' in H'.
    apply withHighest_row in E as (r & _ & Hin & _).
    apply list_elem_of_In in Hin. rewrite Hw, H' in Hin. inversion Hin.
  - exfalso. pose proof (withHighestBatchID_max tx j s) as H0. rewrite E in H0.
    apply withHighest_row in E' as (r & _ & Hin & _).
    apply list_elem_of_In in Hin. rewrite <- Hw, H0 in Hin. inversion Hin.
  - reflexivity.
Qed.

End BatchOrderFacts.

Lemma withHighestBatchID_any_table_order_witness :
  BatchModel.withHighestBatchIDForJobService
    [ BatchModel.mkRow 3 "job" "svc" 2; BatchModel.mkRow 2 "other" "svc" 9;
      BatchModel.mkRow 1 "job" "svc" 1 ] "job" "svc"
  = BatchModel.withHighestBatchIDForJobService
    [ BatchModel.mkRow 1 "job" "svc" 1; BatchModel.mkRow 2 "other" "svc" 9;
      BatchModel.mkRow 3 "job" "svc" 2 ] "job" "svc".
Proof.
  apply withHighestBatchID_any_table_order.
  - apply (Permutation_rev [ BatchModel.mkRow 1 "job" "svc" 1;
                             BatchModel.mkRow 2 "other" "svc" 9;
                             BatchModel.mkRow 3 "job" "svc" 2 ]).
  - vm_compute. repeat constructor; cbn; intuition discriminate.
Defined.

(** ** The service runner: output catalogs at the edges *)

Section CatalogEdgeFacts.
Import Logging WorkItemModel Runner.
Context `{JSONBuiltins} `{Locations} {O : Type} `{ObjectStore O} (env : Env).

(** X27: [_getStacCatalogs] at its edges.  A manifest that is no array makes
    it throw, and so does a manifest that cannot be read: the directory is not
    listed then.  Without a manifest, no catalog or a single one is returned
    as listed (a single [catalog.json] without index included), and a listing
    that fails makes it throw. *)
Theorem getStacCatalogs_edges (dir : string) (s3 : O) :
  (forall v : json,
     objectExists (dir +:+ "batch-catalogs.json") s3 = Ok true ->
     getObjectJson (dir +:+ "batch-catalogs.json") s3 = Ok v ->
     (forall names, v <> JArr names) ->
     exists e, _getStacCatalogs env dir s3 = Throw e) /\
  (forall e : exn,
     objectExists (dir +:+ "batch-catalogs.json") s3 = Ok true ->
     getObjectJson (dir +:+ "batch-catalogs.json") s3 = Throw e ->
     _getStacCatalogs env dir s3 = Throw e) /\
  (forall keys : list string,
     objectExists (dir +:+ "batch-catalogs.json") s3 = Ok false ->
     listObjectKeys dir s3 = Ok keys ->
     (length (catalogUrls env keys) <= 1)%nat ->
     _getStacCatalogs env dir s3 = Ok (catalogUrls env keys)) /\
  (forall e : exn,
     objectExists (dir +:+ "batch-catalogs.json") s3 = Ok false ->
     listObjectKeys dir s3 = Throw e ->
     _getStacCatalogs env dir s3 = Throw e).
Proof.
  split; [|split; [|split]].
  - intros v He Hg Hv. unfold _getStacCatalogs. rewrite He. cbn [res_bind].
    rewrite Hg. cbn [res_bind]. destruct v; cbn [Array_map]; eauto.
    exfalso. now apply (Hv items).
  - intros e He Hg. unfold _getStacCatalogs. rewrite He. cbn [res_bind].
    now rewrite Hg.
  - intros keys He Hl Hlen. unfold _getStacCatalogs. rewrite He. cbn [res_bind].
    rewrite Hl. cbn [res_bind]. fold (catalogUrls env keys).
    destruct (catalogUrls env keys) as [|u [|u' us]]; [reflexivity|reflexivity|].
    cbn [length] in Hlen. lia.
  - intros e He Hl. unfold _getStacCatalogs. rewrite He. cbn [res_bind].
    now rewrite Hl.
Qed.

End CatalogEdgeFacts.

Lemma getStacCatalogs_edges_witness :
  Runner._getStacCatalogs Fixtures.env0 Fixtures.outputs7
    (Reference.mkMemStore "artifacts"
       [ ("job/7/outputs/catalog.json", "{}"); ("job/7/outputs/notes.txt", "-") ]%string)
  = Ok ["s3://artifacts/job/7/outputs/catalog.json"%string].
Proof.
  refine (proj1 (proj2 (proj2 (getStacCatalogs_edges Fixtures.env0 Fixtures.outputs7
                                 (Reference.mkMemStore "artifacts"
                                    [ ("job/7/outputs/catalog.json", "{}");
                                      ("job/7/outputs/notes.txt", "-") ]%string))))
            [ "job/7/outputs/catalog.json"; "job/7/outputs/notes.txt" ]%string _ _ _).
  - vm_compute; reflexivity.
  - vm_compute; reflexivity.
  - vm_compute. lia.
Defined.
